(** * Batched transducer decoding: greedy search and modified beam search

    A shallow embedding of [examples/libriheavy/tools/beam_search.py]
    ([DecodingResults], [greedy_search_batch], [Hypothesis],
    [HypothesisList], [get_hyps_row_splits], [modified_beam_search]) and the
    properties of it that the specification states.

    Conventions of the embedding.
    - Token ids are [Z] (the padding id [-1] occurs), frame indices and sizes
      are [nat] (Python integers).  The row splits are [int32] tensors: they
      are [Z] with the wrap-around at [2^31] written out ([wrap32]), and a
      slice between two of them follows Python's rule for negative bounds
      ([slice_z]).
    - Log-probabilities are float32 tensors in the source.  They are kept
      abstract here ([ScoreOps]): a carrier with the operations the code
      applies to them.  Two carriers are provided: the real numbers, and an
      exact executable one in which a score is the logarithm of a positive
      rational.
    - A Python [dict] is insertion ordered and the code depends on that order
      (iteration in [list(b)], first maximum in [max]); a [HypothesisList] is
      therefore an association list in insertion order.
    - Exceptions are values of [result]; calls into the network are recorded
      in a log ([W], a writer over [result]).
    - [torch.topk] and [torch.sort] leave the order of equal elements open;
      they are parameters ([Torch]). *)

From Stdlib Require Import String Ascii Decimal DecimalString DecimalZ.
From Stdlib Require Import QArith Reals.
From Stdlib Require Import ZArith Lia Bool Arith PeanoNat List Permutation Sorted.
Import ListNotations.

Set Implicit Arguments.

Close Scope Q_scope.
Close Scope R_scope.
Close Scope Z_scope.
Open Scope nat_scope.
Open Scope list_scope.

(* ================================================================= *)
(** * Part I: the embedding *)
(* ================================================================= *)

(** ** Exceptions and the call log *)

Inductive error : Type :=
| AssertionError
| RuntimeError
| IndexError
| ValueError.

Inductive result (A : Type) : Type :=
| Ok (a : A)
| Raise (e : error).

Arguments Ok {A} a.
Arguments Raise {A} e.

Definition rbind {A B} (r : result A) (f : A -> result B) : result B :=
  match r with
  | Ok a => f a
  | Raise e => Raise e
  end.

Definition is_ok {A} (r : result A) : bool :=
  match r with Ok _ => true | Raise _ => false end.

Definition to_option {A} (r : result A) : option A :=
  match r with Ok a => Some a | Raise _ => None end.

Fixpoint rmapM {A B} (f : A -> result B) (l : list A) : result (list B) :=
  match l with
  | [] => Ok []
  | x :: l' => rbind (f x) (fun y => rbind (rmapM f l') (fun ys => Ok (y :: ys)))
  end.

(** One entry per invocation of a module of the network; the argument is the
    number of rows of the batch that is passed. *)
Inductive call : Type :=
| CallDecoder (rows : nat)
| CallEncoderProj (rows : nat)
| CallJoiner (rows : nat).

(** Writer over [result]: the calls issued so far and the outcome. *)
Definition W (A : Type) : Type := (list call * result A)%type.

Definition ret {A} (a : A) : W A := ([], Ok a).
Definition raise {A} (e : error) : W A := ([], Raise e).
Definition tell (c : call) : W unit := ([c], Ok tt).
Definition lift {A} (r : result A) : W A := ([], r).

Definition bind {A B} (m : W A) (f : A -> W B) : W B :=
  match m with
  | (l1, Ok a) => let '(l2, r) := f a in (l1 ++ l2, r)
  | (l1, Raise e) => (l1, Raise e)
  end.

Definition calls {A} (m : W A) : list call := fst m.
Definition outcome {A} (m : W A) : result A := snd m.

Declare Scope w_scope.
Delimit Scope w_scope with W.
Notation "x <- m ;; k" := (bind m (fun x => k))
  (at level 61, m at next level, right associativity) : w_scope.
Notation "m ;;; k" := (bind m (fun _ => k))
  (at level 61, right associativity) : w_scope.

(** Python [assert]. *)
Definition assert (b : bool) : W unit :=
  if b then ret tt else raise AssertionError.

Fixpoint mapM {A B} (f : A -> W B) (l : list A) : W (list B) :=
  match l with
  | [] => ret []
  | x :: l' => (y <- f x ;; ys <- mapM f l' ;; ret (y :: ys))%W
  end.

(** [for (t, x) in enumerate(l)] with the loop-carried state [s]; [t0] is the
    index of the head of [l]. *)
Fixpoint for_enumerate {A St} (body : nat -> A -> St -> W St)
  (t0 : nat) (l : list A) (s : St) : W St :=
  match l with
  | [] => ret s
  | x :: l' => (s' <- body t0 x s ;; for_enumerate body (S t0) l' s')%W
  end.

Fixpoint rfor_enumerate {A St} (body : nat -> A -> St -> result St)
  (t0 : nat) (l : list A) (s : St) : result St :=
  match l with
  | [] => Ok s
  | x :: l' => rbind (body t0 x s) (rfor_enumerate body (S t0) l')
  end.

(** ** Scores *)

(** The operations the code applies to log-probabilities.  [quot] is the type
    of [log_prob / len(ys)], the key of the length-normalised maximum. *)
Record ScoreOps : Type := {
  score : Type;
  quot : Type;
  s_zero : score;                           (* torch.zeros(1) *)
  s_add : score -> score -> score;          (* log_probs.add_(ys_log_probs) *)
  s_logaddexp : score -> score -> score;    (* torch.logaddexp *)
  s_gtb : score -> score -> bool;           (* a > b *)
  s_div_len : score -> nat -> quot;         (* log_prob / len(ys) *)
  q_gtb : quot -> quot -> bool              (* a > b on quotients *)
}.

(** Real-number scores: the float32 operations idealised. *)
Definition RScore : ScoreOps := {|
  score := R;
  quot := R;
  s_zero := 0%R;
  s_add := Rplus;
  s_logaddexp := fun a b => ln (exp a + exp b);
  s_gtb := fun a b => if Rlt_dec b a then true else false;
  s_div_len := fun a n => (a / INR n)%R;
  q_gtb := fun a b => if Rlt_dec b a then true else false
|}.

Definition Qltb (a b : Q) : bool := negb (Qle_bool b a).

(** Exact scores: the positive rational [p] stands for [log p].  Adding
    logarithms multiplies, [logaddexp] adds, the order is that of the
    rationals, and [log p / n > log q / m] is [p^m > q^n] for positive
    [n], [m]. *)
Definition LogQ : ScoreOps := {|
  score := Q;
  quot := (Q * nat)%type;
  s_zero := 1%Q;
  s_add := Qmult;
  s_logaddexp := Qplus;
  s_gtb := fun a b => Qltb b a;
  s_div_len := fun p n => (p, n);
  q_gtb := fun a b =>
    Qltb (Qpower (fst b) (Z.of_nat (snd a))) (Qpower (fst a) (Z.of_nat (snd b)))
|}.

(** ** Results *)

Record DecodingResults (O : ScoreOps) : Type := {
  timestamps : list (list nat);
  hyps : list (list Z);
  scores : list (list (score O))
}.

(** ** Hypothesis ([Hypothesis] is a reserved word, hence the underscore) *)

Record Hypothesis_ (O : ScoreOps) : Type := {
  ys : list Z;
  hyp_scores : list (score O);
  log_prob : score O;
  timestamp : list nat
}.

(** Python [str] of an integer. *)
Definition str (z : Z) : string := NilZero.string_of_int (Z.to_int z).

(** ["_".join(map(str, self.ys))] *)
Definition key {O} (h : Hypothesis_ O) : string :=
  String.concat "_" (map str (ys h)).

(** ** HypothesisList *)

(** The dict [_data], in insertion order. *)
Definition HypothesisList (O : ScoreOps) : Type :=
  list (string * Hypothesis_ O).

Section HypothesisListOps.
Variable O : ScoreOps.

(** [self._data[key]] *)
Fixpoint lookup (k : string) (d : HypothesisList O) : option (Hypothesis_ O) :=
  match d with
  | [] => None
  | (k', h) :: d' => if String.eqb k k' then Some h else lookup k d'
  end.

(** [key in self] *)
Definition contains (k : string) (d : HypothesisList O) : bool :=
  match lookup k d with Some _ => true | None => false end.

(** [torch.logaddexp(old_hyp.log_prob, hyp.log_prob, out=old_hyp.log_prob)]:
    the stored hypothesis keeps its sequences, its [log_prob] tensor is
    overwritten. *)
Definition merge_into (old_hyp hyp : Hypothesis_ O) : Hypothesis_ O :=
  {| ys := ys old_hyp;
     hyp_scores := hyp_scores old_hyp;
     log_prob := s_logaddexp O (log_prob old_hyp) (log_prob hyp);
     timestamp := timestamp old_hyp |}.

(** The entry under [k] is replaced in place (its position in the dict does
    not change). *)
Fixpoint merge_at (k : string) (hyp : Hypothesis_ O) (d : HypothesisList O)
  : HypothesisList O :=
  match d with
  | [] => []
  | (k', h) :: d' =>
      if String.eqb k k' then (k', merge_into h hyp) :: d'
      else (k', h) :: merge_at k hyp d'
  end.

(** [HypothesisList.add] *)
Definition add (d : HypothesisList O) (hyp : Hypothesis_ O) : HypothesisList O :=
  let k := key hyp in
  if contains k d then merge_at k hyp d
  else d ++ [(k, hyp)].

(** [self._data.values()] *)
Definition values (d : HypothesisList O) : list (Hypothesis_ O) := map snd d.

(** Python [max(iterable, key=f)] on a non-empty iterable: the first
    element whose key no later element exceeds; an element replaces the
    current maximum only when its key is strictly greater. *)
Fixpoint max_from {A K} (gt : K -> K -> bool) (f : A -> K)
  (best : A) (l : list A) : A :=
  match l with
  | [] => best
  | x :: l' => max_from gt f (if gt (f x) (f best) then x else best) l'
  end.

Definition py_max {A K} (gt : K -> K -> bool) (f : A -> K) (l : list A)
  : result A :=
  match l with
  | [] => Raise ValueError
  | x :: l' => Ok (max_from gt f x l')
  end.

(** [HypothesisList.get_most_probable] *)
Definition get_most_probable (d : HypothesisList O) (length_norm : bool)
  : result (Hypothesis_ O) :=
  if length_norm then
    py_max (q_gtb O)
      (fun hyp => s_div_len O (log_prob hyp) (length (ys hyp))) (values d)
  else
    py_max (s_gtb O) (fun hyp => log_prob hyp) (values d).

(** [HypothesisList.remove] *)
Definition remove (d : HypothesisList O) (hyp : Hypothesis_ O)
  : result (HypothesisList O) :=
  let k := key hyp in
  if contains k d
  then Ok (filter (fun e => negb (String.eqb k (fst e))) d)
  else Raise AssertionError.

(** [HypothesisList.filter] *)
Definition hl_filter (d : HypothesisList O) (threshold : score O)
  : HypothesisList O :=
  fold_left
    (fun ans e => if s_gtb O (log_prob (snd e)) threshold
                  then add ans (snd e) else ans)
    d [].

(** [len(self)] *)
Definition hl_len (d : HypothesisList O) : nat := length d.

End HypothesisListOps.

(** ** The network and the tensor library *)

(** The transducer, as far as the decoders use it.  A module of the network
    maps the rows of its input batch independently; each field gives one row.
    [frame] is a row of [encoder_out], [eframe] a row of
    [joiner.encoder_proj], [dec] a row of [joiner.decoder_proj(decoder(.))]
    and [logits] a row of the joiner output. *)
Record Model (frame eframe dec logits : Type) : Type := {
  blank_id : Z;                        (* model.decoder.blank_id *)
  unk_id_attr : option Z;              (* model.unk_id, if the attribute exists *)
  context_size : nat;                  (* model.decoder.context_size *)
  vocab_size : nat;                    (* size of the last dimension of logits *)
  decoder : list Z -> dec;
  encoder_proj : frame -> eframe;
  joiner : eframe -> dec -> logits
}.

(** The numeric kernels of torch that the code calls.  [topk xs k] is
    [xs.topk(k)] on a 1-D tensor, as (value, index) pairs;
    [sort_descending ls] is the index tensor of
    [torch.sort(ls, descending=True)]. *)
Record Torch (O : ScoreOps) (logits temperature : Type) : Type := {
  log_softmax : logits -> nat -> score O;       (* entry v of log_softmax(dim=-1) *)
  div_scalar : logits -> temperature -> logits; (* logits / temperature *)
  topk : list (score O) -> nat -> result (list (score O * nat));
  sort_descending : list Z -> list nat
}.

(** *** List helpers for Python and tensor indexing *)

(** [l[a:b]] *)
Definition slice {A} (l : list A) (a b : nat) : list A :=
  firstn (b - a) (skipn a l).

(** An entry of an [int32] tensor: the integer [z] wrapped into the range
    from [-2^31] to [2^31 - 1]. *)
Definition wrap32 (z : Z) : Z := ((z + 2 ^ 31) mod 2 ^ 32 - 2 ^ 31)%Z.

(** A bound of the slice [l[a:b]] of a sequence of length [len]: a negative
    bound counts from the end, and the result is clamped to [0 .. len]. *)
Definition slice_bound (len : nat) (z : Z) : nat :=
  if (z <? 0)%Z then Z.to_nat (z + Z.of_nat len)
  else Nat.min (Z.to_nat z) len.

(** [l[a:b]] for the entries [a], [b] of an integer tensor. *)
Definition slice_z {A} (l : list A) (a b : Z) : list A :=
  slice l (slice_bound (length l) a) (slice_bound (length l) b).

(** [h[-c:]]; [h[-0:]] is all of [h]. *)
Definition last_n {A} (c : nat) (h : list A) : list A :=
  if c =? 0 then h else skipn (length h - c) h.

(** [l[i]], raising [IndexError] out of range. *)
Definition index {A} (l : list A) (i : nat) : result A :=
  match nth_error l i with
  | Some x => Ok x
  | None => Raise IndexError
  end.

(** [l[i] = f(l[i])], raising [IndexError] out of range. *)
Fixpoint alter {A} (f : A -> A) (i : nat) (l : list A) : result (list A) :=
  match l, i with
  | [], _ => Raise IndexError
  | x :: l', 0 => Ok (f x :: l')
  | x :: l', S i' => rbind (alter f i' l') (fun r => Ok (x :: r))
  end.

(** [l[i] = v], silently dropped out of range (a scatter into a buffer). *)
Fixpoint scatter_at {A} (i : nat) (v : A) (l : list A) : list A :=
  match l, i with
  | [], _ => []
  | _ :: l', 0 => v :: l'
  | x :: l', S i' => x :: scatter_at i' v l'
  end.

(** [enumerate(l)] starting at [i]. *)
Fixpoint enumerate_from {A} (i : nat) (l : list A) : list (nat * A) :=
  match l with
  | [] => []
  | x :: l' => (i, x) :: enumerate_from (S i) l'
  end.

(** [torch.cumsum(., dtype=torch.int32)] (inclusive) with the running total
    [acc]: the entries are cast to [int32] and the sums wrap. *)
Fixpoint cumsum_from (acc : Z) (l : list Z) : list Z :=
  match l with
  | [] => []
  | x :: l' =>
      let acc' := wrap32 (acc + wrap32 x) in
      acc' :: cumsum_from acc' l'
  end.

(** Row-wise application of a two-argument module; the batch dimensions have
    to agree. *)
Definition zip_rows {A B C} (f : A -> B -> C) (xs : list A) (ys : list B)
  : result (list C) :=
  if length xs =? length ys
  then Ok (map (fun p => f (fst p) (snd p)) (combine xs ys))
  else Raise RuntimeError.

(** ** pack_padded_sequence *)

Record PackedSequence (A : Type) : Type := {
  data : list A;
  batch_sizes : list nat;
  sorted_indices : list nat;
  unsorted_indices : list nat
}.

(** [torch.nn.utils.rnn.invert_permutation]:
    [output.scatter_(0, permutation, arange(n))]. *)
Definition invert_permutation (permutation : list nat) : list nat :=
  fold_left (fun out ip => scatter_at (snd ip) (fst ip) out)
            (enumerate_from 0 permutation)
            (repeat 0 (length permutation)).

(** The number of sequences longer than [t]. *)
Definition count_longer (lengths : list Z) (t : nat) : nat :=
  length (filter (fun l => Z.of_nat t <? l)%Z lengths).

Section Pack.
Context {frame : Type}.
Variable sort_desc : list Z -> list nat.

(** [pack_padded_sequence(input, lengths, batch_first=True,
    enforce_sorted=False)].  A row of [input] is a function from the frame
    index to the frame: the padded length of the tensor is not modelled, a
    valid length never exceeds it.  The sequences are sorted longest first,
    [data] holds for each time step the frames of the sequences that are
    still running, [batch_sizes] their number.  Packing an empty batch, a
    batch whose size differs from the number of lengths, or a sequence of
    non-positive length raises. *)
Definition pack_padded_sequence (input : list (nat -> frame)) (lengths : list Z)
  : result (PackedSequence frame) :=
  let sorted_idx := sort_desc lengths in
  rbind (rmapM (index lengths) sorted_idx) (fun sorted_lengths =>
  rbind (rmapM (index input) sorted_idx) (fun sorted_input =>
  match rev sorted_lengths with
  | [] => Raise RuntimeError                    (* Cannot pack empty tensors *)
  | shortest :: _ =>
      if (0 <? shortest)%Z then
        let steps := seq 0 (Z.to_nat (hd 0%Z sorted_lengths)) in
        let sizes := map (count_longer sorted_lengths) steps in
        Ok {| data :=
                concat (map (fun t =>
                          map (fun row => row t)
                              (firstn (count_longer sorted_lengths t) sorted_input))
                        steps);
              batch_sizes := sizes;
              sorted_indices := sorted_idx;
              unsorted_indices := invert_permutation sorted_idx |}
      else Raise RuntimeError                   (* a length that is <= 0 *)
  end)).

End Pack.

(** ** Modelled from the spec: row_splits_to_row_ids *)

(** Modelled from the spec: [utils.row_splits_to_row_ids] is imported by
    [beam_search.py] but is not among the sources.  The specification has all
    hypotheses of one utterance share that utterance's frame: entry [j] of the
    result is the utterance that the flattened hypothesis [j] belongs to, so
    for row splits [0, n0, n0 + n1, ...] it is [n0] zeros, [n1] ones, ...:
    the row [r] is repeated [row_splits[r + 1] - row_splits[r]] times (not at
    all when that difference is not positive). *)
Fixpoint row_splits_to_row_ids_from (row : nat) (row_splits : list Z)
  : list nat :=
  match row_splits with
  | a :: ((b :: _) as rest) =>
      repeat row (Z.to_nat (b - a))
      ++ row_splits_to_row_ids_from (S row) rest
  | _ => []
  end.

Definition row_splits_to_row_ids (row_splits : list Z) : list nat :=
  row_splits_to_row_ids_from 0 row_splits.

(** ** The decoders *)

Section Search.
Context {frame eframe dec logits temperature : Type}.
Variable O : ScoreOps.
Variable K : Torch O logits temperature.
Variable model : Model frame eframe dec logits.

(** [getattr(model, "unk_id", blank_id)] *)
Definition getattr_unk_id : Z :=
  match unk_id_attr model with
  | Some u => u
  | None => blank_id model
  end.

(** [v not in (blank_id, unk_id)] *)
Definition not_in_sentinels (blank_id unk_id v : Z) : bool :=
  negb ((v =? blank_id)%Z || (v =? unk_id)%Z).

(** The rows of [logits.log_softmax(dim=-1)]: a (rows, vocab_size) tensor. *)
Definition log_softmax_rows (lgs : list logits) : list (list (score O)) :=
  map (fun lg => map (log_softmax K lg) (seq 0 (vocab_size model))) lgs.

(** [argmax] of one row: the index of the first maximal entry. *)
Fixpoint argmax_from (best_i : nat) (best : score O) (i : nat)
  (row : list (score O)) : nat :=
  match row with
  | [] => best_i
  | x :: row' =>
      if s_gtb O x best then argmax_from i x (S i) row'
      else argmax_from best_i best (S i) row'
  end.

Definition argmax (row : list (score O)) : result nat :=
  match row with
  | [] => Raise IndexError
  | x :: row' => Ok (argmax_from 0 x 1 row')
  end.

(** *** greedy_search_batch *)

Record GreedyState : Type := {
  g_offset : nat;
  g_hyps : list (list Z);
  g_timestamps : list (list nat);
  g_scores : list (list (score O));
  g_decoder_out : list dec
}.

(** The lists that the loop [for i, v in enumerate(y)] updates, and the flag
    [emitted]. *)
Record GreedyEmit : Type := {
  e_hyps : list (list Z);
  e_timestamps : list (list nat);
  e_scores : list (list (score O));
  e_emitted : bool
}.

(** One iteration of [for i, v in enumerate(y)]. *)
Definition greedy_emit_one (blank_id unk_id : Z) (t : nat)
  (log_probs : list (list (score O))) (i v : nat) (e : GreedyEmit)
  : result GreedyEmit :=
  if not_in_sentinels blank_id unk_id (Z.of_nat v) then
    rbind (alter (fun h => h ++ [Z.of_nat v]) i (e_hyps e)) (fun hyps' =>
    rbind (alter (fun ts => ts ++ [t]) i (e_timestamps e)) (fun timestamps' =>
    rbind (index log_probs i) (fun row =>
    rbind (index row v) (fun p =>
    rbind (alter (fun sc => sc ++ [p]) i (e_scores e)) (fun scores' =>
    Ok {| e_hyps := hyps';
          e_timestamps := timestamps';
          e_scores := scores';
          e_emitted := true |})))))
  else Ok e.

Fixpoint greedy_emit (blank_id unk_id : Z) (t : nat)
  (log_probs : list (list (score O))) (i : nat) (y : list nat) (e : GreedyEmit)
  : result GreedyEmit :=
  match y with
  | [] => Ok e
  | v :: y' =>
      rbind (greedy_emit_one blank_id unk_id t log_probs i v e)
            (greedy_emit blank_id unk_id t log_probs (S i) y')
  end.

(** The body of [for (t, batch_size) in enumerate(batch_size_list)]. *)
Definition greedy_step (blank_id unk_id : Z) (context_size : nat)
  (encoder_out : list eframe) (t batch_size : nat) (s : GreedyState)
  : W GreedyState :=
  (let start := g_offset s in
   let end_ := g_offset s + batch_size in
   let current_encoder_out := slice encoder_out start end_ in
   let decoder_out := firstn batch_size (g_decoder_out s) in
   tell (CallJoiner (length current_encoder_out)) ;;;
   lgs <- lift (zip_rows (joiner model) current_encoder_out decoder_out) ;;
   let log_probs := log_softmax_rows lgs in
   y <- lift (rmapM argmax log_probs) ;;
   e <- lift (greedy_emit blank_id unk_id t log_probs 0 y
                {| e_hyps := g_hyps s;
                   e_timestamps := g_timestamps s;
                   e_scores := g_scores s;
                   e_emitted := false |}) ;;
   if e_emitted e then
     let decoder_input :=
       map (last_n context_size) (firstn batch_size (e_hyps e)) in
     tell (CallDecoder (length decoder_input)) ;;;
     ret {| g_offset := end_;
            g_hyps := e_hyps e;
            g_timestamps := e_timestamps e;
            g_scores := e_scores e;
            g_decoder_out := map (decoder model) decoder_input |}
   else
     ret {| g_offset := end_;
            g_hyps := e_hyps e;
            g_timestamps := e_timestamps e;
            g_scores := e_scores e;
            g_decoder_out := decoder_out |})%W.

(** [ans.append(sorted_ans[unsorted_indices[i]])] for [i in range(N)]. *)
Definition unsort {A} (N : nat) (unsorted_idx : list nat) (sorted : list A)
  : result (list A) :=
  rmapM (fun i => rbind (index unsorted_idx i) (index sorted)) (seq 0 N).

Definition greedy_search_batch (encoder_out : list (nat -> frame))
  (encoder_out_lens : list Z) : W (DecodingResults O) :=
  (assert (1 <=? length encoder_out) ;;;
   packed <- lift (pack_padded_sequence (sort_descending K)
                     encoder_out encoder_out_lens) ;;
   let blank_id := blank_id model in
   let unk_id := getattr_unk_id in
   let context_size := context_size model in
   let batch_size_list := batch_sizes packed in
   let N := length encoder_out in
   assert (forallb (fun l => 0 <? l)%Z encoder_out_lens) ;;;
   first_size <- lift (index batch_size_list 0) ;;
   assert (N =? first_size) ;;;
   let hyps := repeat (repeat (-1)%Z (context_size - 1) ++ [blank_id]) N in
   let timestamps := repeat [] N in
   let scores := repeat [] N in
   tell (CallDecoder (length hyps)) ;;;
   let decoder_out := map (decoder model) hyps in
   tell (CallEncoderProj (length (data packed))) ;;;
   let encoder_out := map (encoder_proj model) (data packed) in
   s <- for_enumerate (greedy_step blank_id unk_id context_size encoder_out)
          0 batch_size_list
          {| g_offset := 0;
             g_hyps := hyps;
             g_timestamps := timestamps;
             g_scores := scores;
             g_decoder_out := decoder_out |} ;;
   let sorted_ans := map (skipn context_size) (g_hyps s) in
   let unsorted_idx := unsorted_indices packed in
   ans <- lift (unsort N unsorted_idx sorted_ans) ;;
   ans_timestamps <- lift (unsort N unsorted_idx (g_timestamps s)) ;;
   ans_scores <- lift (unsort N unsorted_idx (g_scores s)) ;;
   ret {| hyps := ans; timestamps := ans_timestamps; scores := ans_scores |})%W.

(** *** get_hyps_row_splits *)

(** [torch.cumsum(., dtype=torch.int32)] of [0 :: [len(h) for h in hyps]]. *)
Definition get_hyps_row_splits (hyps : list (HypothesisList O)) : list Z :=
  cumsum_from 0%Z (0%Z :: map (fun h => Z.of_nat (hl_len h)) hyps).

(** *** modified_beam_search *)

Record BeamState : Type := {
  b_offset : nat;
  b_B : list (HypothesisList O);
  b_finalized_B : list (HypothesisList O)
}.

(** The hypothesis [new_hyp] that the body of
    [for k in range(len(topk_hyp_indexes))] builds from the candidate [cand],
    for the utterance whose hypotheses are [A_i].  [current_log_probs] is the
    slice of [log_probs_t] for this utterance. *)
Definition beam_new_hyp (blank_id unk_id : Z) (t vocab_size : nat)
  (A_i : list (Hypothesis_ O)) (current_log_probs : list (score O))
  (cand : score O * nat) : result (Hypothesis_ O) :=
  let topk_log_prob := fst cand in
  let topk_index := snd cand in
  let hyp_idx := topk_index / vocab_size in
  let new_token := Z.of_nat (topk_index mod vocab_size) in
  rbind (index A_i hyp_idx) (fun hyp =>
  if not_in_sentinels blank_id unk_id new_token then
    rbind (index current_log_probs topk_index) (fun p =>
    Ok {| ys := ys hyp ++ [new_token];
          hyp_scores := hyp_scores hyp ++ [p];
          log_prob := topk_log_prob;
          timestamp := timestamp hyp ++ [t] |})
  else
    Ok {| ys := ys hyp;
          hyp_scores := hyp_scores hyp;
          log_prob := topk_log_prob;
          timestamp := timestamp hyp |}).

(** [B[i].add(new_hyp)] *)
Definition beam_expand_one (blank_id unk_id : Z) (t vocab_size : nat)
  (A_i : list (Hypothesis_ O)) (current_log_probs : list (score O))
  (B_i : HypothesisList O) (cand : score O * nat)
  : result (HypothesisList O) :=
  rbind (beam_new_hyp blank_id unk_id t vocab_size A_i current_log_probs cand)
        (fun new_hyp => Ok (add B_i new_hyp)).

Fixpoint beam_expand (blank_id unk_id : Z) (t vocab_size : nat)
  (A_i : list (Hypothesis_ O)) (current_log_probs : list (score O))
  (cands : list (score O * nat)) (B_i : HypothesisList O)
  : result (HypothesisList O) :=
  match cands with
  | [] => Ok B_i
  | c :: cands' =>
      rbind (beam_expand_one blank_id unk_id t vocab_size A_i
               current_log_probs B_i c)
            (beam_expand blank_id unk_id t vocab_size A_i current_log_probs cands')
  end.

(** The body of [for i in range(batch_size)]: the new set [B[i]].
    [log_probs] is the flattened tensor after [log_probs.add_(ys_log_probs)];
    [log_probs_t] is what the name [log_probs_t] denotes when the loop
    runs. *)
Definition beam_utterance (blank_id unk_id : Z) (beam t vocab_size : nat)
  (A : list (list (Hypothesis_ O))) (row_splits : list Z)
  (log_probs log_probs_t : list (score O)) (i : nat)
  : result (HypothesisList O) :=
  rbind (index row_splits i) (fun lo =>
  rbind (index row_splits (S i)) (fun hi =>
  rbind (topk K (slice_z log_probs lo hi) beam) (fun top =>
  let current_log_probs := slice_z log_probs_t lo hi in
  rbind (index A i) (fun A_i =>
  beam_expand blank_id unk_id t vocab_size A_i current_log_probs top [])))).

(** The tensors that one time step computes before the loop over the
    utterances. *)
Record BeamTensors : Type := {
  bt_A : list (list (Hypothesis_ O));
  bt_row_splits : list Z;            (* hyps_row_splits * vocab_size, int32 *)
  bt_log_probs : list (score O);     (* log_probs, flattened, after add_ *)
  bt_log_probs_t : list (score O)    (* what log_probs_t reads in the loop *)
}.

(** The scoring part of a time step: from [hyps_row_splits] to
    [row_splits], for the active sets [B] and their frames.

    [log_probs_t = log_probs.reshape(-1)] is taken before
    [log_probs.add_(ys_log_probs)].  The result of [log_softmax] is
    contiguous, so [reshape] returns a view of the same storage, and [add_]
    writes that storage in place: from then on [log_probs_t] reads the sums.
    [storage0] is the storage before [add_], [storage1] after it; both names
    [log_probs] and [log_probs_t] denote [storage1] in the loop over the
    utterances. *)
Definition beam_scoring (context_size : nat) (temperature_ : temperature)
  (current_encoder_out : list eframe) (B : list (HypothesisList O))
  : W BeamTensors :=
  (let hyps_row_splits := get_hyps_row_splits B in
   let A := map (@values O) B in
   let flat_hyps := concat A in
   (* torch.cat of an empty list raises *)
   nonempty <- lift (match flat_hyps with
                     | [] => Raise RuntimeError
                     | _ => Ok tt
                     end) ;;
   let ys_log_probs := map (@log_prob O) flat_hyps in
   let decoder_input := map (fun hyp => last_n context_size (ys hyp)) flat_hyps in
   tell (CallDecoder (length decoder_input)) ;;;
   let decoder_out := map (decoder model) decoder_input in
   current_encoder_out' <-
     lift (rmapM (index current_encoder_out)
                 (row_splits_to_row_ids hyps_row_splits)) ;;
   tell (CallJoiner (length current_encoder_out')) ;;;
   lgs <- lift (zip_rows (joiner model) current_encoder_out' decoder_out) ;;
   let storage0 :=
     log_softmax_rows (map (fun lg => div_scalar K lg temperature_) lgs) in
   let storage1 :=
     map (fun rp => map (fun x => s_add O x (snd rp)) (fst rp))
         (combine storage0 ys_log_probs) in
   let vocab_size := vocab_size model in
   ret {| bt_A := A;
          bt_row_splits :=
            map (fun r => wrap32 (r * Z.of_nat vocab_size)) hyps_row_splits;
          bt_log_probs := concat storage1;
          bt_log_probs_t := concat storage1 |})%W.

(** The body of [for (t, batch_size) in enumerate(batch_size_list)]. *)
Definition beam_step (blank_id unk_id : Z) (context_size beam : nat)
  (temperature_ : temperature) (encoder_out : list eframe)
  (t batch_size : nat) (s : BeamState) : W BeamState :=
  (let start := b_offset s in
   let end_ := b_offset s + batch_size in
   let current_encoder_out := slice encoder_out start end_ in
   let finalized_B := skipn batch_size (b_B s) ++ b_finalized_B s in
   let B := firstn batch_size (b_B s) in
   tensors <- beam_scoring context_size temperature_ current_encoder_out B ;;
   B' <- lift (rmapM (beam_utterance blank_id unk_id beam t (vocab_size model)
                        (bt_A tensors) (bt_row_splits tensors)
                        (bt_log_probs tensors) (bt_log_probs_t tensors))
                     (seq 0 batch_size)) ;;
   ret {| b_offset := end_; b_B := B'; b_finalized_B := finalized_B |})%W.

(** [modified_beam_search] up to [B = B + finalized_B]: the packed input and
    the final set of every utterance, in sorted order. *)
Definition beam_search_sets (encoder_out : list (nat -> frame))
  (encoder_out_lens : list Z) (beam : nat) (temperature_ : temperature)
  : W (PackedSequence frame * list (HypothesisList O)) :=
  (assert (1 <=? length encoder_out) ;;;
   packed <- lift (pack_padded_sequence (sort_descending K)
                     encoder_out encoder_out_lens) ;;
   let blank_id := blank_id model in
   let unk_id := getattr_unk_id in
   let context_size := context_size model in
   let batch_size_list := batch_sizes packed in
   let N := length encoder_out in
   assert (forallb (fun l => 0 <? l)%Z encoder_out_lens) ;;;
   first_size <- lift (index batch_size_list 0) ;;
   assert (N =? first_size) ;;;
   let B := repeat (add [] {| ys := repeat blank_id context_size;
                              hyp_scores := [];
                              log_prob := s_zero O;
                              timestamp := [] |}) N in
   tell (CallEncoderProj (length (data packed))) ;;;
   let encoder_out := map (encoder_proj model) (data packed) in
   s <- for_enumerate
          (beam_step blank_id unk_id context_size beam temperature_ encoder_out)
          0 batch_size_list
          {| b_offset := 0; b_B := B; b_finalized_B := [] |} ;;
   ret (packed, b_B s ++ b_finalized_B s))%W.

(** The selection and the reordering at the end of [modified_beam_search]. *)
Definition beam_select (N : nat) (packed : PackedSequence frame)
  (B : list (HypothesisList O)) : result (DecodingResults O) :=
  let context_size := context_size model in
  rbind (rmapM (fun b => get_most_probable b true) B) (fun best_hyps =>
  let sorted_ans := map (fun h => skipn context_size (ys h)) best_hyps in
  let sorted_timestamps := map (@timestamp O) best_hyps in
  let sorted_scores := map (@hyp_scores O) best_hyps in
  let unsorted_idx := unsorted_indices packed in
  rbind (unsort N unsorted_idx sorted_ans) (fun ans =>
  rbind (unsort N unsorted_idx sorted_timestamps) (fun ans_timestamps =>
  rbind (unsort N unsorted_idx sorted_scores) (fun ans_scores =>
  Ok {| hyps := ans; timestamps := ans_timestamps; scores := ans_scores |})))).

Definition modified_beam_search (encoder_out : list (nat -> frame))
  (encoder_out_lens : list Z) (beam : nat) (temperature_ : temperature)
  : W (DecodingResults O) :=
  (pB <- beam_search_sets encoder_out encoder_out_lens beam temperature_ ;;
   lift (beam_select (length encoder_out) (fst pB) (snd pB)))%W.

End Search.

(** ** Reference instances of the tensor library and of the network *)

Section Reference.
Variable O : ScoreOps.

(** Insertion into a list that is sorted by decreasing value; the new entry
    goes before the first entry that is not greater than it. *)
Fixpoint insert_first {A} (x : score O * A) (l : list (score O * A))
  : list (score O * A) :=
  match l with
  | [] => [x]
  | y :: l' =>
      if s_gtb O (fst y) (fst x) then y :: insert_first x l' else x :: l
  end.

(** The same, the new entry going after the entries that equal it. *)
Fixpoint insert_last {A} (x : score O * A) (l : list (score O * A))
  : list (score O * A) :=
  match l with
  | [] => [x]
  | y :: l' =>
      if s_gtb O (fst x) (fst y) then x :: l else y :: insert_last x l'
  end.

(** A [topk] that lists equal values in the order of their indices. *)
Definition topk_first (xs : list (score O)) (k : nat)
  : result (list (score O * nat)) :=
  if k <=? length xs then
    Ok (firstn k (fold_right insert_first []
                    (map (fun ix => (snd ix, fst ix)) (enumerate_from 0 xs))))
  else Raise RuntimeError.

(** A [topk] that lists equal values in the reverse order of their indices. *)
Definition topk_last (xs : list (score O)) (k : nat)
  : result (list (score O * nat)) :=
  if k <=? length xs then
    Ok (firstn k (fold_right insert_last []
                    (map (fun ix => (snd ix, fst ix)) (enumerate_from 0 xs))))
  else Raise RuntimeError.

End Reference.

(** Insertion into a list of (length, index) pairs sorted by decreasing
    length. *)
Fixpoint insert_length (x : Z * nat) (l : list (Z * nat)) : list (Z * nat) :=
  match l with
  | [] => [x]
  | y :: l' => if (fst x <? fst y)%Z then y :: insert_length x l' else x :: l
  end.

(** A stable descending sort of the lengths, as the list of indices. *)
Definition sort_descending_stable (lengths : list Z) : list nat :=
  map snd (fold_right insert_length []
             (map (fun ix => (snd ix, fst ix)) (enumerate_from 0 lengths))).

(** The tensor library over exact scores: a row of logits is the list of the
    probabilities of the tokens, already normalised, and the temperature is
    one. *)
Definition TorchQ (tk : list Q -> nat -> result (list (Q * nat)))
  : Torch LogQ (list Q) unit :=
  @Build_Torch LogQ (list Q) unit
    (fun lg v => nth v lg 0%Q)        (* log_softmax *)
    (fun lg _ => lg)                  (* div_scalar *)
    tk                                (* topk *)
    sort_descending_stable.           (* sort_descending *)

(** A network given by a table: the distribution over the next token as a
    function of the frame and of the context. *)
Definition table_model (blank : Z) (unk : option Z) (C V : nat)
  (table : nat -> list Z -> list Q) : Model nat nat (list Z) (list Q) := {|
  blank_id := blank;
  unk_id_attr := unk;
  context_size := C;
  vocab_size := V;
  decoder := fun context => context;
  encoder_proj := fun f => f;
  joiner := table
|}.

(* ================================================================= *)
(** * Part II: properties *)
(* ================================================================= *)

Unset Implicit Arguments.

(** ** The writer *)

Lemma outcome_bind {A B} (m : W A) (f : A -> W B) :
  outcome (bind m f) = rbind (outcome m) (fun a => outcome (f a)).
Proof.
  destruct m as [l [a | e]]; simpl; [destruct (f a); reflexivity | reflexivity].
Qed.

Lemma calls_bind_ok {A B} (m : W A) (f : A -> W B) a :
  outcome m = Ok a -> calls (bind m f) = calls m ++ calls (f a).
Proof.
  destruct m as [l r]; simpl; intros ->; simpl. now destruct (f a).
Qed.

Lemma calls_bind_raise {A B} (m : W A) (f : A -> W B) e :
  outcome m = Raise e -> calls (bind m f) = calls m.
Proof.
  destruct m as [l r]; simpl; intros ->; reflexivity.
Qed.

Lemma outcome_lift {A} (r : result A) : outcome (lift r) = r.
Proof. reflexivity. Qed.

Lemma outcome_ret {A} (a : A) : outcome (ret a) = Ok a.
Proof. reflexivity. Qed.

Lemma outcome_tell c : outcome (tell c) = Ok tt.
Proof. reflexivity. Qed.

Lemma outcome_assert b :
  outcome (assert b) = if b then Ok tt else Raise AssertionError.
Proof. now destruct b. Qed.

Lemma outcome_for_enumerate {A St} (body : nat -> A -> St -> W St) l :
  forall t0 s,
    outcome (for_enumerate body t0 l s)
    = rfor_enumerate (fun t x s => outcome (body t x s)) t0 l s.
Proof.
  induction l as [| x l IH]; intros t0 s; simpl.
  - reflexivity.
  - rewrite outcome_bind. destruct (outcome (body t0 x s)); simpl; auto.
Qed.

Lemma rbind_ok {A B} (r : result A) (f : A -> result B) b :
  rbind r f = Ok b -> exists a, r = Ok a /\ f a = Ok b.
Proof.
  destruct r as [a | e]; simpl; [eauto | discriminate].
Qed.

Lemma rmapM_ok_length {A B} (f : A -> result B) l :
  forall r, rmapM f l = Ok r -> length r = length l.
Proof.
  induction l as [| x l IH]; simpl; intros r H.
  - now inversion H.
  - apply rbind_ok in H as (y & _ & H).
    apply rbind_ok in H as (ys0 & Hys & H). inversion H; subst; simpl.
    f_equal; auto.
Qed.

Lemma rmapM_ok_nth {A B} (f : A -> result B) l :
  forall r, rmapM f l = Ok r ->
    forall i x, nth_error l i = Some x ->
      exists y, nth_error r i = Some y /\ f x = Ok y.
Proof.
  induction l as [| a l IH]; simpl; intros r H i x Hi.
  - destruct i; discriminate.
  - apply rbind_ok in H as (y & Hy & H).
    apply rbind_ok in H as (ys0 & Hys & H). inversion H; subst.
    destruct i as [| i]; simpl in *.
    + inversion Hi; subst. eauto.
    + eapply IH; eauto.
Qed.

Lemma rmapM_ok_In {A B} (f : A -> result B) l r :
  rmapM f l = Ok r ->
  forall y, In y r -> exists x, In x l /\ f x = Ok y.
Proof.
  revert r; induction l as [| a l IH]; simpl; intros r H y Hy.
  - inversion H; subst. destruct Hy.
  - apply rbind_ok in H as (y0 & Hy0 & H).
    apply rbind_ok in H as (ys0 & Hys & H). inversion H; subst.
    destruct Hy as [<- | Hy]; [eauto |].
    destruct (IH _ Hys _ Hy) as (x & Hx & Hfx). eauto.
Qed.

(** ** Keys *)

(** A string without the separator. *)
Fixpoint clean (s : string) : bool :=
  match s with
  | EmptyString => true
  | String c s' => negb (Ascii.eqb c "_") && clean s'
  end.

Lemma clean_uint d : clean (NilEmpty.string_of_uint d) = true.
Proof. induction d; simpl; auto. Qed.

Lemma clean_str z : clean (str z) = true.
Proof.
  unfold str. destruct (Z.to_int z) as [d | d]; simpl;
    destruct d; simpl; auto using clean_uint.
Qed.

Lemma str_nonempty z : str z <> EmptyString.
Proof.
  unfold str. destruct (Z.to_int z) as [d | d]; simpl;
    destruct d; simpl; discriminate.
Qed.

Lemma to_int_proper z : Z.to_int z <> Pos Nil /\ Z.to_int z <> Neg Nil.
Proof.
  destruct z; simpl; split; try discriminate;
    intros H; inversion H as [H1];
    exact (DecimalPos.Unsigned.to_uint_nonnil _ H1).
Qed.

Lemma str_inj a b : str a = str b -> a = b.
Proof.
  unfold str; intros H.
  destruct (to_int_proper a) as [Ha1 Ha2], (to_int_proper b) as [Hb1 Hb2].
  pose proof (NilZero.isi _ Ha1 Ha2) as Ia.
  pose proof (NilZero.isi _ Hb1 Hb2) as Ib.
  rewrite H in Ia. rewrite Ia in Ib. inversion Ib as [E].
  rewrite <- (DecimalZ.of_to a), <- (DecimalZ.of_to b). now rewrite E.
Qed.

Lemma clean_sep_false b r : clean (String.append b (String "_" r)) = false.
Proof. induction b; simpl; auto. now rewrite IHb, andb_false_r. Qed.

Lemma split_unique a : forall b r1 r2,
  clean a = true -> clean b = true ->
  String.append a (String "_" r1) = String.append b (String "_" r2) ->
  a = b /\ r1 = r2.
Proof.
  induction a as [| c a IH]; intros [| c' b] r1 r2 Ha Hb H; simpl in *.
  - inversion H; auto.
  - inversion H; subst. discriminate.
  - inversion H; subst. discriminate.
  - inversion H; subst.
    apply andb_prop in Ha as [_ Ha]. apply andb_prop in Hb as [_ Hb].
    destruct (IH _ _ _ Ha Hb H2); subst; auto.
Qed.

Definition field_ok (s : string) : Prop := clean s = true /\ s <> EmptyString.

Lemma join_inj l1 : forall l2,
  Forall field_ok l1 -> Forall field_ok l2 ->
  String.concat "_" l1 = String.concat "_" l2 -> l1 = l2.
Proof.
  induction l1 as [| a l1 IH]; intros l2 H1 H2 H.
  - destruct l2 as [| b l2]; [reflexivity |].
    inversion H2 as [| ? ? [_ Hb] _]; subst.
    simpl in H. destruct l2; [congruence |].
    destruct b; [congruence | discriminate].
  - inversion H1 as [| ? ? [Hca Hna] H1']; subst.
    destruct l2 as [| b l2].
    + simpl in H. destruct l1; [congruence |].
      destruct a; [congruence | discriminate].
    + inversion H2 as [| ? ? [Hcb Hnb] H2']; subst.
      destruct l1 as [| a2 l1], l2 as [| b2 l2]; simpl in H.
      * now subst.
      * subst a. now rewrite clean_sep_false in Hca.
      * subst b. now rewrite clean_sep_false in Hcb.
      * apply split_unique in H as [-> H]; auto.
        f_equal. apply IH; auto.
Qed.

Lemma key_inj {O} (h1 h2 : Hypothesis_ O) : key h1 = key h2 -> ys h1 = ys h2.
Proof.
  unfold key; intros H.
  assert (G : forall l, Forall field_ok (map str l)).
  { intros l; apply Forall_forall; intros s Hs.
    apply in_map_iff in Hs as (z & <- & _).
    split; [apply clean_str | apply str_nonempty]. }
  apply join_inj in H; auto.
  revert H; generalize (ys h1) (ys h2).
  induction l as [| a l IH]; intros [| b l'] E; simpl in E;
    try discriminate; auto.
  inversion E. f_equal; auto using str_inj.
Qed.

(** ** HypothesisList.add *)

Section AddFacts.
Variable O : ScoreOps.
Implicit Types (d : HypothesisList O) (h hyp : Hypothesis_ O).

Lemma lookup_app_none k d d' :
  lookup k d = None -> lookup k (d ++ d') = lookup k d'.
Proof.
  induction d as [| [k' h] d IH]; simpl; auto.
  destruct (String.eqb k k'); [discriminate | auto].
Qed.

Lemma lookup_app_some k d d' h :
  lookup k d = Some h -> lookup k (d ++ d') = Some h.
Proof.
  induction d as [| [k' h'] d IH]; simpl; [discriminate |].
  destruct (String.eqb k k'); auto.
Qed.

Lemma lookup_merge_at k hyp d old :
  lookup k d = Some old -> lookup k (merge_at k hyp d) = Some (merge_into old hyp).
Proof.
  induction d as [| [k' h] d IH]; simpl; [discriminate |].
  destruct (String.eqb k k') eqn:E; simpl; rewrite E; [congruence | auto].
Qed.

Lemma lookup_merge_at_other k k0 hyp d :
  k0 <> k -> lookup k0 (merge_at k hyp d) = lookup k0 d.
Proof.
  intros Hne. induction d as [| [k' h] d IH]; simpl; auto.
  destruct (String.eqb k k') eqn:E; simpl.
  - apply String.eqb_eq in E; subst k'.
    destruct (String.eqb k0 k) eqn:E0; auto.
    apply String.eqb_eq in E0. contradiction.
  - destruct (String.eqb k0 k'); auto.
Qed.

Lemma keys_merge_at k hyp d : map fst (merge_at k hyp d) = map fst d.
Proof.
  induction d as [| [k' h] d IH]; simpl; auto.
  destruct (String.eqb k k'); simpl; congruence.
Qed.

Lemma add_present d hyp old :
  lookup (key hyp) d = Some old ->
  add d hyp = merge_at (key hyp) hyp d.
Proof. unfold add, contains. now intros ->. Qed.

Lemma add_absent d hyp :
  lookup (key hyp) d = None ->
  add d hyp = d ++ [(key hyp, hyp)].
Proof. unfold add, contains. now intros ->. Qed.

Lemma lookup_add_same d hyp :
  lookup (key hyp) (add d hyp)
  = Some (match lookup (key hyp) d with
          | Some old => merge_into old hyp
          | None => hyp
          end).
Proof.
  destruct (lookup (key hyp) d) as [old |] eqn:E.
  - rewrite (add_present _ _ _ E). now apply lookup_merge_at.
  - rewrite (add_absent _ _ E), (lookup_app_none _ _ _ E). simpl.
    now rewrite String.eqb_refl.
Qed.

Lemma lookup_add_other d hyp k :
  k <> key hyp -> lookup k (add d hyp) = lookup k d.
Proof.
  intros Hne. destruct (lookup (key hyp) d) as [old |] eqn:E.
  - rewrite (add_present _ _ _ E). now apply lookup_merge_at_other.
  - rewrite (add_absent _ _ E).
    destruct (lookup k d) as [h |] eqn:E'.
    + now apply lookup_app_some.
    + rewrite (lookup_app_none _ _ _ E'). simpl.
      destruct (String.eqb k (key hyp)) eqn:E0; auto.
      apply String.eqb_eq in E0. contradiction.
Qed.

(** What the set holds under [k] after the hypotheses [hs] were added one
    after the other. *)
Definition merged (k : string) (hs : list (Hypothesis_ O))
  (start : option (Hypothesis_ O)) : option (Hypothesis_ O) :=
  fold_left
    (fun acc h =>
       if String.eqb (key h) k
       then Some (match acc with Some old => merge_into old h | None => h end)
       else acc)
    hs start.

Lemma lookup_fold_add k hs : forall d,
  lookup k (fold_left (@add O) hs d) = merged k hs (lookup k d).
Proof.
  unfold merged. induction hs as [| h hs IH]; intros d; simpl; auto.
  rewrite IH. f_equal.
  destruct (String.eqb (key h) k) eqn:E.
  - apply String.eqb_eq in E; subst k. apply lookup_add_same.
  - apply lookup_add_other. intros ->. now rewrite String.eqb_refl in E.
Qed.

Lemma merged_filter k hs : forall start,
  merged k hs start
  = merged k (filter (fun h => String.eqb (key h) k) hs) start.
Proof.
  unfold merged. induction hs as [| h hs IH]; intros start; simpl; auto.
  destruct (String.eqb (key h) k) eqn:E; simpl; [rewrite E |]; auto.
Qed.

End AddFacts.

(** The loop over the selected candidates adds the hypotheses they yield, in
    their order. *)
Lemma beam_expand_fold {O} blank unk t V (A_i : list (Hypothesis_ O)) clp cands :
  forall B_i,
    beam_expand blank unk t V A_i clp cands B_i
    = rbind (rmapM (beam_new_hyp blank unk t V A_i clp) cands)
            (fun hs => Ok (fold_left (@add O) hs B_i)).
Proof.
  induction cands as [| c cands IH]; intros B_i; simpl; auto.
  unfold beam_expand_one.
  destruct (beam_new_hyp blank unk t V A_i clp c) as [h | e]; simpl; auto.
  rewrite IH.
  destruct (rmapM (beam_new_hyp blank unk t V A_i clp) cands); simpl; auto.
Qed.

Lemma beam_new_hyp_log_prob {O} blank unk t V (A_i : list (Hypothesis_ O)) clp c h :
  beam_new_hyp blank unk t V A_i clp c = Ok h -> log_prob h = fst c.
Proof.
  unfold beam_new_hyp; intros H.
  apply rbind_ok in H as (hyp & _ & H).
  destruct (not_in_sentinels _ _ _).
  - apply rbind_ok in H as (p & _ & H). now inversion H.
  - now inversion H.
Qed.

(** C1.  [HypothesisList.add] over real-valued scores.  If the key of the
    added hypothesis is already in the set, the stored hypothesis keeps its
    token, score and timestamp sequences and its [log_prob] becomes
    [log (exp old + exp new)]; the other entries and the order of the keys
    are unchanged.  If the key is absent the hypothesis is appended as it is.
    Consequently, when exactly two of the candidates selected in one step of
    the beam search for one utterance, with cumulative log-probs [p1] and
    [p2], yield the same token sequence, the new set holds under that key the
    first one's sequences with [log_prob = log (exp p1 + exp p2)]. *)
Theorem C1_add_is_log_sum_exp_merge :
  forall (d : HypothesisList RScore) (hyp : Hypothesis_ RScore),
    (forall old,
        lookup (key hyp) d = Some old ->
        lookup (key hyp) (add d hyp)
        = Some {| ys := ys old;
                  hyp_scores := hyp_scores old;
                  log_prob := ln (exp (log_prob old) + exp (log_prob hyp));
                  timestamp := timestamp old |}
        /\ map fst (add d hyp) = map fst d
        /\ (forall k, k <> key hyp -> lookup k (add d hyp) = lookup k d))
    /\ (lookup (key hyp) d = None -> add d hyp = d ++ [(key hyp, hyp)])
    /\ (forall blank unk t V (A_i : list (Hypothesis_ RScore)) clp cands hs B'
                c1 c2 h1 h2,
           beam_expand blank unk t V A_i clp cands [] = Ok B' ->
           rmapM (beam_new_hyp blank unk t V A_i clp) cands = Ok hs ->
           beam_new_hyp blank unk t V A_i clp c1 = Ok h1 ->
           beam_new_hyp blank unk t V A_i clp c2 = Ok h2 ->
           filter (fun h => String.eqb (key h) (key h1)) hs = [h1; h2] ->
           lookup (key h1) B'
           = Some {| ys := ys h1;
                     hyp_scores := hyp_scores h1;
                     log_prob := ln (exp (fst c1) + exp (fst c2));
                     timestamp := timestamp h1 |}).
Proof.
  intros d hyp. split; [| split].
  - intros old Hold. split; [| split].
    + rewrite lookup_add_same, Hold. reflexivity.
    + rewrite (add_present _ _ _ _ Hold). apply keys_merge_at.
    + intros k Hk. now apply lookup_add_other.
  - apply add_absent.
  - intros blank unk t V A_i clp cands hs B' c1 c2 h1 h2 HB Hhs H1 H2 Hf.
    rewrite beam_expand_fold, Hhs in HB. simpl in HB. inversion HB; subst B'.
    rewrite lookup_fold_add, merged_filter, Hf. simpl.
    rewrite String.eqb_refl.
    assert (E : String.eqb (key h2) (key h1) = true).
    { assert (Hin : In h2 (filter (fun h => String.eqb (key h) (key h1)) hs))
        by (rewrite Hf; simpl; auto).
      now apply filter_In in Hin. }
    rewrite E. unfold merge_into.
    now rewrite (beam_new_hyp_log_prob _ _ _ _ _ _ _ _ H1),
                (beam_new_hyp_log_prob _ _ _ _ _ _ _ _ H2).
Qed.

Lemma C1_add_is_log_sum_exp_merge_witness :
  let old := @Build_Hypothesis_ RScore [0; 0; 1]%Z [(-1)%R] (-1)%R [0] in
  let new := @Build_Hypothesis_ RScore [0; 0; 1]%Z [(-3)%R] (-3)%R [1] in
  let root := @Build_Hypothesis_ RScore [0; 0]%Z [] (-2)%R [] in
  let clp := [(-4); (-3); (-5); (-2); (-6); (-7)]%R in
  (lookup (key new) (add [(key old, old)] new)
   = Some (@Build_Hypothesis_ RScore [0; 0; 1]%Z [(-1)%R]
             (ln (exp (-1) + exp (-3))) [0]))
  /\ add [] old = [(key old, old)]
  /\ (exists B',
         beam_expand 0 0 1 3 [root; old] clp [((-2)%R, 3); ((-3)%R, 1)] []
         = Ok B'
         /\ lookup (key old) B'
            = Some (@Build_Hypothesis_ RScore [0; 0; 1]%Z [(-1)%R]
                      (ln (exp (-2) + exp (-3))) [0])).
Proof.
  intros old new root clp.
  split; [| split].
  - destruct (C1_add_is_log_sum_exp_merge [(key old, old)] new) as (H & _ & _).
    destruct (H old) as (H1 & _); [reflexivity | exact H1].
  - destruct (C1_add_is_log_sum_exp_merge [] old) as (_ & H & _).
    apply H. reflexivity.
  - eexists. split; [reflexivity |].
    destruct (C1_add_is_log_sum_exp_merge [] old) as (_ & _ & H).
    exact (H 0%Z 0%Z 1 3 [root; old] clp [((-2)%R, 3); ((-3)%R, 1)]
             [@Build_Hypothesis_ RScore [0; 0; 1]%Z [(-1)%R] (-2)%R [0];
              @Build_Hypothesis_ RScore [0; 0; 1]%Z [(-3)%R] (-3)%R [1]]
             _ ((-2)%R, 3) ((-3)%R, 1)
             (@Build_Hypothesis_ RScore [0; 0; 1]%Z [(-1)%R] (-2)%R [0])
             (@Build_Hypothesis_ RScore [0; 0; 1]%Z [(-3)%R] (-3)%R [1])
             eq_refl eq_refl eq_refl eq_refl eq_refl).
Defined.

(** ** The unknown sentinel *)




(** ** Rejected inputs *)

Lemma bind_assert_true {B} (f : unit -> W B) : bind (assert true) f = f tt.
Proof. unfold assert, bind, ret. now destruct (f tt). Qed.

Lemma bind_assert_false {B} (f : unit -> W B) :
  bind (assert false) f = ([], Raise AssertionError).
Proof. reflexivity. Qed.

Lemma bind_lift {A B} (r : result A) (f : A -> W B) :
  bind (lift r) f = match r with Ok a => f a | Raise e => ([], Raise e) end.
Proof. destruct r; simpl; auto. now destruct (f a). Qed.

Lemma forallb_positive_false (lens : list Z) l :
  In l lens -> (l <= 0)%Z -> forallb (fun l => 0 <? l)%Z lens = false.
Proof.
  intros Hin Hl. destruct (forallb _ lens) eqn:E; auto.
  rewrite forallb_forall in E. specialize (E _ Hin).
  apply Z.ltb_lt in E. lia.
Qed.

(** C7.  An empty batch, or a batch with an utterance whose valid length is
    zero or negative, makes both decoders raise, and the log of the calls
    into the network is empty when they do: no scoring call was issued and
    there is no result. *)
Theorem C7_invalid_input_rejected_before_scoring :
  forall (O : ScoreOps) (frame eframe dec logits temperature : Type)
         (K : Torch O logits temperature)
         (m : Model frame eframe dec logits)
         (encoder_out : list (nat -> frame)) (encoder_out_lens : list Z),
    encoder_out = [] \/ (exists l, In l encoder_out_lens /\ (l <= 0)%Z) ->
    (exists e, greedy_search_batch K m encoder_out encoder_out_lens
               = ([], Raise e))
    /\ (forall beam temp,
           exists e, modified_beam_search K m encoder_out encoder_out_lens
                       beam temp
                     = ([], Raise e)).
Proof.
  intros O frame eframe dec logits temperature K m enc lens Hbad.
  assert (Hsets : forall beam temp,
             exists e, beam_search_sets K m enc lens beam temp = ([], Raise e)).
  { intros beam temp. unfold beam_search_sets.
    destruct enc as [| row enc]; [simpl; eauto |].
    destruct Hbad as [Hbad | (l & Hin & Hl)]; [discriminate |].
    pose proof (forallb_positive_false _ _ Hin Hl) as Hf.
    change (1 <=? length (row :: enc)) with true.
    rewrite bind_assert_true, bind_lift.
    destruct (pack_padded_sequence _ _ _) as [packed | e]; [| eauto].
    rewrite Hf, bind_assert_false. eauto. }
  split.
  - unfold greedy_search_batch.
    destruct enc as [| row enc]; [simpl; eauto |].
    destruct Hbad as [Hbad | (l & Hin & Hl)]; [discriminate |].
    pose proof (forallb_positive_false _ _ Hin Hl) as Hf.
    change (1 <=? length (row :: enc)) with true.
    rewrite bind_assert_true, bind_lift.
    destruct (pack_padded_sequence _ _ _) as [packed | e]; [| eauto].
    rewrite Hf, bind_assert_false. eauto.
  - intros beam temp. unfold modified_beam_search.
    destruct (Hsets beam temp) as (e & ->). simpl. eauto.
Qed.

Lemma C7_invalid_input_rejected_before_scoring_witness :
  let m := table_model 0 None 2 3 (fun _ _ => [1 # 10; 6 # 10; 3 # 10]%Q) in
  let K := TorchQ (topk_first LogQ) in
  (exists e, greedy_search_batch K m [fun t => t; fun t => t] [2%Z; 0%Z]
             = ([], Raise e))
  /\ (exists e, modified_beam_search K m [fun t => t; fun t => t] [2%Z; 0%Z] 4 tt
                = ([], Raise e)).
Proof.
  intros m K.
  destruct (C7_invalid_input_rejected_before_scoring _ _ _ _ _ _ K m
              [fun t => t; fun t => t] [2%Z; 0%Z]) as [H1 H2].
  - right. exists 0%Z. split; [simpl; auto | lia].
  - split; [exact H1 | exact (H2 4 tt)].
Defined.

(** ** Indexing *)

Lemma index_ok {A} (l : list A) i x : index l i = Ok x <-> nth_error l i = Some x.
Proof.
  unfold index. destruct (nth_error l i); split; intros H;
    inversion H; subst; auto.
Qed.

Lemma alter_ok {A} (f : A -> A) : forall i l l',
  alter f i l = Ok l' ->
  length l' = length l
  /\ (exists x, nth_error l i = Some x /\ nth_error l' i = Some (f x))
  /\ (forall j, j <> i -> nth_error l' j = nth_error l j).
Proof.
  induction i as [| i IH]; intros [| x l] l' H; simpl in H; try discriminate.
  - inversion H; subst. simpl. split; [reflexivity | split].
    + exists x. auto.
    + intros [| j] Hj; [contradiction | reflexivity].
  - apply rbind_ok in H as (r & Hr & H). inversion H; subst.
    destruct (IH _ _ Hr) as (Hlen & (y & Hy & Hy') & Hoth).
    simpl. split; [now f_equal | split].
    + exists y. auto.
    + intros [| j] Hj; simpl; auto.
Qed.

Lemma alter_in_range {A} (f : A -> A) : forall i l,
  i < length l -> exists l', alter f i l = Ok l'.
Proof.
  induction i as [| i IH]; intros [| x l] Hi; simpl in *; try lia.
  - eauto.
  - destruct (IH l) as (l' & ->); [lia |]. simpl. eauto.
Qed.

Lemma unsort_ok {A} N u (sorted : list A) ans :
  unsort N u sorted = Ok ans ->
  length ans = N
  /\ forall i a, nth_error ans i = Some a ->
       exists j, nth_error u i = Some j /\ nth_error sorted j = Some a.
Proof.
  unfold unsort; intros H. split.
  - apply rmapM_ok_length in H. now rewrite length_seq in H.
  - intros i a Ha.
    assert (Hi : i < N).
    { apply rmapM_ok_length in H. rewrite length_seq in H.
      rewrite <- H. apply nth_error_Some. congruence. }
    destruct (rmapM_ok_nth _ _ _ H i i) as (y & Hy & Hf).
    { rewrite nth_error_nth' with (d := 0) by (now rewrite length_seq).
      now rewrite seq_nth. }
    rewrite Ha in Hy. inversion Hy; subst y.
    apply rbind_ok in Hf as (j & Hj & Hs).
    exists j. split; now apply index_ok.
Qed.

(** ** The maximum *)

Lemma max_from_In {A Kt} (gt : Kt -> Kt -> bool) (f : A -> Kt) l :
  forall best, max_from gt f best l = best \/ In (max_from gt f best l) l.
Proof.
  induction l as [| x l IH]; intros best; simpl; auto.
  destruct (IH (if gt (f x) (f best) then x else best)) as [E | E]; auto.
  rewrite E. destruct (gt (f x) (f best)); auto.
Qed.

Lemma py_max_In {A Kt} (gt : Kt -> Kt -> bool) (f : A -> Kt) l x :
  py_max gt f l = Ok x -> In x l.
Proof.
  destruct l as [| y l]; simpl; intros H; inversion H; subst.
  destruct (max_from_In gt f l y) as [-> | Hin]; auto.
Qed.

Lemma get_most_probable_In {O} (d : HypothesisList O) b h :
  get_most_probable d b = Ok h -> In h (values d).
Proof.
  unfold get_most_probable. destruct b; apply py_max_In.
Qed.

(** ** Well-formed hypotheses *)

(** Strictly increasing frame indices, all before [t]. *)
Definition increasing_below (t : nat) (ts : list nat) : Prop :=
  StronglySorted lt ts /\ Forall (fun x => x < t) ts.

Lemma increasing_below_nil t : increasing_below t [].
Proof. split; constructor. Qed.

Lemma strongly_sorted_snoc ts t :
  StronglySorted lt ts -> Forall (fun x => x < t) ts ->
  StronglySorted lt (ts ++ [t]).
Proof.
  induction 1 as [| x ts Hs IH Hx]; intros Hb; simpl.
  - repeat constructor.
  - inversion Hb; subst. constructor; auto.
    apply Forall_app. split; auto.
Qed.

Lemma increasing_below_snoc t ts :
  increasing_below t ts -> increasing_below (S t) (ts ++ [t]).
Proof.
  intros [Hs Hb]. split.
  - now apply strongly_sorted_snoc.
  - apply Forall_app. split.
    + eapply Forall_impl; [| exact Hb]. simpl; lia.
    + repeat constructor.
Qed.

Lemma increasing_below_mono t t' ts :
  t <= t' -> increasing_below t ts -> increasing_below t' ts.
Proof.
  intros Hle [Hs Hb]. split; auto.
  eapply Forall_impl; [| exact Hb]. simpl; lia.
Qed.

Section BeamInvariant.
Variable O : ScoreOps.
Variables (C : nat) (blank unk : Z).

(** What every hypothesis of the beam search satisfies at the start of the
    time step [t]: one score and one frame index per emitted token, the
    tokens after the context prefix are no sentinels, the frame indices
    increase strictly and lie before [t]. *)
Definition hyp_wf (t : nat) (h : Hypothesis_ O) : Prop :=
  length (hyp_scores h) = length (timestamp h)
  /\ length (ys h) = C + length (timestamp h)
  /\ increasing_below t (timestamp h)
  /\ Forall (fun v => not_in_sentinels blank unk v = true) (skipn C (ys h)).

Definition set_wf (t : nat) (d : HypothesisList O) : Prop :=
  Forall (hyp_wf t) (values d).

Lemma hyp_wf_mono t t' h : t <= t' -> hyp_wf t h -> hyp_wf t' h.
Proof.
  intros Hle (H1 & H2 & H3 & H4).
  split; [auto | split; [auto | split; [| auto]]].
  eapply increasing_below_mono; eauto.
Qed.

Lemma set_wf_mono t t' d : t <= t' -> set_wf t d -> set_wf t' d.
Proof.
  intros Hle H. eapply Forall_impl; [| exact H].
  intros h. now apply hyp_wf_mono.
Qed.

Lemma lookup_In k (d : HypothesisList O) h :
  lookup k d = Some h -> In h (values d).
Proof.
  induction d as [| [k' h'] d IH]; simpl; [discriminate |].
  destruct (String.eqb k k'); intros H; [inversion H; auto | auto].
Qed.

Lemma merge_at_wf t k hyp (d : HypothesisList O) :
  set_wf t d -> set_wf t (merge_at k hyp d).
Proof.
  unfold set_wf, values.
  induction d as [| [k' h] d IH]; simpl; intros H; auto.
  inversion H; subst.
  destruct (String.eqb k k'); simpl; constructor; auto.
Qed.

Lemma add_wf t (d : HypothesisList O) hyp :
  set_wf t d -> hyp_wf t hyp -> set_wf t (add d hyp).
Proof.
  intros Hd Hh. unfold add. destruct (contains (key hyp) d).
  - now apply merge_at_wf.
  - unfold set_wf, values. rewrite map_app. apply Forall_app. split; auto.
    simpl. constructor; [exact Hh | constructor].
Qed.

Lemma beam_new_hyp_wf t V A_i clp c h :
  Forall (hyp_wf t) A_i ->
  beam_new_hyp blank unk t V A_i clp c = Ok h ->
  hyp_wf (S t) h.
Proof.
  intros HA H. unfold beam_new_hyp in H.
  apply rbind_ok in H as (hyp & Hhyp & H).
  apply index_ok in Hhyp. apply nth_error_In in Hhyp.
  rewrite Forall_forall in HA. specialize (HA _ Hhyp).
  destruct HA as (H1 & H2 & H3 & H4).
  destruct (not_in_sentinels _ _ _) eqn:Hs.
  - apply rbind_ok in H as (p & _ & H). inversion H; subst; clear H.
    unfold hyp_wf; simpl. rewrite !length_app; simpl.
    split; [lia | split; [lia | split]].
    + now apply increasing_below_snoc.
    + rewrite skipn_app. apply Forall_app. split; auto.
      replace (C - length (ys hyp)) with 0 by lia. simpl.
      constructor; [exact Hs | constructor].
  - inversion H; subst; clear H. unfold hyp_wf; simpl.
    split; [auto | split; [auto | split; [| auto]]].
    eapply increasing_below_mono; [| exact H3]. lia.
Qed.

Lemma beam_expand_wf t V A_i clp cands :
  Forall (hyp_wf t) A_i ->
  forall B_i B',
    set_wf (S t) B_i ->
    beam_expand blank unk t V A_i clp cands B_i = Ok B' ->
    set_wf (S t) B'.
Proof.
  intros HA. induction cands as [| c cands IH]; intros B_i B' HB H; simpl in H.
  - now inversion H; subst.
  - apply rbind_ok in H as (B1 & H1 & H). unfold beam_expand_one in H1.
    apply rbind_ok in H1 as (h & Hh & H1). inversion H1; subst.
    eapply IH; [| exact H]. apply add_wf; auto.
    eapply beam_new_hyp_wf; eauto.
Qed.

End BeamInvariant.

Arguments hyp_wf {O} C blank unk t h.
Arguments set_wf {O} C blank unk t d.
Arguments hyp_wf_mono {O} C blank unk t t' h.
Arguments set_wf_mono {O} C blank unk t t' d.
Arguments add_wf {O} C blank unk t d hyp.
Arguments beam_new_hyp_wf {O} C blank unk t V A_i clp c h.
Arguments beam_expand_wf {O} C blank unk t V A_i clp cands.

Ltac w_inv H :=
  repeat (cbv beta in H; rewrite outcome_bind in H;
          let a := fresh "a" in
          let Ha := fresh "Ha" in
          apply rbind_ok in H as (a & Ha & H)).

Lemma Forall_firstn_skipn {A} (P : A -> Prop) n l :
  Forall P l -> Forall P (firstn n l) /\ Forall P (skipn n l).
Proof.
  intros H. rewrite <- (firstn_skipn n l) in H. now apply Forall_app in H.
Qed.

Lemma assert_ok b u : outcome (assert b) = Ok u -> b = true.
Proof. destruct b; simpl; [reflexivity | discriminate]. Qed.

Section BeamSearchInvariant.
Context {frame eframe dec logits temperature : Type}.
Variable O : ScoreOps.
Variable K : Torch O logits temperature.
Variable m : Model frame eframe dec logits.

Let C := context_size m.
Let blank := blank_id m.
Let unk := getattr_unk_id m.

Definition state_wf (t : nat) (s : BeamState O) : Prop :=
  Forall (set_wf C blank unk t) (b_B s)
  /\ Forall (set_wf C blank unk t) (b_finalized_B s).

Lemma beam_utterance_wf beam t V A rs lp lpt i B' :
  Forall (Forall (hyp_wf C blank unk t)) A ->
  beam_utterance K blank unk beam t V A rs lp lpt i = Ok B' ->
  set_wf C blank unk (S t) B'.
Proof.
  intros HA H. unfold beam_utterance in H.
  apply rbind_ok in H as (lo & _ & H).
  apply rbind_ok in H as (hi & _ & H).
  apply rbind_ok in H as (top & _ & H).
  apply rbind_ok in H as (A_i & HAi & H).
  apply index_ok, nth_error_In in HAi.
  rewrite Forall_forall in HA.
  eapply beam_expand_wf; [apply HA; exact HAi | | exact H].
  constructor.
Qed.

Lemma beam_scoring_ok temp cur B bt :
  outcome (beam_scoring K m C temp cur B) = Ok bt ->
  bt_A bt = map (@values O) B
  /\ bt_row_splits bt
     = map (fun r => wrap32 (r * Z.of_nat (vocab_size m)))
           (get_hyps_row_splits B)
  /\ bt_log_probs_t bt = bt_log_probs bt.
Proof.
  intros H. unfold beam_scoring in H. w_inv H.
  inversion H; subst bt; simpl. auto.
Qed.

Lemma beam_step_wf beam temp enc t bs s s' :
  state_wf t s ->
  outcome (beam_step K m blank unk C beam temp enc t bs s) = Ok s' ->
  state_wf (S t) s'.
Proof.
  intros [HB HF] H. unfold beam_step in H. w_inv H.
  inversion H; subst s'; clear H. unfold state_wf; simpl.
  destruct (Forall_firstn_skipn _ bs _ HB) as [HB1 HB2].
  apply beam_scoring_ok in Ha as (EA & _ & _).
  split.
  - simpl in Ha0. apply Forall_forall. intros B' HB'.
    destruct (rmapM_ok_In _ _ _ Ha0 _ HB') as (i & _ & Hi).
    eapply beam_utterance_wf; [| exact Hi].
    rewrite EA. apply Forall_map. eapply Forall_impl; [| exact HB1]. auto.
  - apply Forall_app. split;
      (eapply Forall_impl; [| eassumption]);
      intros d; apply set_wf_mono; lia.
Qed.

Lemma beam_loop_wf beam temp enc l : forall t0 s s',
  state_wf t0 s ->
  rfor_enumerate
    (fun t bs s => outcome (beam_step K m blank unk C beam temp enc t bs s))
    t0 l s = Ok s' ->
  state_wf (t0 + length l) s'.
Proof.
  induction l as [| bs l IH]; intros t0 s s' Hs H; simpl in H.
  - inversion H; subst. now rewrite Nat.add_0_r.
  - apply rbind_ok in H as (s1 & H1 & H).
    simpl. rewrite <- Nat.add_succ_comm.
    eapply IH; [| exact H]. eapply beam_step_wf; eauto.
Qed.

Lemma initial_hyp_wf :
  hyp_wf C blank unk 0
    {| ys := repeat blank C; hyp_scores := [];
       log_prob := s_zero O; timestamp := [] |}.
Proof.
  unfold hyp_wf; simpl. rewrite repeat_length.
  split; [auto | split; [lia | split]].
  - apply increasing_below_nil.
  - rewrite skipn_all2 by (rewrite repeat_length; lia). constructor.
Qed.

(** What a successful run of [beam_search_sets] went through. *)
Lemma beam_search_sets_inv enc lens beam temp packed B :
  outcome (beam_search_sets K m enc lens beam temp) = Ok (packed, B) ->
  exists s,
    pack_padded_sequence (sort_descending K) enc lens = Ok packed
    /\ forallb (fun l => 0 <? l)%Z lens = true
    /\ nth_error (batch_sizes packed) 0 = Some (length enc)
    /\ rfor_enumerate
         (fun t bs s =>
            outcome (beam_step K m blank unk C beam temp
                       (map (encoder_proj m) (data packed)) t bs s))
         0 (batch_sizes packed)
         {| b_offset := 0;
            b_B := repeat (add [] {| ys := repeat blank C; hyp_scores := [];
                                     log_prob := s_zero O; timestamp := [] |})
                          (length enc);
            b_finalized_B := [] |} = Ok s
    /\ B = b_B s ++ b_finalized_B s.
Proof.
  intros H. unfold beam_search_sets in H. w_inv H.
  rewrite outcome_for_enumerate in Ha5. simpl in *.
  inversion H; subst; clear H.
  apply assert_ok in Ha1. apply assert_ok in Ha3.
  apply Nat.eqb_eq in Ha3. apply index_ok in Ha2.
  exists a5. subst a2. repeat split; auto.
Qed.

(** What a successful run of [modified_beam_search] went through: the final
    sets in sorted order, the best hypothesis of each and the reordering. *)
Lemma modified_beam_search_inv enc lens beam temp res :
  outcome (modified_beam_search K m enc lens beam temp) = Ok res ->
  exists packed B best,
    outcome (beam_search_sets K m enc lens beam temp) = Ok (packed, B)
    /\ rmapM (fun b => get_most_probable b true) B = Ok best
    /\ unsort (length enc) (unsorted_indices packed)
         (map (fun h => skipn C (ys h)) best) = Ok (hyps res)
    /\ unsort (length enc) (unsorted_indices packed)
         (map (@timestamp O) best) = Ok (timestamps res)
    /\ unsort (length enc) (unsorted_indices packed)
         (map (@hyp_scores O) best) = Ok (scores res).
Proof.
  intros H. unfold modified_beam_search in H.
  rewrite outcome_bind in H. apply rbind_ok in H as ([packed B] & Hsets & H).
  rewrite outcome_lift in H. unfold beam_select in H. simpl in H.
  apply rbind_ok in H as (best & Hbest & H).
  apply rbind_ok in H as (ans & Hans & H).
  apply rbind_ok in H as (ats & Hats & H).
  apply rbind_ok in H as (asc & Hasc & H).
  inversion H; subst res; clear H. simpl.
  exists packed, B, best. repeat split; auto.
Qed.

Lemma beam_search_sets_wf enc lens beam temp packed B :
  outcome (beam_search_sets K m enc lens beam temp) = Ok (packed, B) ->
  Forall (set_wf C blank unk (length (batch_sizes packed))) B.
Proof.
  intros H.
  destruct (beam_search_sets_inv _ _ _ _ _ _ H) as (s & _ & _ & _ & Hloop & ->).
  apply beam_loop_wf in Hloop.
  - destruct Hloop as [HB HF]. apply Forall_app. split; auto.
  - split; simpl; [| constructor].
    apply Forall_forall. intros d Hd. apply repeat_spec in Hd. subst d.
    apply add_wf; [constructor | apply initial_hyp_wf].
Qed.

(** Every hypothesis that [modified_beam_search] selects at the end is
    well formed. *)
Lemma modified_beam_search_best_wf enc lens beam temp res :
  outcome (modified_beam_search K m enc lens beam temp) = Ok res ->
  exists (packed : PackedSequence frame) best,
    Forall (hyp_wf C blank unk (length (batch_sizes packed))) best
    /\ unsort (length enc) (unsorted_indices packed)
         (map (fun h => skipn C (ys h)) best) = Ok (hyps res)
    /\ unsort (length enc) (unsorted_indices packed)
         (map (@timestamp O) best) = Ok (timestamps res)
    /\ unsort (length enc) (unsorted_indices packed)
         (map (@hyp_scores O) best) = Ok (scores res).
Proof.
  intros H.
  destruct (modified_beam_search_inv _ _ _ _ _ H)
    as (packed & B & best & Hsets & Hbest & Hh & Ht & Hs).
  exists packed, best. repeat split; auto.
  apply beam_search_sets_wf in Hsets.
  apply Forall_forall. intros h Hh'.
  destruct (rmapM_ok_In _ _ _ Hbest _ Hh') as (d & Hd & Hmax).
  apply get_most_probable_In in Hmax.
  rewrite Forall_forall in Hsets. specialize (Hsets _ Hd).
  unfold set_wf in Hsets. rewrite Forall_forall in Hsets. auto.
Qed.

End BeamSearchInvariant.

Section GreedyInvariant.
Context {frame eframe dec logits temperature : Type}.
Variable O : ScoreOps.
Variable K : Torch O logits temperature.
Variable m : Model frame eframe dec logits.

Let C := context_size m.
Let blank := blank_id m.
Let unk := getattr_unk_id m.

(** The length of the initial history [[-1] * (context_size - 1) + [blank_id]]. *)
Definition greedy_prefix_length : nat := (C - 1) + 1.

(** One utterance of the greedy search at the start of the time step [t]:
    its history, its frame indices and its scores. *)
Definition row_wf (t : nat) (h : list Z) (ts : list nat) (sc : list (score O))
  : Prop :=
  length sc = length ts
  /\ length h = greedy_prefix_length + length ts
  /\ increasing_below t ts
  /\ Forall (fun v => not_in_sentinels blank unk v = true)
            (skipn greedy_prefix_length h).

(** The three parallel lists while the loop over [enumerate(y)] is at index
    [i]: the utterances before [i] have been dealt with for the step [t]. *)
Definition rows_wf (t i : nat) (hs : list (list Z)) (tss : list (list nat))
  (scs : list (list (score O))) : Prop :=
  length tss = length hs /\ length scs = length hs
  /\ forall j h ts sc,
       nth_error hs j = Some h -> nth_error tss j = Some ts ->
       nth_error scs j = Some sc ->
       row_wf (if j <? i then S t else t) h ts sc.

Lemma row_wf_mono t t' h ts sc : t <= t' -> row_wf t h ts sc -> row_wf t' h ts sc.
Proof.
  intros Hle (H1 & H2 & H3 & H4).
  split; [auto | split; [auto | split; [| auto]]].
  eapply increasing_below_mono; eauto.
Qed.

Lemma row_wf_emit t h ts sc v p :
  not_in_sentinels blank unk v = true ->
  row_wf t h ts sc -> row_wf (S t) (h ++ [v]) (ts ++ [t]) (sc ++ [p]).
Proof.
  intros Hv (H1 & H2 & H3 & H4). unfold row_wf.
  rewrite !length_app; simpl.
  split; [lia | split; [lia | split]].
  - now apply increasing_below_snoc.
  - rewrite skipn_app. apply Forall_app. split; auto.
    replace (greedy_prefix_length - length h) with 0 by lia. simpl.
    constructor; [exact Hv | constructor].
Qed.

Lemma greedy_emit_one_wf t lp i v e e' :
  rows_wf t i (e_hyps e) (e_timestamps e) (e_scores e) ->
  greedy_emit_one blank unk t lp i v e = Ok e' ->
  rows_wf t (S i) (e_hyps e') (e_timestamps e') (e_scores e').
Proof.
  intros (L1 & L2 & Hrows) H. unfold greedy_emit_one in H.
  destruct (not_in_sentinels blank unk (Z.of_nat v)) eqn:Hv.
  - apply rbind_ok in H as (hs' & Hh & H).
    apply rbind_ok in H as (tss' & Ht & H).
    apply rbind_ok in H as (row & _ & H).
    apply rbind_ok in H as (p & _ & H).
    apply rbind_ok in H as (scs' & Hs & H).
    inversion H; subst e'; clear H. simpl.
    apply alter_ok in Hh as (Lh & (h0 & Hh0 & Hh0') & Hho).
    apply alter_ok in Ht as (Lt & (t0 & Ht0 & Ht0') & Hto).
    apply alter_ok in Hs as (Ls & (s0 & Hs0 & Hs0') & Hso).
    split; [congruence | split; [congruence |]].
    intros j h ts sc Hjh Hjt Hjs.
    destruct (Nat.eq_dec j i) as [-> | Hne].
    + rewrite Hh0' in Hjh. rewrite Ht0' in Hjt. rewrite Hs0' in Hjs.
      inversion Hjh; inversion Hjt; inversion Hjs; subst.
      replace (i <? S i) with true by (symmetry; apply Nat.ltb_lt; lia).
      apply row_wf_emit; auto.
      specialize (Hrows i _ _ _ Hh0 Ht0 Hs0).
      now rewrite Nat.ltb_irrefl in Hrows.
    + rewrite Hho in Hjh by auto. rewrite Hto in Hjt by auto.
      rewrite Hso in Hjs by auto.
      specialize (Hrows j _ _ _ Hjh Hjt Hjs).
      destruct (j <? i) eqn:E1.
      * apply Nat.ltb_lt in E1.
        replace (j <? S i) with true by (symmetry; apply Nat.ltb_lt; lia).
        exact Hrows.
      * apply Nat.ltb_ge in E1.
        replace (j <? S i) with false by (symmetry; apply Nat.ltb_ge; lia).
        exact Hrows.
  - inversion H; subst e'; clear H.
    split; [auto | split; [auto |]].
    intros j h ts sc Hjh Hjt Hjs.
    specialize (Hrows j _ _ _ Hjh Hjt Hjs).
    destruct (j <? i) eqn:E1.
    + apply Nat.ltb_lt in E1.
      replace (j <? S i) with true by (symmetry; apply Nat.ltb_lt; lia).
      exact Hrows.
    + destruct (j <? S i); [| exact Hrows].
      eapply row_wf_mono; [| exact Hrows]. lia.
Qed.

Lemma greedy_emit_wf t lp y : forall i e e',
  rows_wf t i (e_hyps e) (e_timestamps e) (e_scores e) ->
  greedy_emit blank unk t lp i y e = Ok e' ->
  rows_wf t (i + length y) (e_hyps e') (e_timestamps e') (e_scores e').
Proof.
  induction y as [| v y IH]; intros i e e' He H; simpl in H.
  - inversion H; subst. now rewrite Nat.add_0_r.
  - apply rbind_ok in H as (e1 & H1 & H).
    simpl. rewrite <- Nat.add_succ_comm.
    eapply IH; [| exact H]. eapply greedy_emit_one_wf; eauto.
Qed.

Lemma rows_wf_next t i hs tss scs :
  rows_wf t i hs tss scs -> rows_wf (S t) 0 hs tss scs.
Proof.
  intros (L1 & L2 & Hrows). split; [auto | split; [auto |]].
  intros j h ts sc Hjh Hjt Hjs. simpl.
  specialize (Hrows j _ _ _ Hjh Hjt Hjs).
  destruct (j <? i); [exact Hrows |].
  eapply row_wf_mono; [| exact Hrows]. lia.
Qed.

Definition greedy_state_wf (t : nat) (s : @GreedyState dec O) : Prop :=
  rows_wf t 0 (g_hyps s) (g_timestamps s) (g_scores s).

Lemma greedy_step_wf enc t bs s s' :
  greedy_state_wf t s ->
  outcome (greedy_step K m blank unk C enc t bs s) = Ok s' ->
  greedy_state_wf (S t) s'.
Proof.
  intros Hs H. unfold greedy_step in H. w_inv H.
  simpl in Ha2.
  apply greedy_emit_wf in Ha2; [| exact Hs].
  apply rows_wf_next in Ha2.
  destruct (e_emitted a2); w_inv H; inversion H; subst s'; exact Ha2.
Qed.

Lemma greedy_loop_wf enc l : forall t0 s s',
  greedy_state_wf t0 s ->
  rfor_enumerate
    (fun t bs s => outcome (greedy_step K m blank unk C enc t bs s))
    t0 l s = Ok s' ->
  greedy_state_wf (t0 + length l) s'.
Proof.
  induction l as [| bs l IH]; intros t0 s s' Hs H; simpl in H.
  - inversion H; subst. now rewrite Nat.add_0_r.
  - apply rbind_ok in H as (s1 & H1 & H).
    simpl. rewrite <- Nat.add_succ_comm.
    eapply IH; [| exact H]. eapply greedy_step_wf; eauto.
Qed.

(** What a successful run of [greedy_search_batch] went through. *)
Lemma greedy_search_batch_inv enc lens res :
  outcome (greedy_search_batch K m enc lens) = Ok res ->
  exists (packed : PackedSequence frame) s,
    pack_padded_sequence (sort_descending K) enc lens = Ok packed
    /\ rfor_enumerate
         (fun t bs s =>
            outcome (greedy_step K m blank unk C
                       (map (encoder_proj m) (data packed)) t bs s))
         0 (batch_sizes packed)
         {| g_offset := 0;
            g_hyps := repeat (repeat (-1)%Z (C - 1) ++ [blank]) (length enc);
            g_timestamps := repeat [] (length enc);
            g_scores := repeat [] (length enc);
            g_decoder_out :=
              map (decoder m)
                  (repeat (repeat (-1)%Z (C - 1) ++ [blank]) (length enc)) |}
       = Ok s
    /\ unsort (length enc) (unsorted_indices packed)
         (map (skipn C) (g_hyps s)) = Ok (hyps res)
    /\ unsort (length enc) (unsorted_indices packed) (g_timestamps s)
       = Ok (timestamps res)
    /\ unsort (length enc) (unsorted_indices packed) (g_scores s)
       = Ok (scores res).
Proof.
  intros H. unfold greedy_search_batch in H. w_inv H.
  rewrite outcome_for_enumerate in Ha6. simpl in *.
  inversion H; subst res; clear H. simpl.
  exists a0, a6. repeat split; auto.
Qed.

Lemma greedy_initial_wf N :
  rows_wf 0 0 (repeat (repeat (-1)%Z (C - 1) ++ [blank]) N)
    (repeat [] N) (repeat [] N).
Proof.
  split; [now rewrite !repeat_length | split; [now rewrite !repeat_length |]].
  intros j h ts sc Hh Ht Hs.
  apply nth_error_In, repeat_spec in Hh.
  apply nth_error_In, repeat_spec in Ht.
  apply nth_error_In, repeat_spec in Hs. subst. simpl.
  unfold row_wf, greedy_prefix_length. simpl.
  rewrite length_app, repeat_length. simpl.
  split; [auto | split; [lia | split]].
  - apply increasing_below_nil.
  - rewrite skipn_all2 by (rewrite length_app, repeat_length; simpl; lia).
    constructor.
Qed.

Lemma greedy_search_batch_rows_wf enc lens res :
  outcome (greedy_search_batch K m enc lens) = Ok res ->
  exists (packed : PackedSequence frame) s,
    greedy_state_wf (length (batch_sizes packed)) s
    /\ unsort (length enc) (unsorted_indices packed)
         (map (skipn C) (g_hyps s)) = Ok (hyps res)
    /\ unsort (length enc) (unsorted_indices packed) (g_timestamps s)
       = Ok (timestamps res)
    /\ unsort (length enc) (unsorted_indices packed) (g_scores s)
       = Ok (scores res).
Proof.
  intros H.
  destruct (greedy_search_batch_inv _ _ _ H)
    as (packed & s & _ & Hloop & Hh & Ht & Hs).
  exists packed, s. split; [| auto].
  apply greedy_loop_wf in Hloop; [exact Hloop |].
  apply greedy_initial_wf.
Qed.

End GreedyInvariant.

(** ** The returned sequences *)


Lemma unsort_rows {A B C0 D} N u (l : list A)
  (f : A -> B) (g : A -> C0) (k : A -> D) bs cs ds :
  unsort N u (map f l) = Ok bs ->
  unsort N u (map g l) = Ok cs ->
  unsort N u (map k l) = Ok ds ->
  length bs = N /\ length cs = N /\ length ds = N
  /\ forall i b c d,
       nth_error bs i = Some b -> nth_error cs i = Some c ->
       nth_error ds i = Some d ->
       exists x, In x l /\ b = f x /\ c = g x /\ d = k x.
Proof.
  intros Hb Hc Hd.
  apply unsort_ok in Hb as [Lb Hb]. apply unsort_ok in Hc as [Lc Hc].
  apply unsort_ok in Hd as [Ld Hd].
  split; [auto | split; [auto | split; [auto |]]].
  intros i b c d Hib Hic Hid.
  destruct (Hb _ _ Hib) as (j & Hj & Hjb).
  destruct (Hc _ _ Hic) as (j' & Hj' & Hjc).
  destruct (Hd _ _ Hid) as (j'' & Hj'' & Hjd).
  assert (j' = j) by congruence. assert (j'' = j) by congruence. subst.
  rewrite nth_error_map in Hjb, Hjc, Hjd.
  destruct (nth_error l j) as [x |] eqn:E; simpl in *; try discriminate.
  exists x. split; [eapply nth_error_In; eauto |].
  inversion Hjb; inversion Hjc; inversion Hjd; auto.
Qed.

Section Returned.
Context {frame eframe dec logits temperature : Type}.
Variable O : ScoreOps.
Variable K : Torch O logits temperature.
Variable m : Model frame eframe dec logits.

(** The rows of a result of the greedy search, as rows of the final
    state. *)
Lemma greedy_result_rows enc lens res :
  outcome (greedy_search_batch K m enc lens) = Ok res ->
  length (hyps res) = length enc
  /\ length (timestamps res) = length enc
  /\ length (scores res) = length enc
  /\ exists T,
       forall i ts hy sc,
         nth_error (timestamps res) i = Some ts ->
         nth_error (hyps res) i = Some hy ->
         nth_error (scores res) i = Some sc ->
         exists h, hy = skipn (context_size m) h /\ row_wf O m T h ts sc.
Proof.
  intros H.
  destruct (greedy_search_batch_rows_wf _ _ _ _ _ _ H)
    as (packed & s & (L1 & L2 & Hrows) & Hh & Ht & Hs).
  apply unsort_ok in Hh as [Lh Hh]. apply unsort_ok in Ht as [Lt Ht].
  apply unsort_ok in Hs as [Ls Hs].
  split; [auto | split; [auto | split; [auto |]]].
  exists (length (batch_sizes packed)).
  intros i ts hy sc Hits Hihy Hisc.
  destruct (Hh _ _ Hihy) as (j & Hj & Hjh).
  destruct (Ht _ _ Hits) as (j' & Hj' & Hjt).
  destruct (Hs _ _ Hisc) as (j'' & Hj'' & Hjs).
  assert (j' = j) by congruence. assert (j'' = j) by congruence. subst.
  rewrite nth_error_map in Hjh.
  destruct (nth_error (g_hyps s) j) as [h |] eqn:E; simpl in *;
    try discriminate.
  inversion Hjh; subst hy. exists h. split; auto.
  exact (Hrows j _ _ _ E Hjt Hjs).
Qed.

(** The rows of a result of the beam search, as selected hypotheses. *)
Lemma beam_result_rows enc lens beam temp res :
  outcome (modified_beam_search K m enc lens beam temp) = Ok res ->
  length (hyps res) = length enc
  /\ length (timestamps res) = length enc
  /\ length (scores res) = length enc
  /\ exists T,
       forall i ts hy sc,
         nth_error (timestamps res) i = Some ts ->
         nth_error (hyps res) i = Some hy ->
         nth_error (scores res) i = Some sc ->
         exists h : Hypothesis_ O,
           hyp_wf (context_size m) (blank_id m) (getattr_unk_id m) T h
           /\ hy = skipn (context_size m) (ys h)
           /\ ts = timestamp h /\ sc = hyp_scores h.
Proof.
  intros H.
  destruct (modified_beam_search_best_wf _ _ _ _ _ _ _ _ H)
    as (packed & best & Hwf & Hh & Ht & Hs).
  destruct (unsort_rows _ _ _ _ _ _ _ _ _ Hh Ht Hs) as (Lh & Lt & Ls & Hrows).
  split; [auto | split; [auto | split; [auto |]]].
  exists (length (batch_sizes packed)).
  intros i ts hy sc Hits Hihy Hisc.
  destruct (Hrows _ _ _ _ Hihy Hits Hisc) as (h & Hin & -> & -> & ->).
  exists h. rewrite Forall_forall in Hwf. auto.
Qed.

End Returned.


(** C10.  In a result of either decoder the timestamp sequence of every
    utterance is strictly increasing. *)
Theorem C10_timestamps_strictly_increasing :
  forall (O : ScoreOps) (frame eframe dec logits temperature : Type)
         (K : Torch O logits temperature)
         (m : Model frame eframe dec logits)
         (encoder_out : list (nat -> frame)) (encoder_out_lens : list Z),
    (forall res,
       outcome (greedy_search_batch K m encoder_out encoder_out_lens) = Ok res ->
       Forall (StronglySorted lt) (timestamps res))
    /\ (forall beam temp res,
           outcome (modified_beam_search K m encoder_out encoder_out_lens
                      beam temp) = Ok res ->
           Forall (StronglySorted lt) (timestamps res)).
Proof.
  intros O frame eframe dec logits temperature K m enc lens. split.
  - intros res H.
    destruct (greedy_result_rows _ _ _ _ _ _ H) as (Lh & Lt & Ls & T & Hrows).
    apply Forall_forall. intros ts Hts.
    apply In_nth_error in Hts as (i & Hi).
    assert (Hlt : i < length enc)
      by (rewrite <- Lt; apply nth_error_Some; congruence).
    destruct (nth_error (hyps res) i) as [hy |] eqn:Ehy;
      [| apply nth_error_None in Ehy; lia].
    destruct (nth_error (scores res) i) as [sc |] eqn:Esc;
      [| apply nth_error_None in Esc; lia].
    destruct (Hrows _ _ _ _ Hi Ehy Esc) as (h & _ & (_ & _ & [Hs _] & _)).
    exact Hs.
  - intros beam temp res H.
    destruct (beam_result_rows _ _ _ _ _ _ _ _ H) as (Lh & Lt & Ls & T & Hrows).
    apply Forall_forall. intros ts Hts.
    apply In_nth_error in Hts as (i & Hi).
    assert (Hlt : i < length enc)
      by (rewrite <- Lt; apply nth_error_Some; congruence).
    destruct (nth_error (hyps res) i) as [hy |] eqn:Ehy;
      [| apply nth_error_None in Ehy; lia].
    destruct (nth_error (scores res) i) as [sc |] eqn:Esc;
      [| apply nth_error_None in Esc; lia].
    destruct (Hrows _ _ _ _ Hi Ehy Esc)
      as (h & (_ & _ & [Hs _] & _) & _ & -> & _).
    exact Hs.
Qed.

(** ** Sample runs *)

(** The scenario of the specification: five tokens, blank id 0; the most
    probable token is 2 at frame 0, blank at frame 1 and 3 from frame 2 on. *)
Definition scenario_table (f : nat) (context : list Z) : list Q :=
  match f with
  | 0 => [1 # 10; 1 # 10; 6 # 10; 1 # 10; 1 # 10]%Q
  | 1 => [6 # 10; 1 # 10; 1 # 10; 1 # 10; 1 # 10]%Q
  | _ => [1 # 10; 1 # 10; 1 # 10; 6 # 10; 1 # 10]%Q
  end.

Definition scenario_model : Model nat nat (list Z) (list Q) :=
  table_model 0 None 2 5 scenario_table.

Definition TorchQ_first : Torch LogQ (list Q) unit := TorchQ (topk_first LogQ).

(** Three utterances with 2, 1 and 3 valid frames; frame [t] of each is the
    frame number [t]. *)
Definition scenario_batch : list (nat -> nat) :=
  [fun t => t; fun t => t; fun t => t].

Definition scenario_lens : list Z := [2; 1; 3]%Z.

Example scenario_greedy :
  greedy_search_batch TorchQ_first scenario_model [fun t => t] [3%Z]
  = ([CallDecoder 1; CallEncoderProj 3; CallJoiner 1; CallDecoder 1;
      CallJoiner 1; CallJoiner 1; CallDecoder 1],
     Ok (@Build_DecodingResults LogQ
           [[0; 2]] [[2; 3]%Z] [[6 # 10; 6 # 10]%Q])).
Proof. reflexivity. Qed.

Definition scenario_greedy_result : DecodingResults LogQ :=
  @Build_DecodingResults LogQ
    [[0]; [0]; [0; 2]]
    [[2]; [2]; [2; 3]]%Z
    [[6 # 10]; [6 # 10]; [6 # 10; 6 # 10]]%Q.

(** The score of the second token of the third utterance is the cumulative
    probability 0.6 * 0.6 * 0.6. *)
Definition scenario_beam_result : DecodingResults LogQ :=
  @Build_DecodingResults LogQ
    [[0]; [0]; [0; 2]]
    [[2]; [2]; [2; 3]]%Z
    [[6 # 10]; [6 # 10]; [6 # 10; 216 # 1000]]%Q.

Example scenario_greedy_batch :
  outcome (greedy_search_batch TorchQ_first scenario_model
             scenario_batch scenario_lens) = Ok scenario_greedy_result.
Proof. reflexivity. Qed.

Example scenario_beam_batch :
  outcome (modified_beam_search TorchQ_first scenario_model
             scenario_batch scenario_lens 2 tt) = Ok scenario_beam_result.
Proof. reflexivity. Qed.







Lemma C10_timestamps_strictly_increasing_witness :
  Forall (StronglySorted lt) (timestamps scenario_greedy_result)
  /\ Forall (StronglySorted lt) (timestamps scenario_beam_result).
Proof.
  destruct (C10_timestamps_strictly_increasing _ _ _ _ _ _
              TorchQ_first scenario_model scenario_batch scenario_lens)
    as [Hg Hb].
  split.
  - apply Hg. reflexivity.
  - apply (Hb 2 tt). reflexivity.
Defined.

(** ** The final selection *)

(** The comparison [gt] is transitive and negatively transitive on [keys]. *)
Definition order_ok {Kt} (gt : Kt -> Kt -> bool) (keys : list Kt) : bool :=
  forallb (fun a =>
    forallb (fun b =>
      forallb (fun c =>
        implb (gt a b && gt b c) (gt a c)
        && implb (negb (gt a b) && negb (gt b c)) (negb (gt a c)))
      keys) keys) keys.

(** [x] is the first element of [l] whose key is maximal: it beats every
    element before it and no element after it beats it. *)
Definition first_maximum {A Kt} (gt : Kt -> Kt -> bool) (f : A -> Kt)
  (x : A) (l : list A) : Prop :=
  exists l1 l2,
    l = l1 ++ x :: l2
    /\ (forall y, In y l1 -> gt (f x) (f y) = true)
    /\ (forall y, In y l2 -> gt (f y) (f x) = false).

Lemma order_ok_laws {Kt} (gt : Kt -> Kt -> bool) keys :
  order_ok gt keys = true ->
  forall a b c, In a keys -> In b keys -> In c keys ->
    (gt a b = true -> gt b c = true -> gt a c = true)
    /\ (gt a b = false -> gt b c = false -> gt a c = false).
Proof.
  unfold order_ok. intros H a b c Ha Hb Hc.
  rewrite forallb_forall in H. specialize (H a Ha).
  rewrite forallb_forall in H. specialize (H b Hb).
  rewrite forallb_forall in H. specialize (H c Hc).
  apply andb_prop in H as [H1 H2].
  split; intros E1 E2; rewrite E1, E2 in *; simpl in *.
  - exact H1.
  - now apply negb_true_iff in H2.
Qed.

Lemma max_from_first_maximum {A Kt} (gt : Kt -> Kt -> bool) (f : A -> Kt) rest :
  forall pre best mid,
    (forall a b c,
        In a (pre ++ best :: mid ++ rest) ->
        In b (pre ++ best :: mid ++ rest) ->
        In c (pre ++ best :: mid ++ rest) ->
        (gt (f a) (f b) = true -> gt (f b) (f c) = true -> gt (f a) (f c) = true)
        /\ (gt (f a) (f b) = false -> gt (f b) (f c) = false
            -> gt (f a) (f c) = false)) ->
    (forall y, In y pre -> gt (f best) (f y) = true) ->
    (forall y, In y mid -> gt (f y) (f best) = false) ->
    first_maximum gt f (max_from gt f best rest) (pre ++ best :: mid ++ rest).
Proof.
  induction rest as [| x rest IH]; intros pre best mid Hlaws Hpre Hmid; simpl.
  - exists pre, mid. rewrite app_nil_r. auto.
  - assert (Ix : In x (pre ++ best :: mid ++ x :: rest))
      by (apply in_or_app; right; right; apply in_or_app; right; left; auto).
    assert (Ib : In best (pre ++ best :: mid ++ x :: rest))
      by (apply in_or_app; right; left; auto).
    destruct (gt (f x) (f best)) eqn:E.
    + replace (pre ++ best :: mid ++ x :: rest)
        with ((pre ++ best :: mid) ++ x :: [] ++ rest)
        by (rewrite <- app_assoc; reflexivity).
      apply IH.
      * intros a b c Ha Hb Hc. apply Hlaws;
          rewrite <- app_assoc in *; simpl in *; assumption.
      * intros y Hy. apply in_app_or in Hy as [Hy | [<- | Hy]].
        -- assert (Iy : In y (pre ++ best :: mid ++ x :: rest))
             by (apply in_or_app; auto).
           destruct (Hlaws x best y Ix Ib Iy) as [Ht _]. auto.
        -- exact E.
        -- assert (Iy : In y (pre ++ best :: mid ++ x :: rest))
             by (apply in_or_app; right; right; apply in_or_app; auto).
           destruct (gt (f x) (f y)) eqn:E2; auto.
           destruct (Hlaws x y best Ix Iy Ib) as [_ Hn].
           rewrite (Hn E2 (Hmid _ Hy)) in E. discriminate.
      * intros y [].
    + replace (pre ++ best :: mid ++ x :: rest)
        with (pre ++ best :: (mid ++ [x]) ++ rest)
        by (rewrite <- app_assoc; reflexivity).
      apply IH.
      * intros a b c Ha Hb Hc. apply Hlaws;
          rewrite <- app_assoc in *; simpl in *; assumption.
      * exact Hpre.
      * intros y Hy. apply in_app_or in Hy as [Hy | [<- | []]]; auto.
Qed.

Lemma py_max_first_maximum {A Kt} (gt : Kt -> Kt -> bool) (f : A -> Kt) l x :
  order_ok gt (map f l) = true ->
  py_max gt f l = Ok x ->
  first_maximum gt f x l.
Proof.
  intros Hok H. destruct l as [| y l]; simpl in H; inversion H; subst x.
  apply (max_from_first_maximum gt f l [] y []).
  - intros a b c Ha Hb Hc. simpl in Ha, Hb, Hc.
    apply (order_ok_laws _ _ Hok); apply in_map; assumption.
  - intros z [].
  - intros z [].
Qed.

(** The key of the length-normalised maximum: [log_prob / len(ys)]. *)
Definition norm_key {O} (h : Hypothesis_ O) : quot O :=
  s_div_len O (log_prob h) (length (ys h)).

(** The key that the specification describes: the cumulative log-prob
    divided by the number of emitted tokens, the context prefix of size [C]
    not counted. *)
Definition emitted_norm_key {O} (C : nat) (h : Hypothesis_ O) : quot O :=
  s_div_len O (log_prob h) (length (ys h) - C).

(** The claim as the specification states it, for one call: the output of
    every utterance stems from a hypothesis of its final set whose
    [emitted_norm_key] no hypothesis of that set exceeds. *)
Definition selects_by_emitted_length {frame eframe dec logits temperature O}
  (K : Torch O logits temperature) (m : Model frame eframe dec logits)
  (enc : list (nat -> frame)) (lens : list Z) (beam : nat) (temp : temperature)
  : Prop :=
  forall res,
    outcome (modified_beam_search K m enc lens beam temp) = Ok res ->
    exists packed B,
      outcome (beam_search_sets K m enc lens beam temp) = Ok (packed, B)
      /\ forall i j d,
           nth_error (unsorted_indices packed) i = Some j ->
           nth_error B j = Some d ->
           exists h,
             In h (values d)
             /\ nth_error (hyps res) i = Some (skipn (context_size m) (ys h))
             /\ forall y, In y (values d) ->
                  q_gtb O (emitted_norm_key (context_size m) y)
                          (emitted_norm_key (context_size m) h) = false.

(** A network with three tokens and context size 2: after the context
    [0, 0] the distribution is (0.1, 0.6, 0.3), after any other context it is
    (0.5, 0.3, 0.2). *)
Definition selection_table (f : nat) (context : list Z) : list Q :=
  match context with
  | [0; 0]%Z => [1 # 10; 6 # 10; 3 # 10]%Q
  | _ => [5 # 10; 3 # 10; 2 # 10]%Q
  end.

Definition selection_model : Model nat nat (list Z) (list Q) :=
  table_model 0 None 2 3 selection_table.

Lemma rmapM_ok_nth_rev {A B} (f : A -> result B) l r :
  rmapM f l = Ok r ->
  forall i y, nth_error r i = Some y ->
    exists x, nth_error l i = Some x /\ f x = Ok y.
Proof.
  intros H i y Hy.
  assert (Hi : i < length l).
  { rewrite <- (rmapM_ok_length _ _ _ H). apply nth_error_Some. congruence. }
  destruct (nth_error l i) as [x |] eqn:E;
    [| apply nth_error_None in E; lia].
  destruct (rmapM_ok_nth _ _ _ H _ _ E) as (y' & Hy' & Hf).
  exists x. split; auto. congruence.
Qed.

(** C3 (amended).  Every utterance's output of [modified_beam_search] stems
    from the hypothesis that [get_most_probable(length_norm=True)] returns
    for its final set, utterances retired early included: the first
    hypothesis of the set, in insertion order, that maximises
    [log_prob / len(ys)], where [len(ys)] is the context size plus the
    number of emitted tokens. *)
Theorem C3_selection_normalises_by_full_length :
  forall (O : ScoreOps) (frame eframe dec logits temperature : Type)
         (K : Torch O logits temperature)
         (m : Model frame eframe dec logits)
         (enc : list (nat -> frame)) (lens : list Z) (beam : nat)
         (temp : temperature) (res : DecodingResults O),
    outcome (modified_beam_search K m enc lens beam temp) = Ok res ->
    exists packed B,
      outcome (beam_search_sets K m enc lens beam temp) = Ok (packed, B)
      /\ forall i, i < length enc ->
           exists j d h,
             nth_error (unsorted_indices packed) i = Some j
             /\ nth_error B j = Some d
             /\ get_most_probable d true = Ok h
             /\ nth_error (hyps res) i = Some (skipn (context_size m) (ys h))
             /\ nth_error (timestamps res) i = Some (timestamp h)
             /\ nth_error (scores res) i = Some (hyp_scores h)
             /\ length (ys h) = context_size m + length (timestamp h)
             /\ (order_ok (q_gtb O) (map norm_key (values d)) = true ->
                 first_maximum (q_gtb O) norm_key h (values d)).
Proof.
  intros O frame eframe dec logits temperature K m enc lens beam temp res H.
  destruct (modified_beam_search_inv _ _ _ _ _ _ _ _ H)
    as (packed & B & best & Hsets & Hbest & Hh & Ht & Hs).
  exists packed, B. split; [exact Hsets |].
  pose proof (beam_search_sets_wf _ _ _ _ _ _ _ _ _ Hsets) as Hwf.
  apply unsort_ok in Hh as [Lh Hh]. apply unsort_ok in Ht as [Lt Ht].
  apply unsort_ok in Hs as [Ls Hs].
  intros i Hi.
  destruct (nth_error (hyps res) i) as [hy |] eqn:Ehy;
    [| apply nth_error_None in Ehy; lia].
  destruct (nth_error (timestamps res) i) as [ts |] eqn:Ets;
    [| apply nth_error_None in Ets; lia].
  destruct (nth_error (scores res) i) as [sc |] eqn:Esc;
    [| apply nth_error_None in Esc; lia].
  destruct (Hh _ _ Ehy) as (j & Hj & Hjh).
  destruct (Ht _ _ Ets) as (j' & Hj' & Hjt).
  destruct (Hs _ _ Esc) as (j'' & Hj'' & Hjs).
  assert (j' = j) by congruence. assert (j'' = j) by congruence. subst.
  rewrite nth_error_map in Hjh, Hjt, Hjs.
  destruct (nth_error best j) as [h |] eqn:Eh; simpl in *; try discriminate.
  destruct (rmapM_ok_nth_rev _ _ _ Hbest _ _ Eh) as (d & Hd & Hmax).
  change (get_most_probable d true = Ok h) in Hmax.
  exists j, d, h.
  inversion Hjh; inversion Hjt; inversion Hjs; subst.
  do 6 (split; [auto |]).
  split.
  - rewrite Forall_forall in Hwf.
    pose proof (Hwf _ (nth_error_In _ _ Hd)) as Hd'.
    unfold set_wf in Hd'. rewrite Forall_forall in Hd'.
    destruct (Hd' _ (get_most_probable_In _ _ _ Hmax)) as (_ & H2 & _).
    exact H2.
  - intros Hok. unfold get_most_probable in Hmax.
    now apply py_max_first_maximum.
Qed.

(** The run on one utterance of two frames with beam 2: the final set holds
    the token sequence [1] with probability 0.3 and [1, 1] with probability
    0.18; the result is [1]. *)
Definition selection_short : Hypothesis_ LogQ :=
  @Build_Hypothesis_ LogQ [0; 0; 1]%Z [6 # 10]%Q (30 # 100)%Q [0].

Definition selection_long : Hypothesis_ LogQ :=
  @Build_Hypothesis_ LogQ [0; 0; 1; 1]%Z [6 # 10; 18 # 100]%Q (18 # 100)%Q [0; 1].

Definition selection_set : HypothesisList LogQ :=
  [("0_0_1"%string, selection_short); ("0_0_1_1"%string, selection_long)].

Definition selection_packed : PackedSequence nat :=
  {| data := [0; 1]; batch_sizes := [1; 1];
     sorted_indices := [0]; unsorted_indices := [0] |}.

Definition selection_result : DecodingResults LogQ :=
  @Build_DecodingResults LogQ [[0]] [[1]]%Z [[6 # 10]]%Q.

Example selection_sets_run :
  outcome (beam_search_sets TorchQ_first selection_model [fun t => t] [2%Z] 2 tt)
  = Ok (selection_packed, [selection_set]).
Proof. reflexivity. Qed.

Example selection_run :
  outcome (modified_beam_search TorchQ_first selection_model
             [fun t => t] [2%Z] 2 tt) = Ok selection_result.
Proof. reflexivity. Qed.

Lemma C3_selection_normalises_by_full_length_witness :
  exists packed B,
    outcome (beam_search_sets TorchQ_first selection_model
               [fun t => t] [2%Z] 2 tt) = Ok (packed, B)
    /\ exists j d h,
         nth_error (unsorted_indices packed) 0 = Some j
         /\ nth_error B j = Some d
         /\ get_most_probable d true = Ok h
         /\ nth_error (hyps selection_result) 0 = Some (skipn 2 (ys h))
         /\ first_maximum (q_gtb LogQ) norm_key h (values d).
Proof.
  destruct (C3_selection_normalises_by_full_length _ _ _ _ _ _
              TorchQ_first selection_model [fun t => t] [2%Z] 2 tt
              selection_result eq_refl)
    as (packed & B & Hsets & Hall).
  exists packed, B. split; [exact Hsets |].
  destruct (Hall 0) as (j & d & h & H1 & H2 & H3 & H4 & _ & _ & _ & H8);
    [simpl; lia |].
  exists j, d, h. do 4 (split; [assumption |]).
  apply H8.
  rewrite selection_sets_run in Hsets. inversion Hsets; subst packed B.
  inversion H1; subst j. inversion H2; subst d.
  reflexivity.
Defined.

(** C3 (as stated) fails: on two frames with beam 2 the final set holds the
    token sequence [1] with probability 0.3 and [1, 1] with probability 0.18.
    Divided by the number of emitted tokens [1, 1] wins
    ([log 0.18 / 2 > log 0.3 / 1]); the code divides by [len(ys)], which
    counts the two context tokens, and returns [1]
    ([log 0.3 / 3 > log 0.18 / 4]). *)
Lemma C3_counterexample :
  ~ selects_by_emitted_length TorchQ_first selection_model
      [fun t => t] [2%Z] 2 tt.
Proof.
  intros H.
  destruct (H selection_result selection_run) as (packed & B & Hsets & Hsel).
  rewrite selection_sets_run in Hsets. inversion Hsets; subst packed B.
  destruct (Hsel 0 0 selection_set eq_refl eq_refl) as (h & Hin & Hhy & Hmax).
  destruct Hin as [<- | [<- | []]].
  - specialize (Hmax selection_long (or_intror (or_introl eq_refl))).
    exact (diff_true_false Hmax).
  - inversion Hhy.
Qed.

(** ** The scores that the beam search records *)

(** A network with three tokens whose distribution is (0.1, 0.6, 0.3) at
    every frame and after every context. *)
Definition constant_model : Model nat nat (list Z) (list Q) :=
  table_model 0 None 2 3 (fun _ _ => [1 # 10; 6 # 10; 3 # 10]%Q).

(** The score that [beam_new_hyp] appends is the entry of
    [current_log_probs] at the selected index. *)
Lemma beam_new_hyp_appended_score {O} blank unk t V
  (A_i : list (Hypothesis_ O)) clp c h :
  beam_new_hyp blank unk t V A_i clp c = Ok h ->
  not_in_sentinels blank unk (Z.of_nat (snd c mod V)) = true ->
  exists parent p,
    nth_error A_i (snd c / V) = Some parent
    /\ nth_error clp (snd c) = Some p
    /\ ys h = ys parent ++ [Z.of_nat (snd c mod V)]
    /\ hyp_scores h = hyp_scores parent ++ [p]
    /\ timestamp h = timestamp parent ++ [t].
Proof.
  unfold beam_new_hyp. intros H Hs.
  apply rbind_ok in H as (parent & Hp & H). rewrite Hs in H.
  apply rbind_ok in H as (p & Hpp & H). inversion H; subst h; simpl.
  exists parent, p. apply index_ok in Hp. apply index_ok in Hpp. auto.
Qed.

(** In the loop over the utterances [current_log_probs] is a slice of the
    tensor that [topk] is applied to: [log_probs_t] reads the storage after
    [add_]. *)
Lemma beam_scoring_alias {frame eframe dec logits temperature} O
  (K : Torch O logits temperature) (m : Model frame eframe dec logits)
  temp cur B bt lo hi :
  outcome (beam_scoring K m (context_size m) temp cur B) = Ok bt ->
  slice_z (bt_log_probs_t bt) lo hi = slice_z (bt_log_probs bt) lo hi.
Proof.
  intros H. apply beam_scoring_ok in H as (_ & _ & ->). reflexivity.
Qed.

(** C5 (the code at the failing input).  One utterance of two frames, beam 1,
    every frame giving token 1 the probability 0.6.  [modified_beam_search]
    returns the tokens [1, 1] at the frames [0, 1]; the score recorded for
    the second token is the cumulative value [log (0.6 * 0.6)] of the
    candidate, not the token-level [log 0.6] that the network assigns to the
    token at that frame and that [greedy_search_batch] records. *)
Theorem C5_beam_search_records_cumulative_scores :
  outcome (modified_beam_search TorchQ_first constant_model
             [fun t => t] [2%Z] 1 tt)
  = Ok (@Build_DecodingResults LogQ [[0; 1]] [[1; 1]]%Z [[6 # 10; 36 # 100]]%Q)
  /\ outcome (greedy_search_batch TorchQ_first constant_model
                [fun t => t] [2%Z])
     = Ok (@Build_DecodingResults LogQ [[0; 1]] [[1; 1]]%Z [[6 # 10; 6 # 10]]%Q)
  /\ log_softmax TorchQ_first (joiner constant_model 1 [0; 1]%Z) 1 = (6 # 10)%Q
  /\ ~ Qeq (36 # 100) (6 # 10).
Proof.
  split; [reflexivity | split; [reflexivity | split; [reflexivity |]]].
  intros H. discriminate H.
Qed.

(** ** Merges *)

Lemma rmapM_rbind_map {A B C0} (g : A -> result B) (h : B -> C0) l :
  rmapM (fun x => rbind (g x) (fun y => Ok (h y))) l
  = rbind (rmapM g l) (fun ys => Ok (map h ys)).
Proof.
  induction l as [| x l IH]; simpl; auto.
  destruct (g x) as [y | e]; simpl; auto.
  rewrite IH. destruct (rmapM g l); simpl; auto.
Qed.

Lemma rmapM_ext {A B} (f g : A -> result B) l :
  (forall x, f x = g x) -> rmapM f l = rmapM g l.
Proof.
  intros E. induction l as [| x l IH]; simpl; auto. now rewrite E, IH.
Qed.

Section Merges.
Context {frame eframe dec logits temperature : Type}.
Variable O : ScoreOps.
Variable K : Torch O logits temperature.
Variable m : Model frame eframe dec logits.

Let C := context_size m.
Let blank := blank_id m.
Let unk := getattr_unk_id m.

(** The hypotheses that the loop over [k] hands to [B[i].add], in their
    order, for the utterance [i]. *)
Definition beam_new_hyps (beam t V : nat) (A : list (list (Hypothesis_ O)))
  (row_splits : list Z) (log_probs log_probs_t : list (score O)) (i : nat)
  : result (list (Hypothesis_ O)) :=
  rbind (index row_splits i) (fun lo =>
  rbind (index row_splits (S i)) (fun hi =>
  rbind (topk K (slice_z log_probs lo hi) beam) (fun top =>
  rbind (index A i) (fun A_i =>
  rmapM (beam_new_hyp blank unk t V A_i (slice_z log_probs_t lo hi)) top)))).

Lemma beam_utterance_adds beam t V A rs lp lpt i :
  beam_utterance K blank unk beam t V A rs lp lpt i
  = rbind (beam_new_hyps beam t V A rs lp lpt i)
          (fun hs => Ok (fold_left (@add O) hs [])).
Proof.
  unfold beam_utterance, beam_new_hyps.
  destruct (index rs i) as [lo |]; simpl; auto.
  destruct (index rs (S i)) as [hi |]; simpl; auto.
  destruct (topk K (slice_z lp lo hi) beam) as [top |]; simpl; auto.
  destruct (index A i) as [A_i |]; simpl; auto.
  apply beam_expand_fold.
Qed.

(** The same for all active utterances of the time step [t]. *)
Definition beam_step_new_hyps (beam : nat) (temp : temperature)
  (encoder_out : list eframe) (t batch_size : nat) (s : BeamState O)
  : result (list (list (Hypothesis_ O))) :=
  rbind (outcome (beam_scoring K m C temp
                    (slice encoder_out (b_offset s) (b_offset s + batch_size))
                    (firstn batch_size (b_B s))))
        (fun bt =>
           rmapM (beam_new_hyps beam t (vocab_size m)
                    (bt_A bt) (bt_row_splits bt)
                    (bt_log_probs bt) (bt_log_probs_t bt))
                 (seq 0 batch_size)).

(** A time step adds, for every active utterance, its new hypotheses to an
    empty set. *)
Lemma beam_step_adds beam temp enc t bs s :
  outcome (beam_step K m blank unk C beam temp enc t bs s)
  = rbind (beam_step_new_hyps beam temp enc t bs s)
          (fun hss =>
             Ok {| b_offset := b_offset s + bs;
                   b_B := map (fun hs => fold_left (@add O) hs []) hss;
                   b_finalized_B := skipn bs (b_B s) ++ b_finalized_B s |}).
Proof.
  unfold beam_step, beam_step_new_hyps.
  rewrite outcome_bind.
  destruct (outcome (beam_scoring K m C temp _ _)) as [bt | e];
    [| reflexivity].
  unfold rbind at 1 3. rewrite outcome_bind, outcome_lift.
  rewrite (rmapM_ext _ _ _ (fun i => beam_utterance_adds _ _ _ _ _ _ _ i)).
  rewrite rmapM_rbind_map.
  destruct (rmapM _ (seq 0 bs)); reflexivity.
Qed.

(** The states that the loop of [modified_beam_search] passes through:
    [beam_reachable enc sizes N t s] when [s] is the state before the time
    step [t], for [N] utterances. *)
Inductive beam_reachable (beam : nat) (temp : temperature)
  (encoder_out : list eframe) (sizes : list nat) (N : nat)
  : nat -> BeamState O -> Prop :=
| reach_start :
    beam_reachable beam temp encoder_out sizes N 0
      {| b_offset := 0;
         b_B := repeat (add [] {| ys := repeat blank C; hyp_scores := [];
                                  log_prob := s_zero O; timestamp := [] |}) N;
         b_finalized_B := [] |}
| reach_step t s bs s' :
    beam_reachable beam temp encoder_out sizes N t s ->
    nth_error sizes t = Some bs ->
    outcome (beam_step K m blank unk C beam temp encoder_out t bs s) = Ok s' ->
    beam_reachable beam temp encoder_out sizes N (S t) s'.

Lemma beam_reachable_wf beam temp enc sizes N t s :
  beam_reachable beam temp enc sizes N t s -> state_wf O m t s.
Proof.
  induction 1 as [| t s bs s' _ IH _ Hstep].
  - split; simpl; [| constructor].
    apply Forall_forall. intros d Hd. apply repeat_spec in Hd. subst d.
    apply add_wf; [constructor | apply initial_hyp_wf].
  - eapply beam_step_wf; eauto.
Qed.

(** The pairs (stored hypothesis, added hypothesis) for which
    [HypothesisList.add] takes the merge branch while [hs] are added to
    [d]. *)
Fixpoint merge_events (d : HypothesisList O) (hs : list (Hypothesis_ O))
  : list (Hypothesis_ O * Hypothesis_ O) :=
  match hs with
  | [] => []
  | h :: hs' =>
      match lookup (key h) d with
      | Some old => (old, h) :: merge_events (add d h) hs'
      | None => merge_events (add d h) hs'
      end
  end.

(** Every entry is stored under its own key. *)
Definition keyed (d : HypothesisList O) : Prop :=
  forall k h, lookup k d = Some h -> key h = k.

Lemma keyed_add d h : keyed d -> keyed (add d h).
Proof.
  intros Hd k h' Hl.
  destruct (String.eqb_spec k (key h)) as [-> | Hne].
  - rewrite lookup_add_same in Hl. inversion Hl; subst h'.
    destruct (lookup (key h) d) as [old |] eqn:E; auto.
    apply Hd in E. unfold key in *. simpl. exact E.
  - rewrite lookup_add_other in Hl by auto. auto.
Qed.

Lemma merge_events_wf t hs : forall d old new,
  keyed d -> set_wf C blank unk t d -> Forall (hyp_wf C blank unk t) hs ->
  In (old, new) (merge_events d hs) ->
  key old = key new /\ hyp_wf C blank unk t old /\ hyp_wf C blank unk t new.
Proof.
  induction hs as [| h hs IH]; intros d old new Hk Hd Hhs Hin; simpl in Hin.
  - destruct Hin.
  - inversion Hhs as [| ? ? Hh Hhs']; subst.
    assert (Hk' : keyed (add d h)) by now apply keyed_add.
    assert (Hd' : set_wf C blank unk t (add d h)) by now apply add_wf.
    destruct (lookup (key h) d) as [o |] eqn:E.
    + destruct Hin as [Hin | Hin]; [| eauto].
      inversion Hin; subst o h. split; [now apply Hk | split; auto].
      unfold set_wf in Hd. rewrite Forall_forall in Hd.
      apply Hd. eapply lookup_In; eauto.
    + eauto.
Qed.

End Merges.

Arguments beam_new_hyps {logits temperature} O K blank unk beam t V A
  row_splits log_probs log_probs_t i : rename.
Arguments merge_events {O} d hs.
Arguments keyed {O} d.

(** The claim as the specification states it, for one call: whenever a
    hypothesis is merged into a stored one in a state that the loop passes
    through, the two have the same timestamps and the same scores. *)
Definition merged_hypotheses_agree {frame eframe dec logits temperature O}
  (K : Torch O logits temperature) (m : Model frame eframe dec logits)
  (encoder_out : list (nat -> frame)) (lens : list Z) (beam : nat)
  (temp : temperature) : Prop :=
  forall packed,
    pack_padded_sequence (sort_descending K) encoder_out lens = Ok packed ->
    forall t s bs hss hs old new,
      beam_reachable O K m beam temp (map (encoder_proj m) (data packed))
        (batch_sizes packed) (length encoder_out) t s ->
      nth_error (batch_sizes packed) t = Some bs ->
      beam_step_new_hyps O K m beam temp (map (encoder_proj m) (data packed))
        t bs s = Ok hss ->
      In hs hss ->
      In (old, new) (merge_events [] hs) ->
      timestamp old = timestamp new /\ hyp_scores old = hyp_scores new.

(** C2 (amended).  In every state that the loop of [modified_beam_search]
    passes through, two hypotheses that [HypothesisList.add] merges have the
    same key and hence the same token sequence [ys], and therefore timestamp
    sequences of one length and score sequences of one length (one entry per
    emitted token); the timestamps and scores themselves need not agree, and
    the merge keeps those of the stored hypothesis. *)
Theorem C2_merged_hypotheses_share_tokens :
  forall (O : ScoreOps) (frame eframe dec logits temperature : Type)
         (K : Torch O logits temperature)
         (m : Model frame eframe dec logits)
         (beam : nat) (temp : temperature) (enc : list eframe)
         (sizes : list nat) (N t bs : nat) (s : BeamState O)
         (hss : list (list (Hypothesis_ O))) (hs : list (Hypothesis_ O))
         (old new : Hypothesis_ O),
    beam_reachable O K m beam temp enc sizes N t s ->
    beam_step_new_hyps O K m beam temp enc t bs s = Ok hss ->
    In hs hss ->
    In (old, new) (merge_events [] hs) ->
    key old = key new
    /\ ys old = ys new
    /\ length (timestamp old) = length (timestamp new)
    /\ length (hyp_scores old) = length (hyp_scores new)
    /\ ys (merge_into old new) = ys old
    /\ timestamp (merge_into old new) = timestamp old
    /\ hyp_scores (merge_into old new) = hyp_scores old.
Proof.
  intros O frame eframe dec logits temperature K m beam temp enc sizes N t bs
         s hss hs old new Hreach Hstep Hhs Hin.
  apply beam_reachable_wf in Hreach as [HB _].
  unfold beam_step_new_hyps in Hstep.
  apply rbind_ok in Hstep as (bt & Hbt & Hstep).
  apply beam_scoring_ok in Hbt as (EA & _ & _).
  destruct (rmapM_ok_In _ _ _ Hstep _ Hhs) as (i & _ & Hi).
  unfold beam_new_hyps in Hi.
  apply rbind_ok in Hi as (lo & _ & Hi).
  apply rbind_ok in Hi as (hi & _ & Hi).
  apply rbind_ok in Hi as (top & _ & Hi).
  apply rbind_ok in Hi as (A_i & HAi & Hi).
  assert (HA : Forall (hyp_wf (context_size m) (blank_id m)
                         (getattr_unk_id m) t) A_i).
  { apply index_ok, nth_error_In in HAi. rewrite EA in HAi.
    apply in_map_iff in HAi as (d & <- & Hd).
    destruct (Forall_firstn_skipn _ bs _ HB) as [HB1 _].
    rewrite Forall_forall in HB1. exact (HB1 _ Hd). }
  assert (Hwf : Forall (hyp_wf (context_size m) (blank_id m)
                          (getattr_unk_id m) (S t)) hs).
  { apply Forall_forall. intros h Hh.
    destruct (rmapM_ok_In _ _ _ Hi _ Hh) as (c & _ & Hc).
    eapply beam_new_hyp_wf; eauto. }
  destruct (merge_events_wf O m (S t) hs [] old new) as (Hk & Ho & Hn); auto.
  - intros k h Hl. discriminate.
  - constructor.
  - pose proof (key_inj _ _ Hk) as Hys.
    destruct Ho as (O1 & O2 & _), Hn as (N1 & N2 & _).
    rewrite Hys in O2.
    repeat split; auto; lia.
Qed.

(** A network with three tokens and context size 2: after the context
    [0, 0] the distribution is (0.5, 0.3, 0.2), after [0, 1] it is
    (0.7, 0.2, 0.1), after any other context (0.6, 0.3, 0.1). *)
Definition collision_table (f : nat) (context : list Z) : list Q :=
  match context with
  | [0; 0]%Z => [5 # 10; 3 # 10; 2 # 10]%Q
  | [0; 1]%Z => [7 # 10; 2 # 10; 1 # 10]%Q
  | _ => [6 # 10; 3 # 10; 1 # 10]%Q
  end.

Definition collision_model : Model nat nat (list Z) (list Q) :=
  table_model 0 None 2 3 collision_table.

(** One utterance of two frames, beam 3.  After the first frame the set
    holds no token (0.5), the token 1 (0.3) and the token 2 (0.2). *)
Definition collision_state : BeamState LogQ :=
  {| b_offset := 1;
     b_B := [[("0_0"%string,
               @Build_Hypothesis_ LogQ [0; 0]%Z [] (5 # 10)%Q []);
              ("0_0_1"%string,
               @Build_Hypothesis_ LogQ [0; 0; 1]%Z [3 # 10]%Q (3 # 10)%Q [0]);
              ("0_0_2"%string,
               @Build_Hypothesis_ LogQ [0; 0; 2]%Z [2 # 10]%Q (2 # 10)%Q [0])]];
     b_finalized_B := [] |}.

(** At the second frame the three best candidates are: no token again
    (0.25), the token 1 of frame 0 followed by blank (0.21), and the token 1
    emitted at frame 1 (0.15).  The last two have the same token sequence. *)
Definition collision_stored : Hypothesis_ LogQ :=
  @Build_Hypothesis_ LogQ [0; 0; 1]%Z [3 # 10]%Q (21 # 100)%Q [0].

Definition collision_added : Hypothesis_ LogQ :=
  @Build_Hypothesis_ LogQ [0; 0; 1]%Z [15 # 100]%Q (15 # 100)%Q [1].

Definition collision_new_hyps : list (Hypothesis_ LogQ) :=
  [@Build_Hypothesis_ LogQ [0; 0]%Z [] (25 # 100)%Q [];
   collision_stored; collision_added].

Definition collision_packed : PackedSequence nat :=
  {| data := [0; 1]; batch_sizes := [1; 1];
     sorted_indices := [0]; unsorted_indices := [0] |}.

Example collision_pack :
  pack_padded_sequence (sort_descending TorchQ_first) [fun t : nat => t] [2%Z]
  = Ok collision_packed.
Proof. reflexivity. Qed.

Example collision_reachable :
  beam_reachable LogQ TorchQ_first collision_model 3 tt [0; 1] [1; 1] 1 1
    collision_state.
Proof.
  eapply reach_step with (bs := 1);
    [apply reach_start | reflexivity | reflexivity].
Qed.

Example collision_step :
  beam_step_new_hyps LogQ TorchQ_first collision_model 3 tt [0; 1] 1 1
    collision_state = Ok [collision_new_hyps].
Proof. reflexivity. Qed.

Example collision_merge :
  merge_events [] collision_new_hyps = [(collision_stored, collision_added)].
Proof. reflexivity. Qed.

Lemma C2_merged_hypotheses_share_tokens_witness :
  key collision_stored = key collision_added
  /\ ys collision_stored = ys collision_added
  /\ length (timestamp collision_stored) = length (timestamp collision_added)
  /\ length (hyp_scores collision_stored)
     = length (hyp_scores collision_added)
  /\ ys (merge_into collision_stored collision_added) = ys collision_stored
  /\ timestamp (merge_into collision_stored collision_added)
     = timestamp collision_stored
  /\ hyp_scores (merge_into collision_stored collision_added)
     = hyp_scores collision_stored.
Proof.
  apply (C2_merged_hypotheses_share_tokens LogQ _ _ _ _ _
           TorchQ_first collision_model 3 tt [0; 1] [1; 1] 1 1 1
           collision_state [collision_new_hyps] collision_new_hyps).
  - exact collision_reachable.
  - exact collision_step.
  - left. reflexivity.
  - rewrite collision_merge. left. reflexivity.
Defined.

(** C2 (as stated) fails: in the state after the first frame, the candidate
    "token 1 of frame 0, then blank" is stored with the timestamps [0], and
    the candidate "token 1 at frame 1" is merged into it with the timestamps
    [1]; their scores differ as well. *)
Lemma C2_counterexample :
  ~ merged_hypotheses_agree TorchQ_first collision_model
      [fun t => t] [2%Z] 3 tt.
Proof.
  intros H.
  destruct (H collision_packed collision_pack 1 collision_state 1
              [collision_new_hyps] collision_new_hyps
              collision_stored collision_added) as [Hts _].
  - exact collision_reachable.
  - reflexivity.
  - exact collision_step.
  - left. reflexivity.
  - rewrite collision_merge. left. reflexivity.
  - inversion Hts.
Qed.

(** ** Flattening and slicing *)

Lemma wrap32_small z : (- 2 ^ 31 <= z < 2 ^ 31)%Z -> wrap32 z = z.
Proof.
  intros H. unfold wrap32.
  change (2 ^ 32)%Z with 4294967296%Z.
  change (2 ^ 31)%Z with 2147483648%Z in *.
  rewrite Z.mod_small by lia. lia.
Qed.

Lemma wrap32_range z : (- 2 ^ 31 <= wrap32 z < 2 ^ 31)%Z.
Proof.
  unfold wrap32.
  change (2 ^ 32)%Z with 4294967296%Z.
  change (2 ^ 31)%Z with 2147483648%Z.
  pose proof (Z.mod_pos_bound (z + 2147483648) 4294967296) as H. lia.
Qed.

Lemma cumsum_from_length l : forall acc, length (cumsum_from acc l) = length l.
Proof.
  induction l as [| x l IH]; intros acc; simpl; auto.
Qed.

Lemma cumsum_step (acc : Z) (n : nat) :
  (0 <= acc)%Z -> (acc + Z.of_nat n < 2 ^ 31)%Z ->
  wrap32 (acc + wrap32 (Z.of_nat n)) = (acc + Z.of_nat n)%Z.
Proof.
  intros Ha Hb. change (2 ^ 31)%Z with 2147483648%Z in Hb.
  rewrite (wrap32_small (Z.of_nat n))
    by (change (2 ^ 31)%Z with 2147483648%Z; lia).
  apply wrap32_small. change (2 ^ 31)%Z with 2147483648%Z. lia.
Qed.

(** As long as the total stays below [2^31], the running sums are exact. *)
Lemma nth_error_cumsum (ns : list nat) : forall (acc : Z) i,
  i <= length ns ->
  (0 <= acc)%Z ->
  (acc + Z.of_nat (list_sum ns) < 2 ^ 31)%Z ->
  nth_error (acc :: cumsum_from acc (map Z.of_nat ns)) i
  = Some (acc + Z.of_nat (list_sum (firstn i ns)))%Z.
Proof.
  induction ns as [| x ns IH]; intros acc i Hi Ha Hb; simpl in Hi.
  - replace i with 0 by lia. simpl. f_equal. lia.
  - destruct i as [| i].
    + simpl. f_equal. lia.
    + simpl in Hb. cbn [map cumsum_from nth_error].
      rewrite cumsum_step by lia.
      change (nth_error ((acc + Z.of_nat x)%Z
                         :: cumsum_from (acc + Z.of_nat x) (map Z.of_nat ns)) i
              = Some (acc + Z.of_nat (list_sum (firstn (S i) (x :: ns))))%Z).
      rewrite IH by lia. simpl. f_equal. lia.
Qed.

Lemma slice_app_block {A} (pre blk post : list A) :
  slice (pre ++ blk ++ post) (length pre) (length pre + length blk) = blk.
Proof.
  unfold slice. rewrite skipn_app, skipn_all, Nat.sub_diag. simpl.
  replace (length pre + length blk - length pre) with (length blk) by lia.
  rewrite firstn_app, firstn_all, Nat.sub_diag. simpl. apply app_nil_r.
Qed.

Lemma slice_concat_block {A} (blocks : list (list A)) : forall i blk,
  nth_error blocks i = Some blk ->
  slice (concat blocks)
        (list_sum (map (@length A) (firstn i blocks)))
        (list_sum (map (@length A) (firstn (S i) blocks))) = blk.
Proof.
  intros i blk Hi.
  apply nth_error_split in Hi as (pre & post & -> & <-).
  assert (F1 : firstn (length pre) (pre ++ blk :: post) = pre).
  { rewrite firstn_app, firstn_all, Nat.sub_diag. simpl. apply app_nil_r. }
  assert (F2 : firstn (S (length pre)) (pre ++ blk :: post) = pre ++ [blk]).
  { replace (S (length pre)) with (length pre + 1) by lia.
    rewrite firstn_app_2. reflexivity. }
  rewrite F1, F2, concat_app. simpl.
  rewrite map_app, list_sum_app, <- !length_concat. simpl.
  rewrite app_nil_r. apply slice_app_block.
Qed.

Lemma row_ids_from_cumsum (ns : list nat) : forall r (acc : Z),
  (0 <= acc)%Z ->
  (acc + Z.of_nat (list_sum ns) < 2 ^ 31)%Z ->
  row_splits_to_row_ids_from r (acc :: cumsum_from acc (map Z.of_nat ns))
  = concat (map (fun ia => repeat (fst ia) (snd ia)) (enumerate_from r ns)).
Proof.
  induction ns as [| n ns IH]; intros r acc Ha Hb; auto.
  simpl in Hb. cbn [map cumsum_from enumerate_from concat fst snd].
  rewrite cumsum_step by lia.
  rewrite <- (IH (S r) (acc + Z.of_nat n)%Z) by lia.
  cbn [row_splits_to_row_ids_from]. f_equal. f_equal. lia.
Qed.

Lemma rmapM_app {A B} (f : A -> result B) l1 l2 :
  rmapM f (l1 ++ l2)
  = rbind (rmapM f l1) (fun a => rbind (rmapM f l2) (fun b => Ok (a ++ b))).
Proof.
  induction l1 as [| x l1 IH]; simpl.
  - destruct (rmapM f l2); reflexivity.
  - destruct (f x) as [y | e]; simpl; auto. rewrite IH.
    destruct (rmapM f l1); simpl; auto.
    destruct (rmapM f l2); simpl; auto.
Qed.

Lemma rmapM_index_repeat {A} (cur : list A) i n c :
  rmapM (index cur) (repeat i n) = Ok c ->
  n = 0 /\ c = [] \/ exists e, nth_error cur i = Some e /\ c = repeat e n.
Proof.
  revert c. induction n as [| n IH]; intros c H; simpl in H.
  - inversion H. auto.
  - right. apply rbind_ok in H as (e & He & H).
    apply rbind_ok in H as (c' & Hc' & H). inversion H; subst c.
    apply index_ok in He. exists e. split; auto. simpl. f_equal.
    destruct (IH _ Hc') as [[-> ->] | (e' & He' & ->)]; auto.
    congruence.
Qed.

Lemma combine_app_same {A B} (l1 l2 : list A) : forall (m1 m2 : list B),
  length l1 = length m1 ->
  combine (l1 ++ l2) (m1 ++ m2) = combine l1 m1 ++ combine l2 m2.
Proof.
  induction l1 as [| x l1 IH]; intros [| y m1] m2 H; simpl in *;
    try discriminate; auto.
  f_equal. apply IH. lia.
Qed.

(** The frames that [index_select] pairs with the flattened hypotheses. *)
Lemma index_select_rows {E H Y} (cur : list E) (F : E * H -> Y) A :
  forall r cur',
    rmapM (index cur)
      (concat (map (fun ia => repeat (fst ia) (snd ia))
                   (enumerate_from r (map (@length H) A)))) = Ok cur' ->
    length cur' = length (concat A)
    /\ map F (combine cur' (concat A))
       = concat (map (fun ia =>
                        match nth_error cur (fst ia) with
                        | Some e => map (fun h => F (e, h)) (snd ia)
                        | None => []
                        end)
                     (enumerate_from r A)).
Proof.
  induction A as [| A0 A IH]; intros r cur' Hc; simpl in *.
  - inversion Hc. auto.
  - rewrite rmapM_app in Hc.
    apply rbind_ok in Hc as (c0 & Hc0 & Hc).
    apply rbind_ok in Hc as (c1 & Hc1 & Hc). inversion Hc; subst cur'.
    destruct (IH _ _ Hc1) as [L1 E1].
    assert (L0 : length c0 = length A0).
    { apply rmapM_ok_length in Hc0. now rewrite repeat_length in Hc0. }
    split; [rewrite !length_app; lia |].
    rewrite combine_app_same by exact L0. rewrite map_app, E1. f_equal.
    destruct (rmapM_index_repeat _ _ _ _ Hc0) as [[Hn ->] | (e & He & ->)].
    + destruct A0; [| discriminate]. simpl. now destruct (nth_error cur r).
    + rewrite He. clear. induction A0 as [| h A0 IH0]; simpl; auto.
      now rewrite IH0.
Qed.

Lemma concat_map_concat {A B} (f : A -> list B) (ls : list (list A)) :
  concat (map f (concat ls)) = concat (map (fun l => concat (map f l)) ls).
Proof.
  induction ls as [| l ls IH]; simpl; auto.
  now rewrite map_app, concat_app, IH.
Qed.

Lemma enumerate_from_map {A B} (f : A -> B) l : forall r,
  enumerate_from r (map f l)
  = map (fun ia => (fst ia, f (snd ia))) (enumerate_from r l).
Proof.
  induction l as [| x l IH]; intros r; simpl; auto. now rewrite IH.
Qed.

Lemma nth_error_enumerate_from {A} (l : list A) : forall r i x,
  nth_error l i = Some x ->
  nth_error (enumerate_from r l) i = Some (r + i, x).
Proof.
  induction l as [| y l IH]; intros r [| i] x H; simpl in *; try discriminate.
  - inversion H. now rewrite Nat.add_0_r.
  - rewrite (IH _ _ _ H). f_equal. f_equal. lia.
Qed.

Lemma firstn_enumerate_from {A} (l : list A) : forall r n,
  firstn n (enumerate_from r l) = enumerate_from r (firstn n l).
Proof.
  induction l as [| y l IH]; intros r [| n]; simpl; auto. now rewrite IH.
Qed.

(* ================================================================= *)
(** * Part III: further operations of [HypothesisList] and of the decoders *)
(* ================================================================= *)

(** ** Keys and membership *)

(** A hypothesis's key determines its token sequence and conversely. *)
Theorem key_eq_iff_same_tokens :
  forall (O : ScoreOps) (h1 h2 : Hypothesis_ O),
    key h1 = key h2 <-> ys h1 = ys h2.
Proof.
  intros O h1 h2. split.
  - apply key_inj.
  - unfold key. now intros ->.
Qed.

Section SetFacts.
Variable O : ScoreOps.
Implicit Types (d : HypothesisList O) (h hyp : Hypothesis_ O).

Lemma lookup_none_iff k d : lookup k d = None <-> ~ In k (map fst d).
Proof.
  induction d as [| [k' h] d IH]; simpl.
  - split; auto.
  - destruct (String.eqb_spec k k') as [-> | Hne]; split.
    + discriminate.
    + intros H. exfalso. apply H. auto.
    + intros H [E | Hin]; [congruence | now apply IH].
    + intros H. apply IH. intros Hin. apply H. auto.
Qed.

Lemma contains_iff k d : contains k d = true <-> In k (map fst d).
Proof.
  unfold contains. destruct (lookup k d) as [h |] eqn:E; split; intros H;
    auto; try discriminate.
  - destruct (in_dec string_dec k (map fst d)) as [Hin | Hn]; auto.
    apply lookup_none_iff in Hn. congruence.
  - apply lookup_none_iff in E. contradiction.
Qed.

Lemma NoDup_snoc {A} (l : list A) x :
  NoDup l -> ~ In x l -> NoDup (l ++ [x]).
Proof.
  induction 1 as [| y l Hy Hl IH]; intros Hx; simpl.
  - constructor; [auto | constructor].
  - constructor.
    + intros Hin. apply in_app_or in Hin as [Hin | [-> | []]]; auto.
      apply Hx. now left.
    + apply IH. intros Hin. apply Hx. now right.
Qed.

Lemma keys_add d hyp :
  map fst (add d hyp)
  = if contains (key hyp) d then map fst d else map fst d ++ [key hyp].
Proof.
  unfold add. destruct (contains (key hyp) d).
  - apply keys_merge_at.
  - now rewrite map_app.
Qed.

End SetFacts.

(** [HypothesisList.add] never creates a duplicate key: a set with unique
    keys keeps unique keys, contains the key of the added hypothesis
    afterwards, and grows by one entry exactly when that key was new. *)
Theorem add_keeps_keys_unique :
  forall (O : ScoreOps) (d : HypothesisList O) (hyp : Hypothesis_ O),
    NoDup (map fst d) ->
    NoDup (map fst (add d hyp))
    /\ contains (key hyp) (add d hyp) = true
    /\ hl_len (add d hyp)
       = if contains (key hyp) d then hl_len d else S (hl_len d).
Proof.
  intros O d hyp Hnd. split; [| split].
  - rewrite keys_add. destruct (contains (key hyp) d) eqn:E; auto.
    apply NoDup_snoc; auto.
    intros Hin. apply contains_iff in Hin. congruence.
  - unfold contains. now rewrite lookup_add_same.
  - unfold hl_len. rewrite <- !(length_map fst), keys_add.
    destruct (contains (key hyp) d); auto.
    rewrite length_app. simpl. lia.
Qed.

Lemma add_keeps_keys_unique_witness :
  let a := @Build_Hypothesis_ LogQ [0; 0; 1]%Z [6 # 10]%Q (6 # 10)%Q [0] in
  let b := @Build_Hypothesis_ LogQ [0; 0; 1]%Z [3 # 10]%Q (3 # 10)%Q [1] in
  NoDup (map fst (add [("0_0_1"%string, a)] b))
  /\ contains (key b) (add [("0_0_1"%string, a)] b) = true
  /\ hl_len (add [("0_0_1"%string, a)] b) = 1.
Proof.
  intros a b.
  apply (add_keeps_keys_unique LogQ [("0_0_1"%string, a)] b).
  simpl. constructor; [intros [] | constructor].
Defined.

(** ** HypothesisList.remove *)

Section RemoveFacts.
Variable O : ScoreOps.
Implicit Types (d : HypothesisList O) (h hyp : Hypothesis_ O).

Lemma lookup_filter_key k0 d k :
  lookup k (filter (fun e => negb (String.eqb k0 (fst e))) d)
  = if String.eqb k k0 then None else lookup k d.
Proof.
  induction d as [| [k' h] d IH]; simpl.
  - now destruct (String.eqb k k0).
  - destruct (String.eqb k0 k') eqn:E0; simpl.
    + apply String.eqb_eq in E0. subst k'. rewrite IH.
      now destruct (String.eqb k k0).
    + rewrite IH. destruct (String.eqb k k0) eqn:E1; auto.
      apply String.eqb_eq in E1. subst k. now rewrite E0.
Qed.

Lemma filter_key_absent k0 d :
  ~ In k0 (map fst d) ->
  filter (fun e => negb (String.eqb k0 (fst e))) d = d.
Proof.
  induction d as [| [k1 h1] d IH]; simpl; intros Hn; auto.
  destruct (String.eqb k0 k1) eqn:E; simpl.
  - apply String.eqb_eq in E. exfalso. apply Hn. now left.
  - f_equal. apply IH. intros Hin. apply Hn. now right.
Qed.

Lemma length_filter_key k0 d :
  NoDup (map fst d) -> In k0 (map fst d) ->
  S (length (filter (fun e => negb (String.eqb k0 (fst e))) d)) = length d.
Proof.
  induction d as [| [k' h] d IH]; simpl; intros Hnd Hin; [destruct Hin |].
  inversion Hnd as [| ? ? Hk' Hnd']; subst.
  destruct (String.eqb k0 k') eqn:E; simpl.
  - apply String.eqb_eq in E. subst k'.
    now rewrite filter_key_absent.
  - f_equal. apply IH; auto. destruct Hin as [E' | Hin]; auto.
    subst k'. now rewrite String.eqb_refl in E.
Qed.

End RemoveFacts.

(** [HypothesisList.remove] goes by the key of the given hypothesis: when the
    key is not in the set the assertion fails; otherwise exactly the entry
    stored under that key is deleted, whatever its log-prob, scores and
    timestamps are, the other entries are untouched and the set shrinks by
    one entry. *)
Theorem remove_deletes_the_entry_of_the_key :
  forall (O : ScoreOps) (d : HypothesisList O) (hyp : Hypothesis_ O),
    (contains (key hyp) d = false -> remove d hyp = Raise AssertionError)
    /\ (forall d',
           remove d hyp = Ok d' ->
           contains (key hyp) d = true
           /\ contains (key hyp) d' = false
           /\ (forall k, k <> key hyp -> lookup k d' = lookup k d)
           /\ (NoDup (map fst d) -> S (hl_len d') = hl_len d)).
Proof.
  intros O d hyp. unfold remove. split.
  - now intros ->.
  - intros d' H. destruct (contains (key hyp) d) eqn:E; [| discriminate].
    inversion H; subst d'; clear H.
    split; [reflexivity | split; [| split]].
    + unfold contains. now rewrite lookup_filter_key, String.eqb_refl.
    + intros k Hk. rewrite lookup_filter_key.
      destruct (String.eqb_spec k (key hyp)); [contradiction | reflexivity].
    + intros Hnd. apply length_filter_key; auto. now apply contains_iff.
Qed.

Lemma remove_deletes_the_entry_of_the_key_witness :
  let a := @Build_Hypothesis_ LogQ [0; 0; 1]%Z [6 # 10]%Q (6 # 10)%Q [0] in
  let b := @Build_Hypothesis_ LogQ [0; 0]%Z [] (1 # 10)%Q [] in
  let same_key := @Build_Hypothesis_ LogQ [0; 0; 1]%Z [3 # 10]%Q (3 # 10)%Q [1] in
  let other := @Build_Hypothesis_ LogQ [0; 0; 2]%Z [3 # 10]%Q (3 # 10)%Q [0] in
  let d := [("0_0_1"%string, a); ("0_0"%string, b)] in
  remove d other = Raise AssertionError
  /\ remove d same_key = Ok [("0_0"%string, b)]
  /\ S (hl_len [("0_0"%string, b)]) = hl_len d.
Proof.
  intros a b same_key other d.
  destruct (remove_deletes_the_entry_of_the_key LogQ d other) as [H1 _].
  destruct (remove_deletes_the_entry_of_the_key LogQ d same_key) as [_ H2].
  split; [apply H1; reflexivity | split; [reflexivity |]].
  destruct (H2 [("0_0"%string, b)] eq_refl) as (_ & _ & _ & H3).
  apply H3. simpl.
  constructor; [intros [E | []]; discriminate E |].
  constructor; [intros [] | constructor].
Defined.

(** ** HypothesisList.filter *)

(** The entries of the dict are stored under the key of their value
    ("Its key is its [value.key]"). *)
Definition self_keyed {O} (d : HypothesisList O) : Prop :=
  Forall (fun e => fst e = key (snd e)) d.

Lemma fold_filter_add {O} (thr : score O) (l : HypothesisList O) :
  forall ans,
    self_keyed l -> NoDup (map fst l) ->
    (forall k, In k (map fst ans) -> ~ In k (map fst l)) ->
    fold_left
      (fun ans e => if s_gtb O (log_prob (snd e)) thr
                    then add ans (snd e) else ans)
      l ans
    = ans ++ filter (fun e => s_gtb O (log_prob (snd e)) thr) l.
Proof.
  induction l as [| [k h] l IH]; intros ans Hk Hnd Hans; simpl.
  - now rewrite app_nil_r.
  - inversion Hk as [| ? ? Hkh Hk']. simpl in Hkh.
    inversion Hnd as [| ? ? Hnk Hnd']. subst.
    destruct (s_gtb O (log_prob h) thr).
    + assert (E : add ans h = ans ++ [(key h, h)]).
      { apply add_absent. apply lookup_none_iff. intros Hin.
        apply (Hans _ Hin). now left. }
      rewrite E, IH; auto.
      * now rewrite <- app_assoc.
      * intros k0 Hin. rewrite map_app in Hin.
        apply in_app_or in Hin as [Hin | [<- | []]].
        -- intros Hl. apply (Hans _ Hin). now right.
        -- exact Hnk.
    + apply IH; auto.
      intros k0 Hin Hl. apply (Hans _ Hin). now right.
Qed.

(** [HypothesisList.filter] returns, in their order, exactly the entries
    whose log-prob is strictly greater than the threshold (an entry whose
    log-prob equals the threshold is dropped); no two of them are merged. *)
Theorem filter_keeps_entries_above_threshold :
  forall (O : ScoreOps) (d : HypothesisList O) (threshold : score O),
    self_keyed d -> NoDup (map fst d) ->
    hl_filter d threshold
    = filter (fun e => s_gtb O (log_prob (snd e)) threshold) d.
Proof.
  intros O d thr Hk Hnd. unfold hl_filter.
  rewrite fold_filter_add; auto.
Qed.

Lemma filter_keeps_entries_above_threshold_witness :
  let a := @Build_Hypothesis_ LogQ [0; 0; 1]%Z [6 # 10]%Q (6 # 10)%Q [0] in
  let b := @Build_Hypothesis_ LogQ [0; 0]%Z [] (1 # 10)%Q [] in
  let c := @Build_Hypothesis_ LogQ [0; 0; 2]%Z [3 # 10]%Q (3 # 10)%Q [0] in
  hl_filter [(key a, a); (key b, b); (key c, c)] (3 # 10)%Q = [(key a, a)].
Proof.
  intros a b c.
  rewrite (filter_keeps_entries_above_threshold LogQ).
  - reflexivity.
  - repeat constructor.
  - simpl. constructor; [intros [E | [E | []]]; discriminate E |].
    constructor; [intros [E | []]; discriminate E |].
    constructor; [intros [] | constructor].
Defined.

(** ** HypothesisList.topk *)

Section TopkMethod.
Variable O : ScoreOps.

(** Insertion for [sorted(hyps, key=lambda h: h[1].log_prob, reverse=True)].
    Python's sort is stable, also with [reverse=True]: the result is in
    decreasing order of the key and entries with equal keys keep their
    original order.  The sort compares keys with [<]; [a < b] is [b > a]. *)
Fixpoint insert_by_log_prob (x : string * Hypothesis_ O)
  (l : list (string * Hypothesis_ O)) : list (string * Hypothesis_ O) :=
  match l with
  | [] => [x]
  | y :: l' =>
      if s_gtb O (log_prob (snd y)) (log_prob (snd x))
      then y :: insert_by_log_prob x l'
      else x :: l
  end.

Definition sorted_by_log_prob_reverse (items : list (string * Hypothesis_ O))
  : list (string * Hypothesis_ O) :=
  fold_right insert_by_log_prob [] items.

(** [d[k] = v]: an existing key keeps its position. *)
Fixpoint dict_set (k : string) (v : Hypothesis_ O) (d : HypothesisList O)
  : HypothesisList O :=
  match d with
  | [] => [(k, v)]
  | (k', v') :: d' =>
      if String.eqb k k' then (k', v) :: d' else (k', v') :: dict_set k v d'
  end.

(** [dict(items)] *)
Definition dict_of_items (items : list (string * Hypothesis_ O))
  : HypothesisList O :=
  fold_left (fun d kv => dict_set (fst kv) (snd kv) d) items [].

(** [HypothesisList.topk], for [k >= 0]. *)
Definition hl_topk (d : HypothesisList O) (k : nat) : HypothesisList O :=
  dict_of_items (firstn k (sorted_by_log_prob_reverse d)).

(** [gt] is asymmetric and negatively transitive on [keys]. *)
Definition weak_order_ok {Kt} (gt : Kt -> Kt -> bool) (keys : list Kt) : bool :=
  forallb (fun a =>
    forallb (fun b =>
      implb (gt a b) (negb (gt b a))
      && forallb (fun c =>
           implb (negb (gt a b) && negb (gt b c)) (negb (gt a c)))
         keys) keys) keys.

Lemma weak_order_ok_laws {Kt} (gt : Kt -> Kt -> bool) keys :
  weak_order_ok gt keys = true ->
  forall a b, In a keys -> In b keys ->
    (gt a b = true -> gt b a = false)
    /\ forall c, In c keys -> gt a b = false -> gt b c = false -> gt a c = false.
Proof.
  unfold weak_order_ok. intros H a b Ha Hb.
  rewrite forallb_forall in H. specialize (H a Ha).
  rewrite forallb_forall in H. specialize (H b Hb).
  apply andb_prop in H as [H1 H2]. split.
  - intros E. rewrite E in H1. simpl in H1. now apply negb_true_iff in H1.
  - intros c Hc E1 E2. rewrite forallb_forall in H2. specialize (H2 c Hc).
    rewrite E1, E2 in H2. simpl in H2. now apply negb_true_iff in H2.
Qed.

(** [b] is not more probable than [a]. *)
Definition not_above (a b : string * Hypothesis_ O) : Prop :=
  s_gtb O (log_prob (snd b)) (log_prob (snd a)) = false.

Lemma insert_by_log_prob_perm x l :
  Permutation (insert_by_log_prob x l) (x :: l).
Proof.
  induction l as [| y l IH]; simpl; auto.
  destruct (s_gtb O _ _); auto.
  rewrite IH. apply perm_swap.
Qed.

Lemma sorted_by_log_prob_reverse_perm l :
  Permutation (sorted_by_log_prob_reverse l) l.
Proof.
  induction l as [| x l IH]; simpl; auto.
  rewrite insert_by_log_prob_perm. now constructor.
Qed.

Lemma insert_by_log_prob_sorted (all : list (string * Hypothesis_ O)) x l :
  weak_order_ok (s_gtb O) (map (fun e => log_prob (snd e)) all) = true ->
  In x all -> incl l all ->
  StronglySorted not_above l ->
  StronglySorted not_above (insert_by_log_prob x l).
Proof.
  intros Hok Hx Hl Hs.
  pose proof (weak_order_ok_laws _ _ Hok) as Laws.
  assert (Hk : forall e, In e all ->
                 In (log_prob (snd e)) (map (fun e => log_prob (snd e)) all)).
  { intros e He. now apply (in_map (fun e => log_prob (snd e))). }
  induction Hs as [| y l Hs IH Hy]; simpl.
  - repeat constructor.
  - assert (Iy : In y all) by (apply Hl; now left).
    assert (Hl' : incl l all) by (intros z Hz; apply Hl; now right).
    destruct (s_gtb O (log_prob (snd y)) (log_prob (snd x))) eqn:E.
    + constructor; [now apply IH |].
      apply Forall_forall. intros z Hz.
      apply (Permutation_in _ (insert_by_log_prob_perm x l)) in Hz.
      destruct Hz as [<- | Hz].
      * unfold not_above.
        destruct (Laws _ _ (Hk _ Iy) (Hk _ Hx)) as [Ha _]. auto.
      * rewrite Forall_forall in Hy. auto.
    + constructor; [now constructor |].
      constructor; [exact E |].
      apply Forall_forall. intros z Hz.
      rewrite Forall_forall in Hy. specialize (Hy _ Hz).
      unfold not_above in *.
      destruct (Laws _ _ (Hk _ (Hl' _ Hz)) (Hk _ Iy)) as [_ Hn].
      apply (Hn _ (Hk _ Hx)); auto.
Qed.

Lemma sorted_by_log_prob_reverse_sorted all l :
  weak_order_ok (s_gtb O) (map (fun e => log_prob (snd e)) all) = true ->
  incl l all ->
  StronglySorted not_above (sorted_by_log_prob_reverse l).
Proof.
  intros Hok. induction l as [| x l IH]; intros Hl; simpl.
  - constructor.
  - apply insert_by_log_prob_sorted with (all := all); auto.
    + apply Hl. now left.
    + intros z Hz.
      apply (Permutation_in _ (sorted_by_log_prob_reverse_perm l)) in Hz.
      apply Hl. now right.
    + apply IH. intros z Hz. apply Hl. now right.
Qed.

Lemma dict_set_new k v (d : HypothesisList O) :
  ~ In k (map fst d) -> dict_set k v d = d ++ [(k, v)].
Proof.
  induction d as [| [k' v'] d IH]; simpl; intros Hn; auto.
  destruct (String.eqb k k') eqn:E.
  - apply String.eqb_eq in E. exfalso. apply Hn. now left.
  - f_equal. apply IH. intros Hin. apply Hn. now right.
Qed.

Lemma fold_dict_set_unique (l : list (string * Hypothesis_ O)) : forall acc,
  NoDup (map fst (acc ++ l)) ->
  fold_left (fun d kv => dict_set (fst kv) (snd kv) d) l acc = acc ++ l.
Proof.
  induction l as [| [k v] l IH]; intros acc Hnd; simpl.
  - now rewrite app_nil_r.
  - rewrite dict_set_new.
    + rewrite IH; rewrite <- app_assoc; auto.
    + rewrite map_app in Hnd. simpl in Hnd.
      apply NoDup_remove_2 in Hnd. intros Hin. apply Hnd.
      apply in_or_app. now left.
Qed.

Lemma dict_of_items_unique l :
  NoDup (map fst l) -> dict_of_items l = l.
Proof. intros H. unfold dict_of_items. now rewrite fold_dict_set_unique. Qed.

Lemma strongly_sorted_app_inv {A} (R : A -> A -> Prop) l1 l2 :
  StronglySorted R (l1 ++ l2) ->
  StronglySorted R l1
  /\ forall a b, In a l1 -> In b l2 -> R a b.
Proof.
  induction l1 as [| x l1 IH]; simpl; intros H.
  - split; [constructor | intros a b []].
  - inversion H as [| ? ? Hs Hx]; subst.
    destruct (IH Hs) as [Hs1 Hc].
    apply Forall_app in Hx as [Hx1 Hx2]. split.
    + now constructor.
    + intros a b [<- | Ha] Hb; auto.
      rewrite Forall_forall in Hx2. auto.
Qed.

End TopkMethod.

Arguments not_above {O} a b.
Arguments insert_by_log_prob {O} x l.
Arguments sorted_by_log_prob_reverse {O} items.
Arguments dict_set {O} k v d.
Arguments dict_of_items {O} items.
Arguments hl_topk {O} d k.

(** [HypothesisList.topk(k)] keeps [min(k, len)] entries of the set, in
    decreasing order of log-prob (entries of equal log-prob in their
    insertion order); no entry that it drops is more probable than an entry
    that it keeps. *)
Theorem topk_keeps_the_most_probable :
  forall (O : ScoreOps) (d : HypothesisList O) (k : nat),
    NoDup (map fst d) ->
    weak_order_ok (s_gtb O) (map (fun e => log_prob (snd e)) d) = true ->
    hl_len (hl_topk d k) = Nat.min k (hl_len d)
    /\ incl (hl_topk d k) d
    /\ NoDup (map fst (hl_topk d k))
    /\ StronglySorted not_above (hl_topk d k)
    /\ (forall e e', In e (hl_topk d k) -> In e' d -> ~ In e' (hl_topk d k) ->
                     not_above e e').
Proof.
  intros O d k Hnd Hok.
  pose proof (sorted_by_log_prob_reverse_perm O d) as Hp.
  pose proof (sorted_by_log_prob_reverse_sorted O d d Hok (incl_refl d)) as Hs.
  assert (Hnd' : NoDup (map fst (sorted_by_log_prob_reverse d))).
  { eapply Permutation_NoDup; [| exact Hnd].
    apply Permutation_map. now symmetry. }
  set (s := sorted_by_log_prob_reverse d) in *.
  assert (Hnk : NoDup (map fst (firstn k s))).
  { rewrite <- (firstn_skipn k s), map_app in Hnd'.
    now apply NoDup_app_remove_r in Hnd'. }
  unfold hl_topk. fold s. rewrite (dict_of_items_unique O _ Hnk).
  rewrite <- (firstn_skipn k s) in Hs.
  apply strongly_sorted_app_inv in Hs as [Hs1 Hs2].
  split; [| split; [| split; [| split]]]; auto.
  - unfold hl_len. rewrite length_firstn. f_equal.
    now apply Permutation_length.
  - intros e He. apply (Permutation_in _ Hp).
    rewrite <- (firstn_skipn k s). apply in_or_app. now left.
  - intros e e' He He' Hn. apply Hs2; auto.
    apply (Permutation_in _ (Permutation_sym Hp)) in He'.
    rewrite <- (firstn_skipn k s) in He'.
    apply in_app_or in He' as [H | H]; [contradiction | exact H].
Qed.

Lemma topk_keeps_the_most_probable_witness :
  let a := @Build_Hypothesis_ LogQ [0; 0; 1]%Z [3 # 10]%Q (3 # 10)%Q [0] in
  let b := @Build_Hypothesis_ LogQ [0; 0]%Z [] (5 # 10)%Q [] in
  let c := @Build_Hypothesis_ LogQ [0; 0; 2]%Z [3 # 10]%Q (3 # 10)%Q [0] in
  let d := [(key a, a); (key b, b); (key c, c)] in
  hl_topk d 2 = [(key b, b); (key a, a)]
  /\ hl_len (hl_topk d 2) = 2
  /\ StronglySorted not_above (hl_topk d 2)
  /\ not_above (key a, a) (key c, c).
Proof.
  intros a b c d.
  destruct (topk_keeps_the_most_probable LogQ d 2)
    as (H1 & H2 & H3 & H4 & H5).
  - simpl. constructor; [intros [E | [E | []]]; discriminate E |].
    constructor; [intros [E | []]; discriminate E |].
    constructor; [intros [] | constructor].
  - reflexivity.
  - split; [reflexivity | split; [exact H1 | split; [exact H4 |]]].
    apply H5.
    + right. left. reflexivity.
    + right. right. left. reflexivity.
    + intros [E | [E | []]]; discriminate E.
Defined.

(** ** HypothesisList.get_most_probable *)

(** [get_most_probable] raises [ValueError] on an empty set and returns a
    hypothesis of the set otherwise: the first one, in insertion order, whose
    [log_prob] (or [log_prob / len(ys)] with [length_norm]) no other one
    exceeds. *)
Theorem get_most_probable_is_first_maximum :
  forall (O : ScoreOps) (d : HypothesisList O) (length_norm : bool),
    (d = [] -> get_most_probable d length_norm = Raise ValueError)
    /\ (d <> [] -> exists h, get_most_probable d length_norm = Ok h)
    /\ (forall h,
           get_most_probable d length_norm = Ok h ->
           In h (values d)
           /\ (length_norm = false ->
               order_ok (s_gtb O) (map (@log_prob O) (values d)) = true ->
               first_maximum (s_gtb O) (@log_prob O) h (values d))
           /\ (length_norm = true ->
               order_ok (q_gtb O) (map norm_key (values d)) = true ->
               first_maximum (q_gtb O) norm_key h (values d))).
Proof.
  intros O d length_norm. split; [| split].
  - intros ->. now destruct length_norm.
  - intros Hne. destruct d as [| e d]; [contradiction |].
    unfold get_most_probable. destruct length_norm; simpl; eauto.
  - intros h H. split; [eapply get_most_probable_In; eauto | split].
    + intros -> Hok. unfold get_most_probable in H.
      now apply py_max_first_maximum.
    + intros -> Hok. unfold get_most_probable in H.
      now apply py_max_first_maximum.
Qed.

Lemma get_most_probable_is_first_maximum_witness :
  get_most_probable selection_set false = Ok selection_short
  /\ first_maximum (s_gtb LogQ) (@log_prob LogQ) selection_short
       (values selection_set)
  /\ get_most_probable (@nil (string * Hypothesis_ LogQ)) true
     = Raise ValueError.
Proof.
  destruct (get_most_probable_is_first_maximum LogQ selection_set false)
    as (_ & _ & H).
  destruct (H selection_short eq_refl) as (_ & H1 & _).
  destruct (get_most_probable_is_first_maximum LogQ [] true) as (H0 & _).
  split; [reflexivity | split; [| exact (H0 eq_refl)]].
  apply H1; reflexivity.
Defined.

(** ** get_hyps_row_splits *)

Lemma list_sum_firstn_succ l : forall i x,
  nth_error l i = Some x ->
  list_sum (firstn (S i) l) = list_sum (firstn i l) + x.
Proof.
  induction l as [| y l IH]; intros [| i] x H; simpl in *; try discriminate.
  - inversion H. lia.
  - rewrite (IH _ _ H). lia.
Qed.

Lemma row_splits_unfold {O} (hyps : list (HypothesisList O)) :
  get_hyps_row_splits hyps
  = 0%Z :: cumsum_from 0 (map Z.of_nat (map (@hl_len O) hyps)).
Proof.
  unfold get_hyps_row_splits. rewrite map_map. reflexivity.
Qed.

Lemma list_sum_hl_len {O} (hyps : list (HypothesisList O)) :
  list_sum (map (@hl_len O) hyps) = length (concat hyps).
Proof. now rewrite length_concat. Qed.

(** The row splits of [get_hyps_row_splits] have one entry more than there
    are sets, and all of them are [int32] values.  As long as the total
    number of hypotheses is below [2^31] they start at 0, consecutive
    entries differ by the size of the set between them
    ([len(hyps[i]) = row_splits[i+1] - row_splits[i]]), and the last entry is
    the total number of hypotheses; beyond that the sums wrap. *)
Theorem row_splits_give_the_set_sizes :
  forall (O : ScoreOps) (hyps : list (HypothesisList O)),
    (Z.of_nat (length (concat hyps)) < 2 ^ 31)%Z ->
    length (get_hyps_row_splits hyps) = S (length hyps)
    /\ Forall (fun r => (- 2 ^ 31 <= r < 2 ^ 31)%Z) (get_hyps_row_splits hyps)
    /\ nth_error (get_hyps_row_splits hyps) 0 = Some 0%Z
    /\ nth_error (get_hyps_row_splits hyps) (length hyps)
       = Some (Z.of_nat (length (concat hyps)))
    /\ forall i d,
         nth_error hyps i = Some d ->
         exists a b,
           nth_error (get_hyps_row_splits hyps) i = Some a
           /\ nth_error (get_hyps_row_splits hyps) (S i) = Some b
           /\ b = (a + Z.of_nat (hl_len d))%Z.
Proof.
  intros O hyps0 Hb.
  assert (Hsum : (0 + Z.of_nat (list_sum (map (@hl_len O) hyps0)) < 2 ^ 31)%Z)
    by (rewrite list_sum_hl_len; lia).
  split; [| split; [| split; [| split]]].
  - rewrite row_splits_unfold. simpl.
    now rewrite cumsum_from_length, !length_map.
  - unfold get_hyps_row_splits.
    generalize (0%Z :: map (fun h => Z.of_nat (hl_len h)) hyps0).
    intros l. generalize 0%Z.
    induction l as [| x l IH]; intros acc; simpl; constructor.
    + apply wrap32_range.
    + apply IH.
  - rewrite row_splits_unfold. reflexivity.
  - rewrite row_splits_unfold.
    rewrite nth_error_cumsum by (rewrite ?length_map; lia).
    rewrite firstn_all2 by (rewrite length_map; lia).
    now rewrite list_sum_hl_len.
  - intros i d Hi.
    assert (Hlt : i < length hyps0) by (apply nth_error_Some; congruence).
    exists (0 + Z.of_nat (list_sum (firstn i (map (@hl_len O) hyps0))))%Z,
           (0 + Z.of_nat (list_sum (firstn (S i) (map (@hl_len O) hyps0))))%Z.
    rewrite row_splits_unfold.
    rewrite !nth_error_cumsum by (rewrite ?length_map; lia).
    split; [reflexivity | split; [reflexivity |]].
    rewrite (list_sum_firstn_succ _ i (hl_len d))
      by now rewrite nth_error_map, Hi.
    lia.
Qed.

Lemma row_splits_give_the_set_sizes_witness :
  get_hyps_row_splits [selection_set; []; [("0_0_1"%string, selection_short)]]
  = [0; 2; 2; 3]%Z
  /\ exists a b,
       nth_error (get_hyps_row_splits
                    [selection_set; []; [("0_0_1"%string, selection_short)]]) 0
       = Some a
       /\ nth_error (get_hyps_row_splits
                       [selection_set; []; [("0_0_1"%string, selection_short)]]) 1
          = Some b
       /\ b = (a + Z.of_nat (hl_len selection_set))%Z.
Proof.
  split; [reflexivity |].
  destruct (row_splits_give_the_set_sizes LogQ
              [selection_set; []; [("0_0_1"%string, selection_short)]])
    as (_ & _ & _ & _ & H).
  - simpl. reflexivity.
  - exact (H 0 selection_set eq_refl).
Defined.

(** ** More on the returned sequences *)

Lemma pack_number_of_steps {frame} sort_desc (input : list (nat -> frame))
  lengths packed :
  pack_padded_sequence sort_desc input lengths = Ok packed ->
  exists l, In l lengths /\ length (batch_sizes packed) = Z.to_nat l.
Proof.
  unfold pack_padded_sequence. intros H.
  apply rbind_ok in H as (sl & Hsl & H).
  apply rbind_ok in H as (si & _ & H).
  destruct (rev sl) as [| shortest rest] eqn:Er; [discriminate |].
  destruct (0 <? shortest)%Z; [| discriminate].
  inversion H; subst packed; clear H. simpl.
  rewrite length_map, length_seq.
  destruct sl as [| l0 sl]; [discriminate |].
  exists l0. split; [| reflexivity].
  destruct (rmapM_ok_In _ _ _ Hsl l0 (or_introl eq_refl)) as (i & _ & Hi).
  apply index_ok in Hi. eapply nth_error_In; eauto.
Qed.


Section MoreReturned.
Context {frame eframe dec logits temperature : Type}.
Variable O : ScoreOps.
Variable K : Torch O logits temperature.
Variable m : Model frame eframe dec logits.





End MoreReturned.

(** Every row of the three lists of a result, with its index. *)
Definition each_row {O} (res : DecodingResults O)
  (P : list nat -> list Z -> list (score O) -> Prop) : Prop :=
  forall i ts hy sc,
    nth_error (timestamps res) i = Some ts ->
    nth_error (hyps res) i = Some hy ->
    nth_error (scores res) i = Some sc ->
    P ts hy sc.

(** Both decoders return one row per utterance of the batch, in each of the
    three lists. *)
Theorem one_result_row_per_utterance :
  forall (O : ScoreOps) (frame eframe dec logits temperature : Type)
         (K : Torch O logits temperature)
         (m : Model frame eframe dec logits)
         (encoder_out : list (nat -> frame)) (encoder_out_lens : list Z),
    (forall res,
       outcome (greedy_search_batch K m encoder_out encoder_out_lens) = Ok res ->
       length (hyps res) = length encoder_out
       /\ length (timestamps res) = length encoder_out
       /\ length (scores res) = length encoder_out)
    /\ (forall beam temp res,
           outcome (modified_beam_search K m encoder_out encoder_out_lens
                      beam temp) = Ok res ->
           length (hyps res) = length encoder_out
           /\ length (timestamps res) = length encoder_out
           /\ length (scores res) = length encoder_out).
Proof.
  intros O frame eframe dec logits temperature K m enc lens. split.
  - intros res H.
    destruct (greedy_result_rows _ _ _ _ _ _ H) as (Lh & Lt & Ls & _). auto.
  - intros beam temp res H.
    destruct (beam_result_rows _ _ _ _ _ _ _ _ H) as (Lh & Lt & Ls & _). auto.
Qed.

Lemma one_result_row_per_utterance_witness :
  length (hyps scenario_greedy_result) = length scenario_batch
  /\ length (hyps scenario_beam_result) = length scenario_batch.
Proof.
  destruct (one_result_row_per_utterance _ _ _ _ _ _
              TorchQ_first scenario_model scenario_batch scenario_lens)
    as [Hg Hb].
  split.
  - apply (Hg _ scenario_greedy_batch).
  - apply (Hb 2 tt _ scenario_beam_batch).
Defined.

(** The tokens that the decoders return are never the blank id nor the
    unknown id (for the greedy search the context size of the network has to
    be at least one: otherwise the initial blank is part of the output). *)
Theorem returned_tokens_are_no_sentinels :
  forall (O : ScoreOps) (frame eframe dec logits temperature : Type)
         (K : Torch O logits temperature)
         (m : Model frame eframe dec logits)
         (encoder_out : list (nat -> frame)) (encoder_out_lens : list Z),
    (1 <= context_size m ->
     forall res,
       outcome (greedy_search_batch K m encoder_out encoder_out_lens) = Ok res ->
       each_row res (fun _ hy _ =>
         Forall (fun v => v <> blank_id m /\ v <> getattr_unk_id m) hy))
    /\ (forall beam temp res,
           outcome (modified_beam_search K m encoder_out encoder_out_lens
                      beam temp) = Ok res ->
           each_row res (fun _ hy _ =>
             Forall (fun v => v <> blank_id m /\ v <> getattr_unk_id m) hy)).
Proof.
  intros O frame eframe dec logits temperature K m enc lens.
  assert (Hs : forall v,
             not_in_sentinels (blank_id m) (getattr_unk_id m) v = true ->
             v <> blank_id m /\ v <> getattr_unk_id m).
  { intros v H. unfold not_in_sentinels in H.
    apply negb_true_iff, orb_false_iff in H as [H1 H2].
    apply Z.eqb_neq in H1. apply Z.eqb_neq in H2. auto. }
  split.
  - intros HC res H i ts hy sc Hits Hihy Hisc.
    destruct (greedy_result_rows _ _ _ _ _ _ H) as (_ & _ & _ & T & Hrows).
    destruct (Hrows _ _ _ _ Hits Hihy Hisc) as (h & -> & (_ & _ & _ & H4)).
    unfold greedy_prefix_length in H4.
    replace (context_size m - 1 + 1) with (context_size m) in H4 by lia.
    eapply Forall_impl; [| exact H4]. exact Hs.
  - intros beam temp res H i ts hy sc Hits Hihy Hisc.
    destruct (beam_result_rows _ _ _ _ _ _ _ _ H) as (_ & _ & _ & T & Hrows).
    destruct (Hrows _ _ _ _ Hits Hihy Hisc)
      as (h & (_ & _ & _ & H4) & -> & _ & _).
    eapply Forall_impl; [| exact H4]. exact Hs.
Qed.

Lemma returned_tokens_are_no_sentinels_witness :
  each_row scenario_greedy_result (fun _ hy _ =>
    Forall (fun v => v <> 0%Z /\ v <> 0%Z) hy)
  /\ each_row scenario_beam_result (fun _ hy _ =>
       Forall (fun v => v <> 0%Z /\ v <> 0%Z) hy).
Proof.
  destruct (returned_tokens_are_no_sentinels _ _ _ _ _ _
              TorchQ_first scenario_model scenario_batch scenario_lens)
    as [Hg Hb].
  split.
  - apply Hg; [simpl; lia | exact scenario_greedy_batch].
  - apply (Hb 2 tt). exact scenario_beam_batch.
Defined.



(** ** The sets of the beam search *)

Section SetInvariant.
Variable O : ScoreOps.
Implicit Types (d : HypothesisList O) (h hyp : Hypothesis_ O).

Lemma self_keyed_merge_at k hyp d :
  self_keyed d -> self_keyed (merge_at k hyp d).
Proof.
  unfold self_keyed. induction d as [| [k' h] d IH]; simpl; intros H; auto.
  inversion H; subst.
  destruct (String.eqb k k'); constructor; auto.
Qed.

Lemma self_keyed_add d hyp : self_keyed d -> self_keyed (add d hyp).
Proof.
  intros H. unfold add. destruct (contains (key hyp) d).
  - now apply self_keyed_merge_at.
  - apply Forall_app. split; [exact H |].
    constructor; [reflexivity | constructor].
Qed.

(** A set with unique keys, each entry stored under its own key, and at most
    [n] entries. *)
Definition set_ok (n : nat) d : Prop :=
  NoDup (map fst d) /\ self_keyed d /\ hl_len d <= n.

Lemma fold_add_ok hs : forall d n,
  set_ok n d -> set_ok (n + length hs) (fold_left (@add O) hs d).
Proof.
  induction hs as [| h hs IH]; intros d n Hd; simpl.
  - now rewrite Nat.add_0_r.
  - replace (n + S (length hs)) with (S n + length hs) by lia.
    apply IH. destruct Hd as (H1 & H2 & H3).
    destruct (add_keeps_keys_unique O d h H1) as (A1 & _ & A3).
    split; [exact A1 | split; [now apply self_keyed_add |]].
    rewrite A3. destruct (contains (key h) d); lia.
Qed.

End SetInvariant.

Arguments set_ok {O} n d.

Lemma topk_first_length {O} (xs : list (score O)) k r :
  topk_first O xs k = Ok r -> length r <= k.
Proof.
  unfold topk_first. destruct (k <=? length xs); intros H; inversion H.
  apply firstn_le_length.
Qed.

(** In every state that the loop of [modified_beam_search] passes through,
    for a beam of at least one and a [topk] that returns at most [k]
    entries, every set, active or finalized, has unique keys, stores each
    hypothesis under its own key and holds at most [beam] hypotheses. *)
Theorem beam_sets_stay_within_the_beam :
  forall (O : ScoreOps) (frame eframe dec logits temperature : Type)
         (K : Torch O logits temperature)
         (m : Model frame eframe dec logits)
         (beam : nat) (temp : temperature) (enc : list eframe)
         (sizes : list nat) (N t : nat) (s : BeamState O),
    1 <= beam ->
    (forall xs r, topk K xs beam = Ok r -> length r <= beam) ->
    beam_reachable O K m beam temp enc sizes N t s ->
    Forall (set_ok beam) (b_B s ++ b_finalized_B s).
Proof.
  intros O frame eframe dec logits temperature K m beam temp enc sizes N t s
         Hbeam Htopk Hreach.
  induction Hreach as [| t s bs s' _ IH _ Hstep].
  - simpl. rewrite app_nil_r. apply Forall_forall.
    intros d Hd. apply repeat_spec in Hd. subst d.
    split; [| split].
    + simpl. constructor; [intros [] | constructor].
    + repeat constructor.
    + simpl. exact Hbeam.
  - rewrite beam_step_adds in Hstep.
    apply rbind_ok in Hstep as (hss & Hhss & Hs'). inversion Hs'; subst s'.
    simpl. apply Forall_app in IH as [IHB IHF].
    destruct (Forall_firstn_skipn _ bs _ IHB) as [_ IHB2].
    apply Forall_app. split; [| apply Forall_app; split; assumption].
    apply Forall_forall. intros d Hd.
    apply in_map_iff in Hd as (hs & <- & Hhs).
    unfold beam_step_new_hyps in Hhss.
    apply rbind_ok in Hhss as (bt & _ & Hhss).
    destruct (rmapM_ok_In _ _ _ Hhss _ Hhs) as (i & _ & Hi).
    unfold beam_new_hyps in Hi.
    apply rbind_ok in Hi as (lo & _ & Hi).
    apply rbind_ok in Hi as (hi & _ & Hi).
    apply rbind_ok in Hi as (top & Htop & Hi).
    apply rbind_ok in Hi as (A_i & _ & Hi).
    apply rmapM_ok_length in Hi. apply Htopk in Htop.
    destruct (fold_add_ok O hs [] 0) as (F1 & F2 & F3).
    { split; [constructor | split; [constructor | simpl; lia]]. }
    split; [exact F1 | split; [exact F2 |]]. simpl in F3. lia.
Qed.

Lemma beam_sets_stay_within_the_beam_witness :
  Forall (set_ok 3) (b_B collision_state ++ b_finalized_B collision_state).
Proof.
  apply (beam_sets_stay_within_the_beam LogQ _ _ _ _ _
           TorchQ_first collision_model 3 tt [0; 1] [1; 1] 1 1).
  - lia.
  - intros xs r H. exact (topk_first_length xs 3 r H).
  - exact collision_reachable.
Defined.

(** ** The calls into the network *)

Lemma bind_tell {B} c (f : unit -> W B) :
  bind (tell c) f = (c :: calls (f tt), outcome (f tt)).
Proof. unfold bind, tell. now destruct (f tt). Qed.

Lemma bind_ret {A B} (a : A) (f : A -> W B) : bind (ret a) f = f a.
Proof. unfold bind, ret. now destruct (f a). Qed.

Lemma calls_bind {A B} (x : W A) (f : A -> W B) :
  calls (bind x f)
  = calls x ++ match outcome x with
               | Ok a => calls (f a)
               | Raise _ => []
               end.
Proof.
  destruct x as [l [a | e]]; simpl.
  - now destruct (f a).
  - now rewrite app_nil_r.
Qed.

Lemma zip_rows_ok_length {A B C0} (f : A -> B -> C0) xs ys r :
  zip_rows f xs ys = Ok r -> length xs = length ys.
Proof.
  unfold zip_rows. destruct (length xs =? length ys) eqn:E; [| discriminate].
  intros _. now apply Nat.eqb_eq.
Qed.

Section CallLog.
Context {frame eframe dec logits temperature : Type}.
Variable O : ScoreOps.
Variable K : Torch O logits temperature.
Variable m : Model frame eframe dec logits.

Let C := context_size m.
Let blank := blank_id m.
Let unk := getattr_unk_id m.

(** The scoring part of a time step of the beam search calls the decoder
    once and the joiner once, both on one row per active hypothesis. *)
Lemma beam_scoring_calls temp cur B bt :
  outcome (beam_scoring K m C temp cur B) = Ok bt ->
  calls (beam_scoring K m C temp cur B)
  = [CallDecoder (length (concat (map (@values O) B)));
     CallJoiner (length (concat (map (@values O) B)))].
Proof.
  unfold beam_scoring. rewrite bind_lift.
  destruct (concat (map (@values O) B)) as [| h0 flat] eqn:Ef;
    [discriminate |].
  rewrite bind_tell. unfold outcome at 1, calls at 1. cbn [fst snd].
  rewrite bind_lift.
  destruct (rmapM (index cur) _) as [cur' | e] eqn:Ec; [| discriminate].
  rewrite bind_tell. cbn [fst snd calls outcome]. rewrite bind_lift.
  destruct (zip_rows _ _ _) as [lgs | e] eqn:Ez; [| discriminate].
  intros _. cbn [fst snd ret]. rewrite !length_map.
  apply zip_rows_ok_length in Ez. rewrite !length_map in Ez.
  now rewrite Ez.
Qed.

Lemma beam_step_calls beam temp enc t bs s s' :
  outcome (beam_step K m blank unk C beam temp enc t bs s) = Ok s' ->
  calls (beam_step K m blank unk C beam temp enc t bs s)
  = [CallDecoder (length (concat (map (@values O) (firstn bs (b_B s)))));
     CallJoiner (length (concat (map (@values O) (firstn bs (b_B s)))))].
Proof.
  unfold beam_step. intros H.
  rewrite outcome_bind in H. apply rbind_ok in H as (bt & Hbt & H).
  rewrite outcome_bind, outcome_lift in H.
  apply rbind_ok in H as (B' & HB' & _).
  rewrite calls_bind, Hbt, (beam_scoring_calls _ _ _ _ Hbt).
  rewrite bind_lift, HB'. reflexivity.
Qed.

(** The loop is in one state only at the time step [t]. *)
Lemma beam_reachable_unique beam temp enc sizes N t s :
  beam_reachable O K m beam temp enc sizes N t s ->
  forall s', beam_reachable O K m beam temp enc sizes N t s' -> s' = s.
Proof.
  induction 1 as [| t s bs s1 _ IH Hbs Hstep]; intros s' H'.
  - now inversion H'.
  - inversion H' as [| t' s0 bs' s1' Hr' Hbs' Hstep']; subst.
    rewrite (IH _ Hr') in *. congruence.
Qed.

(** The calls of the time steps from [t0] on, when the loop is in a state
    that it can reach at [t0]: one decoder call and one joiner call per
    step, on one row per hypothesis of the active sets. *)
Lemma beam_loop_calls beam temp enc sizes N l : forall t0 s s',
  beam_reachable O K m beam temp enc sizes N t0 s ->
  (forall k, nth_error l k = nth_error sizes (t0 + k)) ->
  outcome (for_enumerate (beam_step K m blank unk C beam temp enc) t0 l s)
  = Ok s' ->
  exists rows,
    length rows = length l
    /\ calls (for_enumerate (beam_step K m blank unk C beam temp enc) t0 l s)
       = concat (map (fun n => [CallDecoder n; CallJoiner n]) rows)
    /\ forall k n,
         nth_error rows k = Some n ->
         exists bs st,
           nth_error sizes (t0 + k) = Some bs
           /\ beam_reachable O K m beam temp enc sizes N (t0 + k) st
           /\ n = length (concat (map (@values O) (firstn bs (b_B st)))).
Proof.
  induction l as [| bs l IH]; intros t0 s s' Hreach Hsizes H.
  - exists []. split; [reflexivity | split; [reflexivity |]].
    intros [| k] n Hn; discriminate.
  - simpl in H. rewrite outcome_bind in H.
    apply rbind_ok in H as (s1 & H1 & H).
    assert (Hbs : nth_error sizes t0 = Some bs).
    { rewrite <- (Nat.add_0_r t0). now rewrite <- Hsizes. }
    assert (Hreach1 : beam_reachable O K m beam temp enc sizes N (S t0) s1)
      by (eapply reach_step; eauto).
    destruct (IH (S t0) s1 s' Hreach1) as (rows & Hlen & Hc & Hrows).
    { intros k. replace (S t0 + k) with (t0 + S k) by lia.
      apply (Hsizes (S k)). }
    { exact H. }
    exists (length (concat (map (@values O) (firstn bs (b_B s)))) :: rows).
    split; [simpl; lia |]. split.
    + simpl. rewrite calls_bind, H1, (beam_step_calls _ _ _ _ _ _ _ H1), Hc.
      reflexivity.
    + intros [| k] n Hn; simpl in Hn.
      * inversion Hn; subst n. exists bs, s. rewrite Nat.add_0_r. auto.
      * destruct (Hrows _ _ Hn) as (bs' & st & A1 & A2 & A3).
        exists bs', st. replace (t0 + S k) with (S t0 + k) by lia. auto.
Qed.

(** The states that the loop of [greedy_search_batch] passes through:
    [greedy_reachable enc sizes N t s] when [s] is the state before the time
    step [t], for [N] utterances. *)
Inductive greedy_reachable (encoder_out : list eframe) (sizes : list nat)
  (N : nat) : nat -> @GreedyState dec O -> Prop :=
| greedy_start :
    greedy_reachable encoder_out sizes N 0
      {| g_offset := 0;
         g_hyps := repeat (repeat (-1)%Z (C - 1) ++ [blank]) N;
         g_timestamps := repeat [] N;
         g_scores := repeat [] N;
         g_decoder_out :=
           map (decoder m) (repeat (repeat (-1)%Z (C - 1) ++ [blank]) N) |}
| greedy_next t s bs s' :
    greedy_reachable encoder_out sizes N t s ->
    nth_error sizes t = Some bs ->
    outcome (greedy_step K m blank unk C encoder_out t bs s) = Ok s' ->
    greedy_reachable encoder_out sizes N (S t) s'.

Lemma greedy_reachable_unique enc sizes N t s :
  greedy_reachable enc sizes N t s ->
  forall s', greedy_reachable enc sizes N t s' -> s' = s.
Proof.
  induction 1 as [| t s bs s1 _ IH Hbs Hstep]; intros s' H'.
  - now inversion H'.
  - inversion H' as [| t' s0 bs' s1' Hr' Hbs' Hstep']; subst.
    rewrite (IH _ Hr') in *. congruence.
Qed.

(** The number of tokens of all rows. *)
Definition tokens_total (hs : list (list Z)) : nat :=
  list_sum (map (@length Z) hs).

Lemma alter_append_total v : forall i (l l' : list (list Z)),
  alter (fun h => h ++ [v]) i l = Ok l' ->
  tokens_total l' = S (tokens_total l).
Proof.
  unfold tokens_total.
  induction i as [| i IH]; intros [| x l] l' H; simpl in H; try discriminate.
  - inversion H; subst l'. simpl. rewrite length_app. simpl. lia.
  - apply rbind_ok in H as (r & Hr & H). inversion H; subst l'. simpl.
    rewrite (IH _ _ Hr). lia.
Qed.

Lemma greedy_emit_one_emitted t lp i v (e e' : GreedyEmit O) :
  greedy_emit_one blank unk t lp i v e = Ok e' ->
  e' = e
  \/ (e_emitted e' = true
      /\ tokens_total (e_hyps e') = S (tokens_total (e_hyps e))).
Proof.
  unfold greedy_emit_one. intros H.
  destruct (not_in_sentinels blank unk (Z.of_nat v)).
  - right.
    apply rbind_ok in H as (hs' & Hh & H).
    apply rbind_ok in H as (tss' & _ & H).
    apply rbind_ok in H as (row & _ & H).
    apply rbind_ok in H as (p & _ & H).
    apply rbind_ok in H as (scs' & _ & H).
    inversion H; subst e'; clear H. simpl.
    split; [reflexivity |]. exact (alter_append_total _ _ _ _ Hh).
  - left. now inversion H.
Qed.

(** The flag [emitted] after the loop over [enumerate(y)]: when it is
    still unset nothing has changed, and when it has been set a token has
    been appended. *)
Lemma greedy_emit_emitted t lp y : forall i (e e' : GreedyEmit O),
  greedy_emit blank unk t lp i y e = Ok e' ->
  tokens_total (e_hyps e) <= tokens_total (e_hyps e')
  /\ (e_emitted e' = false -> e' = e)
  /\ (e_emitted e = false -> e_emitted e' = true ->
      tokens_total (e_hyps e) < tokens_total (e_hyps e')).
Proof.
  induction y as [| v y IH]; intros i e e' H; simpl in H.
  - inversion H; subst e'. split; [lia |]. split; [auto |].
    intros E1 E2. congruence.
  - apply rbind_ok in H as (e1 & H1 & H).
    destruct (IH _ _ _ H) as (Hle & Hsame & Hlt).
    destruct (greedy_emit_one_emitted _ _ _ _ _ _ H1) as [-> | [Eem Etot]].
    + auto.
    + split; [lia |]. split.
      * intros E'. rewrite (Hsame E') in E'. congruence.
      * intros _ _. lia.
Qed.

(** One step of the greedy search calls the joiner once, on the frames of
    the active utterances, and then the decoder exactly when a token was
    emitted in this step, on the active utterances. *)
Lemma greedy_step_calls enc t bs s s' :
  outcome (greedy_step K m blank unk C enc t bs s) = Ok s' ->
  exists again,
    calls (greedy_step K m blank unk C enc t bs s)
    = CallJoiner (length (slice enc (g_offset s) (g_offset s + bs)))
      :: match again with
         | Some n' => [CallDecoder n']
         | None => []
         end
    /\ match again with
       | Some n' =>
           n' = length (firstn bs (g_hyps s')) /\ g_hyps s' <> g_hyps s
       | None => g_hyps s' = g_hyps s
       end.
Proof.
  unfold greedy_step. rewrite bind_tell.
  unfold outcome at 1, calls at 1. cbn [fst snd].
  rewrite bind_lift.
  destruct (zip_rows _ _ _) as [lgs | err]; [| discriminate].
  rewrite bind_lift.
  destruct (rmapM (argmax O) _) as [y | err]; [| discriminate].
  rewrite bind_lift.
  destruct (greedy_emit _ _ _ _ _ _ _) as [e1 | err] eqn:He1;
    [| discriminate].
  destruct (greedy_emit_emitted _ _ _ _ _ _ He1) as (_ & Hsame & Hlt).
  simpl e_emitted in Hlt. simpl e_hyps in Hlt.
  destruct (e_emitted e1) eqn:Eem.
  - rewrite bind_tell. simpl. intros H. inversion H; subst s'; clear H.
    simpl. eexists (Some _). split; [reflexivity |].
    split; [now rewrite length_map |].
    intros E. specialize (Hlt eq_refl eq_refl). rewrite E in Hlt. lia.
  - simpl. intros H. inversion H; subst s'; clear H. simpl.
    exists None. split; [reflexivity |].
    now rewrite (Hsame eq_refl).
Qed.

Lemma greedy_loop_calls enc sizes N l : forall t0 s s',
  greedy_reachable enc sizes N t0 s ->
  (forall k, nth_error l k = nth_error sizes (t0 + k)) ->
  outcome (for_enumerate (greedy_step K m blank unk C enc) t0 l s) = Ok s' ->
  exists steps : list (nat * option nat),
    length steps = length l
    /\ calls (for_enumerate (greedy_step K m blank unk C enc) t0 l s)
       = concat (map (fun st =>
                        CallJoiner (fst st)
                        :: match snd st with
                           | Some n' => [CallDecoder n']
                           | None => []
                           end) steps)
    /\ forall k st,
         nth_error steps k = Some st ->
         exists bs s1 s2,
           nth_error sizes (t0 + k) = Some bs
           /\ greedy_reachable enc sizes N (t0 + k) s1
           /\ outcome (greedy_step K m blank unk C enc (t0 + k) bs s1) = Ok s2
           /\ fst st = length (slice enc (g_offset s1) (g_offset s1 + bs))
           /\ match snd st with
              | Some n' =>
                  n' = length (firstn bs (g_hyps s2))
                  /\ g_hyps s2 <> g_hyps s1
              | None => g_hyps s2 = g_hyps s1
              end.
Proof.
  induction l as [| bs l IH]; intros t0 s s' Hreach Hsizes H.
  - exists []. split; [reflexivity | split; [reflexivity |]].
    intros [| k] st Hst; discriminate.
  - simpl in H. rewrite outcome_bind in H.
    apply rbind_ok in H as (s1 & H1 & H).
    assert (Hbs : nth_error sizes t0 = Some bs).
    { rewrite <- (Nat.add_0_r t0). now rewrite <- Hsizes. }
    assert (Hreach1 : greedy_reachable enc sizes N (S t0) s1)
      by (eapply greedy_next; eauto).
    destruct (greedy_step_calls _ _ _ _ _ H1) as (again & Hcalls & Hagain).
    destruct (IH (S t0) s1 s' Hreach1) as (steps & Hlen & Hc & Hsteps).
    { intros k. replace (S t0 + k) with (t0 + S k) by lia.
      apply (Hsizes (S k)). }
    { exact H. }
    exists ((length (slice enc (g_offset s) (g_offset s + bs)), again)
            :: steps).
    split; [simpl; lia |]. split.
    + simpl. rewrite calls_bind, H1, Hcalls, Hc. reflexivity.
    + intros [| k] st Hst; simpl in Hst.
      * inversion Hst; subst st. exists bs, s, s1.
        rewrite Nat.add_0_r. simpl. auto.
      * destruct (Hsteps _ _ Hst) as (bs' & sa & sb & A).
        exists bs', sa, sb. replace (t0 + S k) with (S t0 + k) by lia.
        exact A.
Qed.

End CallLog.

Lemma calls_assert b : calls (assert b) = [].
Proof. now destruct b. Qed.

Lemma calls_lift {A} (r : result A) : calls (lift r) = [].
Proof. reflexivity. Qed.

(** A successful run of the beam search projects the packed frames once,
    all of them, and then, for every time step, calls the decoder once and
    the joiner once, in this order and both on one row for every hypothesis
    of the sets that are active at the step.  There is one time step for
    every entry of [batch_sizes], and their number is the valid length of
    one of the utterances. *)
Theorem beam_search_calls_decoder_and_joiner_once_per_step :
  forall (O : ScoreOps) (frame eframe dec logits temperature : Type)
         (K : Torch O logits temperature)
         (m : Model frame eframe dec logits)
         (encoder_out : list (nat -> frame)) (encoder_out_lens : list Z)
         (beam : nat) (temp : temperature) (res : DecodingResults O),
    outcome (modified_beam_search K m encoder_out encoder_out_lens beam temp)
    = Ok res ->
    exists packed rows,
      pack_padded_sequence (sort_descending K) encoder_out encoder_out_lens
      = Ok packed
      /\ calls (modified_beam_search K m encoder_out encoder_out_lens
                  beam temp)
         = CallEncoderProj (length (data packed))
           :: concat (map (fun n => [CallDecoder n; CallJoiner n]) rows)
      /\ length rows = length (batch_sizes packed)
      /\ (exists l, In l encoder_out_lens /\ length rows = Z.to_nat l)
      /\ forall t n,
           nth_error rows t = Some n ->
           exists bs s,
             nth_error (batch_sizes packed) t = Some bs
             /\ beam_reachable O K m beam temp
                  (map (encoder_proj m) (data packed)) (batch_sizes packed)
                  (length encoder_out) t s
             /\ (forall s',
                   beam_reachable O K m beam temp
                     (map (encoder_proj m) (data packed)) (batch_sizes packed)
                     (length encoder_out) t s' -> s' = s)
             /\ n = length (concat (map (@values O) (firstn bs (b_B s)))).
Proof.
  intros O frame eframe dec logits temperature K m enc lens beam temp res H.
  unfold modified_beam_search in *.
  rewrite outcome_bind in H. apply rbind_ok in H as ([packed B] & Hsets & _).
  rewrite calls_bind, Hsets, calls_lift, app_nil_r.
  unfold beam_search_sets in *.
  w_inv Hsets.
  rewrite calls_bind, Ha, calls_assert. cbn [app].
  rewrite calls_bind, Ha0, calls_lift. cbn [app].
  rewrite calls_bind, Ha1, calls_assert. cbn [app].
  rewrite calls_bind, Ha2, calls_lift. cbn [app].
  rewrite calls_bind, Ha3, calls_assert. cbn [app].
  rewrite bind_tell. cbn [calls fst].
  rewrite calls_bind, Ha5. cbn [calls ret fst]. rewrite app_nil_r.
  rewrite outcome_lift in Ha0.
  destruct (pack_number_of_steps _ _ _ _ Ha0) as (l & Hl & Hlen).
  destruct (beam_loop_calls O K m beam temp
              (map (encoder_proj m) (data a0)) (batch_sizes a0)
              (length enc) (batch_sizes a0) 0 _ _
              (reach_start O K m beam temp _ _ _)
              (fun k => eq_refl) Ha5)
    as (rows & Hrows & Hc & Hsteps).
  exists a0, rows.
  split; [exact Ha0 |]. split; [now rewrite Hc |].
  split; [exact Hrows |]. split; [exists l; split; [exact Hl | congruence] |].
  intros t n Hn. destruct (Hsteps _ _ Hn) as (bs & s & A1 & A2 & A3).
  exists bs, s. split; [exact A1 |]. split; [exact A2 |].
  split; [| exact A3].
  exact (beam_reachable_unique O K m _ _ _ _ _ _ _ A2).
Qed.

Lemma beam_search_calls_decoder_and_joiner_once_per_step_witness :
  exists packed rows,
    pack_padded_sequence (sort_descending TorchQ_first) scenario_batch
      scenario_lens = Ok packed
    /\ calls (modified_beam_search TorchQ_first scenario_model scenario_batch
                scenario_lens 2 tt)
       = CallEncoderProj (length (data packed))
         :: concat (map (fun n => [CallDecoder n; CallJoiner n]) rows)
    /\ length rows = length (batch_sizes packed)
    /\ (exists l, In l scenario_lens /\ length rows = Z.to_nat l)
    /\ forall t n,
         nth_error rows t = Some n ->
         exists bs s,
           nth_error (batch_sizes packed) t = Some bs
           /\ beam_reachable LogQ TorchQ_first scenario_model 2 tt
                (map (encoder_proj scenario_model) (data packed))
                (batch_sizes packed) (length scenario_batch) t s
           /\ (forall s',
                 beam_reachable LogQ TorchQ_first scenario_model 2 tt
                   (map (encoder_proj scenario_model) (data packed))
                   (batch_sizes packed) (length scenario_batch) t s' ->
                 s' = s)
           /\ n = length (concat (map (@values LogQ) (firstn bs (b_B s)))).
Proof.
  exact (beam_search_calls_decoder_and_joiner_once_per_step
           _ _ _ _ _ _ TorchQ_first scenario_model scenario_batch
           scenario_lens 2 tt scenario_beam_result scenario_beam_batch).
Defined.

(** A successful run of the greedy search calls the decoder on the initial
    hypotheses of all utterances, projects the packed frames, all of them,
    and then, for every time step, calls the joiner once, on the frames of
    the active utterances, and after it the decoder exactly when a token was
    emitted in that step, on the active utterances: when no token was
    emitted the decoder is not called.  There is one time step for every
    entry of [batch_sizes], and their number is the valid length of one of
    the utterances. *)
Theorem greedy_search_calls_joiner_once_per_step :
  forall (O : ScoreOps) (frame eframe dec logits temperature : Type)
         (K : Torch O logits temperature)
         (m : Model frame eframe dec logits)
         (encoder_out : list (nat -> frame)) (encoder_out_lens : list Z)
         (res : DecodingResults O),
    outcome (greedy_search_batch K m encoder_out encoder_out_lens) = Ok res ->
    exists packed (steps : list (nat * option nat)),
      pack_padded_sequence (sort_descending K) encoder_out encoder_out_lens
      = Ok packed
      /\ calls (greedy_search_batch K m encoder_out encoder_out_lens)
         = CallDecoder (length encoder_out)
           :: CallEncoderProj (length (data packed))
           :: concat (map (fun st =>
                             CallJoiner (fst st)
                             :: match snd st with
                                | Some n' => [CallDecoder n']
                                | None => []
                                end) steps)
      /\ length steps = length (batch_sizes packed)
      /\ (exists l, In l encoder_out_lens /\ length steps = Z.to_nat l)
      /\ forall t st,
           nth_error steps t = Some st ->
           exists bs s1 s2,
             nth_error (batch_sizes packed) t = Some bs
             /\ greedy_reachable O K m
                  (map (encoder_proj m) (data packed)) (batch_sizes packed)
                  (length encoder_out) t s1
             /\ (forall s',
                   greedy_reachable O K m
                     (map (encoder_proj m) (data packed)) (batch_sizes packed)
                     (length encoder_out) t s' -> s' = s1)
             /\ outcome (greedy_step K m (blank_id m) (getattr_unk_id m)
                           (context_size m)
                           (map (encoder_proj m) (data packed)) t bs s1)
                = Ok s2
             /\ fst st
                = length (slice (map (encoder_proj m) (data packed))
                                (g_offset s1) (g_offset s1 + bs))
             /\ match snd st with
                | Some n' =>
                    n' = length (firstn bs (g_hyps s2))
                    /\ g_hyps s2 <> g_hyps s1
                | None => g_hyps s2 = g_hyps s1
                end.
Proof.
  intros O frame eframe dec logits temperature K m enc lens res H.
  unfold greedy_search_batch in *.
  w_inv H.
  rewrite calls_bind, Ha, calls_assert. cbn [app].
  rewrite calls_bind, Ha0, calls_lift. cbn [app].
  rewrite calls_bind, Ha1, calls_assert. cbn [app].
  rewrite calls_bind, Ha2, calls_lift. cbn [app].
  rewrite calls_bind, Ha3, calls_assert. cbn [app].
  rewrite bind_tell. cbn [calls fst].
  rewrite bind_tell. cbn [calls fst].
  rewrite calls_bind, Ha6.
  rewrite calls_bind, Ha7, calls_lift. cbn [app].
  rewrite calls_bind, Ha8, calls_lift. cbn [app].
  rewrite calls_bind, Ha9, calls_lift. cbn [app calls ret fst].
  rewrite app_nil_r, repeat_length.
  rewrite outcome_lift in Ha0.
  destruct (pack_number_of_steps _ _ _ _ Ha0) as (l & Hl & Hlen).
  destruct (greedy_loop_calls O K m
              (map (encoder_proj m) (data a0)) (batch_sizes a0)
              (length enc) (batch_sizes a0) 0 _ _
              (greedy_start O K m _ _ _)
              (fun k => eq_refl) Ha6)
    as (steps & Hsteps & Hc & Hall).
  exists a0, steps.
  split; [exact Ha0 |]. split; [now rewrite Hc |].
  split; [exact Hsteps |]. split; [exists l; split; [exact Hl | congruence] |].
  intros t st Hst.
  destruct (Hall _ _ Hst) as (bs & s1 & s2 & A1 & A2 & A3).
  exists bs, s1, s2. split; [exact A1 |]. split; [exact A2 |].
  split; [| exact A3].
  exact (greedy_reachable_unique O K m _ _ _ _ _ A2).
Qed.

Lemma greedy_search_calls_joiner_once_per_step_witness :
  exists packed (steps : list (nat * option nat)),
    pack_padded_sequence (sort_descending TorchQ_first) scenario_batch
      scenario_lens = Ok packed
    /\ calls (greedy_search_batch TorchQ_first scenario_model scenario_batch
                scenario_lens)
       = CallDecoder (length scenario_batch)
         :: CallEncoderProj (length (data packed))
         :: concat (map (fun st =>
                           CallJoiner (fst st)
                           :: match snd st with
                              | Some n' => [CallDecoder n']
                              | None => []
                              end) steps)
    /\ length steps = length (batch_sizes packed)
    /\ (exists l, In l scenario_lens /\ length steps = Z.to_nat l)
    /\ forall t st,
         nth_error steps t = Some st ->
         exists bs s1 s2,
           nth_error (batch_sizes packed) t = Some bs
           /\ greedy_reachable LogQ TorchQ_first scenario_model
                (map (encoder_proj scenario_model) (data packed))
                (batch_sizes packed) (length scenario_batch) t s1
           /\ (forall s',
                 greedy_reachable LogQ TorchQ_first scenario_model
                   (map (encoder_proj scenario_model) (data packed))
                   (batch_sizes packed) (length scenario_batch) t s' ->
                 s' = s1)
           /\ outcome (greedy_step TorchQ_first scenario_model
                         (blank_id scenario_model)
                         (getattr_unk_id scenario_model)
                         (context_size scenario_model)
                         (map (encoder_proj scenario_model) (data packed))
                         t bs s1)
              = Ok s2
           /\ fst st
              = length (slice (map (encoder_proj scenario_model) (data packed))
                              (g_offset s1) (g_offset s1 + bs))
           /\ match snd st with
              | Some n' =>
                  n' = length (firstn bs (g_hyps s2))
                  /\ g_hyps s2 <> g_hyps s1
              | None => g_hyps s2 = g_hyps s1
              end.
Proof.
  exact (greedy_search_calls_joiner_once_per_step
           _ _ _ _ _ _ TorchQ_first scenario_model scenario_batch
           scenario_lens scenario_greedy_result scenario_greedy_batch).
Defined.

(** ** A beam of width zero *)

Section EmptyBeam.
Context {frame eframe dec logits temperature : Type}.
Variable O : ScoreOps.
Variable K : Torch O logits temperature.
Variable m : Model frame eframe dec logits.
Hypothesis topk_zero : forall xs r, topk K xs 0 = Ok r -> r = [].

Let C := context_size m.
Let blank := blank_id m.
Let unk := getattr_unk_id m.

Lemma concat_values_nil (l : list (HypothesisList O)) :
  Forall (fun d => d = []) l -> concat (map (@values O) l) = [].
Proof.
  induction 1 as [| d l Hd _ IH]; simpl; [reflexivity |].
  now rewrite Hd, IH.
Qed.

Lemma beam_scoring_ok_nonempty temp cur B bt :
  outcome (beam_scoring K m C temp cur B) = Ok bt ->
  concat (map (@values O) B) <> [].
Proof.
  unfold beam_scoring. rewrite outcome_bind, outcome_lift.
  destruct (concat (map (@values O) B)); [discriminate | discriminate].
Qed.

(** A step of a beam of width zero leaves only empty sets, and at least
    one. *)
Lemma beam_step_zero temp enc t bs s s' :
  outcome (beam_step K m blank unk C 0 temp enc t bs s) = Ok s' ->
  b_B s' <> [] /\ Forall (fun d => d = []) (b_B s').
Proof.
  unfold beam_step. intros H.
  rewrite outcome_bind in H. apply rbind_ok in H as (bt & Hbt & H).
  rewrite outcome_bind, outcome_lift in H.
  apply rbind_ok in H as (B' & HB' & H).
  rewrite outcome_ret in H. inversion H; subst s'; clear H. simpl.
  apply beam_scoring_ok_nonempty in Hbt. split.
  - destruct bs as [| bs]; [now elim Hbt |].
    apply rmapM_ok_length in HB'. rewrite length_seq in HB'.
    destruct B'; [discriminate | discriminate].
  - apply Forall_forall. intros d Hd.
    destruct (rmapM_ok_In _ _ _ HB' _ Hd) as (i & _ & Hi).
    unfold beam_utterance in Hi.
    apply rbind_ok in Hi as (lo & _ & Hi).
    apply rbind_ok in Hi as (hi & _ & Hi).
    apply rbind_ok in Hi as (top & Htop & Hi).
    apply rbind_ok in Hi as (A_i & _ & Hi).
    apply topk_zero in Htop. subst top. simpl in Hi. now inversion Hi.
Qed.

(** No step succeeds on empty sets: there is nothing to concatenate. *)
Lemma beam_step_on_empty_sets beam temp enc t bs s s' :
  Forall (fun d => d = []) (b_B s) ->
  outcome (beam_step K m blank unk C beam temp enc t bs s) = Ok s' ->
  False.
Proof.
  unfold beam_step. intros Hs H.
  rewrite outcome_bind in H. apply rbind_ok in H as (bt & Hbt & _).
  apply beam_scoring_ok_nonempty in Hbt. apply Hbt.
  apply concat_values_nil.
  now apply (Forall_firstn_skipn _ bs) in Hs.
Qed.

Lemma modified_beam_search_zero enc lens temp res :
  outcome (modified_beam_search K m enc lens 0 temp) = Ok res -> False.
Proof.
  intros H.
  destruct (modified_beam_search_inv _ _ _ _ _ _ _ _ H)
    as (packed & B & best & Hsets & Hbest & _).
  destruct (beam_search_sets_inv _ _ _ _ _ _ _ _ _ Hsets)
    as (s & _ & _ & Hnth & Hloop & HB).
  destruct (batch_sizes packed) as [| bs0 rest]; [discriminate |].
  simpl in Hloop. apply rbind_ok in Hloop as (s1 & H1 & Hrest).
  destruct (beam_step_zero _ _ _ _ _ _ H1) as (Hne & Hall).
  destruct rest as [| bs1 rest]; simpl in Hrest.
  - inversion Hrest; subst s1; clear Hrest.
    destruct (b_B s) as [| d Bs]; [now elim Hne |].
    inversion Hall; subst. simpl in Hbest. discriminate.
  - apply rbind_ok in Hrest as (s2 & H2 & _).
    exact (beam_step_on_empty_sets _ _ _ _ _ _ _ Hall H2).
Qed.

End EmptyBeam.

(** With [beam = 0] and a [topk] that returns no entry for [k = 0],
    [modified_beam_search] returns for no input: every run raises. *)
Theorem beam_search_of_width_zero_raises :
  forall (O : ScoreOps) (frame eframe dec logits temperature : Type)
         (K : Torch O logits temperature)
         (m : Model frame eframe dec logits)
         (encoder_out : list (nat -> frame)) (encoder_out_lens : list Z)
         (temp : temperature),
    (forall xs r, topk K xs 0 = Ok r -> r = []) ->
    exists e,
      outcome (modified_beam_search K m encoder_out encoder_out_lens 0 temp)
      = Raise e.
Proof.
  intros O frame eframe dec logits temperature K m enc lens temp Hk.
  destruct (outcome (modified_beam_search K m enc lens 0 temp))
    as [res | e] eqn:E.
  - exfalso. exact (modified_beam_search_zero O K m Hk _ _ _ _ E).
  - now exists e.
Qed.

Lemma beam_search_of_width_zero_raises_witness :
  exists e,
    outcome (modified_beam_search TorchQ_first scenario_model scenario_batch
               scenario_lens 0 tt) = Raise e.
Proof.
  apply (beam_search_of_width_zero_raises LogQ _ _ _ _ _
           TorchQ_first scenario_model scenario_batch scenario_lens tt).
  intros xs r H. pose proof (topk_first_length xs 0 r H) as L.
  destruct r; [reflexivity | simpl in L; lia].
Defined.

(** ** The candidates of one utterance *)

Lemma concat_concat {A} (ls : list (list (list A))) :
  concat (concat ls) = concat (map (@concat A) ls).
Proof.
  induction ls as [| l ls IH]; simpl; auto. now rewrite concat_app, IH.
Qed.

Lemma map_snd_enumerate_from {A B} (f : A -> B) (l : list A) : forall r,
  map (fun ia => f (snd ia)) (enumerate_from r l) = map f l.
Proof.
  induction l as [| x l IH]; intros r; simpl; auto. now rewrite IH.
Qed.

Lemma block_sums {X Y} (g : X -> list Y) (f : X -> nat) V l :
  Forall (fun x => length (g x) = f x * V) l ->
  forall i,
    list_sum (map (@length Y) (firstn i (map g l)))
    = list_sum (firstn i (map f l)) * V.
Proof.
  induction 1 as [| x l Hx _ IH]; intros [| i]; simpl; auto.
  rewrite IH, Hx. lia.
Qed.

(** The frames that [index_select] reads: every utterance that has a
    hypothesis has a frame. *)
Lemma index_select_frames {E H} (cur : list E) (A : list (list H)) :
  forall r cur',
    rmapM (index cur)
      (concat (map (fun ia => repeat (fst ia) (snd ia))
                   (enumerate_from r (map (@length H) A)))) = Ok cur' ->
    Forall (fun ia => snd ia = [] \/ exists e, nth_error cur (fst ia) = Some e)
           (enumerate_from r A).
Proof.
  induction A as [| A0 A IH]; intros r cur' Hc; simpl in *.
  - constructor.
  - rewrite rmapM_app in Hc.
    apply rbind_ok in Hc as (c0 & Hc0 & Hc).
    apply rbind_ok in Hc as (c1 & Hc1 & _).
    constructor; [| now apply (IH _ _ Hc1)]. simpl.
    destruct (rmapM_index_repeat _ _ _ _ Hc0) as [[Hn _] | (e & He & _)].
    + left. now destruct A0.
    + right. eauto.
Qed.

Section Candidates.
Context {frame eframe dec logits temperature : Type}.
Variable O : ScoreOps.
Variable K : Torch O logits temperature.
Variable m : Model frame eframe dec logits.

Let C := context_size m.
Let V := vocab_size m.

(** The scores of the candidates that extend the hypothesis [h] at the
    frame [e]: for every token [v], the log-probability of [v] after the last
    [context_size] tokens of [h], plus the log-probability of [h]. *)
Definition candidate_row (temp : temperature) (e : eframe)
  (h : Hypothesis_ O) : list (score O) :=
  map (fun v =>
         s_add O
           (log_softmax K
              (div_scalar K (joiner m e (decoder m (last_n C (ys h)))) temp) v)
           (log_prob h))
      (seq 0 V).

Lemma candidate_row_length temp e h : length (candidate_row temp e h) = V.
Proof. unfold candidate_row. now rewrite length_map, length_seq. Qed.

Lemma candidate_rows_length temp e (l : list (Hypothesis_ O)) :
  length (concat (map (candidate_row temp e) l)) = length l * V.
Proof.
  induction l as [| h l IH]; simpl; auto.
  now rewrite length_app, candidate_row_length, IH.
Qed.

Lemma storage_rows temp : forall (cur' : list eframe) (flat : list (Hypothesis_ O)),
  map (fun rp => map (fun x => s_add O x (snd rp)) (fst rp))
      (combine
         (log_softmax_rows K m
            (map (fun lg => div_scalar K lg temp)
               (map (fun p => joiner m (fst p) (snd p))
                  (combine cur'
                     (map (decoder m)
                        (map (fun hyp => last_n C (ys hyp)) flat))))))
         (map (@log_prob O) flat))
  = map (fun p => candidate_row temp (fst p) (snd p)) (combine cur' flat).
Proof.
  induction cur' as [| e cur' IH]; intros [| h flat]; simpl; auto.
  f_equal; [| apply IH].
  unfold candidate_row. now rewrite map_map.
Qed.

Lemma beam_scoring_blocks temp cur B bt :
  (Z.of_nat (length (concat (map (@values O) B))) < 2 ^ 31)%Z ->
  outcome (beam_scoring K m C temp cur B) = Ok bt ->
  bt_row_splits bt
  = map (fun r => wrap32 (r * Z.of_nat V))
        (0%Z :: cumsum_from 0 (map Z.of_nat (map (@hl_len O) B)))
  /\ Forall (fun ia => snd ia = []
                       \/ exists e, nth_error cur (fst ia) = Some e)
            (enumerate_from 0 (map (@values O) B))
  /\ bt_log_probs bt
     = concat (map (fun ia =>
                      concat (match nth_error cur (fst ia) with
                              | Some e => map (candidate_row temp e) (snd ia)
                              | None => []
                              end))
                   (enumerate_from 0 (map (@values O) B))).
Proof.
  intros Hfit. unfold beam_scoring. rewrite bind_lift.
  destruct (match concat (map (@values O) B) with
            | [] => Raise RuntimeError
            | _ => Ok tt
            end) as [u | err]; [| discriminate].
  rewrite bind_tell. unfold outcome at 1. cbn [snd].
  rewrite bind_lift.
  destruct (rmapM (index cur) _) as [cur' | err] eqn:Ec; [| discriminate].
  rewrite bind_tell. unfold outcome at 1. cbn [snd]. rewrite bind_lift.
  destruct (zip_rows _ _ _) as [lgs | err] eqn:Ez; [| discriminate].
  rewrite outcome_ret. intros H. inversion H; subst bt; clear H. simpl.
  assert (En : map (@hl_len O) B
               = map (@length (Hypothesis_ O)) (map (@values O) B)).
  { rewrite map_map. apply map_ext. intros d. unfold hl_len, values.
    now rewrite length_map. }
  rewrite row_splits_unfold in *. unfold row_splits_to_row_ids in Ec.
  rewrite row_ids_from_cumsum in Ec
    by (rewrite ?En, <- ?length_concat; lia).
  rewrite En in Ec.
  split; [rewrite map_map; reflexivity |].
  split; [exact (index_select_frames _ _ _ _ Ec) |].
  destruct (index_select_rows cur
              (fun p => candidate_row temp (fst p) (snd p)) _ _ _ Ec)
    as [L E].
  unfold zip_rows in Ez.
  destruct (length cur' =? _); [| discriminate].
  inversion Ez; subst lgs; clear Ez.
  rewrite storage_rows, E, concat_concat, map_map.
  reflexivity.
Qed.

End Candidates.

Lemma list_sum_firstn_le l : forall i, list_sum (firstn i l) <= list_sum l.
Proof.
  induction l as [| x l IH]; intros [| i]; simpl; try lia.
  specialize (IH i). lia.
Qed.

(** A slice between bounds that are not negative. *)
Lemma slice_z_nat {A} (l : list A) (a b : nat) :
  slice_z l (Z.of_nat a) (Z.of_nat b) = slice l a b.
Proof.
  unfold slice_z, slice_bound.
  destruct (Z.ltb_spec (Z.of_nat a) 0); [lia |].
  destruct (Z.ltb_spec (Z.of_nat b) 0); [lia |].
  rewrite !Nat2Z.id. unfold slice.
  destruct (Nat.le_gt_cases (length l) a) as [Ha | Ha].
  - rewrite (Nat.min_r a) by exact Ha.
    rewrite !skipn_all2 by lia. now rewrite !firstn_nil.
  - rewrite (Nat.min_l a) by lia.
    destruct (Nat.le_gt_cases (length l) b) as [Hb | Hb].
    + rewrite (Nat.min_r b) by exact Hb.
      rewrite !firstn_all2 by (rewrite length_skipn; lia). reflexivity.
    + now rewrite (Nat.min_l b) by lia.
Qed.

Lemma beam_scoring_slice :
  forall (O : ScoreOps) (frame eframe dec logits temperature : Type)
         (K : Torch O logits temperature)
         (m : Model frame eframe dec logits)
         (temp : temperature) (cur : list eframe)
         (B : list (HypothesisList O)) (bt : BeamTensors O)
         (i : nat) (B_i : HypothesisList O) (e : eframe),
    (Z.of_nat (length (concat (map (@values O) B))) < 2 ^ 31)%Z ->
    (Z.of_nat (length (concat (map (@values O) B)) * vocab_size m)
     < 2 ^ 31)%Z ->
    outcome (beam_scoring K m (context_size m) temp cur B) = Ok bt ->
    nth_error B i = Some B_i ->
    nth_error cur i = Some e ->
    exists lo hi,
      nth_error (bt_row_splits bt) i = Some lo
      /\ nth_error (bt_row_splits bt) (S i) = Some hi
      /\ (0 <= lo)%Z
      /\ hi = (lo + Z.of_nat (hl_len B_i * vocab_size m))%Z
      /\ slice_z (bt_log_probs bt) lo hi
         = concat (map (candidate_row O K m temp e) (values B_i)).
Proof.
  intros O frame eframe dec logits temperature K m temp cur B bt i B_i e
         Hfit Hfit' H HB He.
  destruct (beam_scoring_blocks O K m _ _ _ _ Hfit H) as (Hs & Hf & Hl).
  set (V := vocab_size m) in *.
  set (ns := map (@hl_len O) B) in *.
  assert (En : map (@length (Hypothesis_ O)) (map (@values O) B) = ns).
  { unfold ns. rewrite map_map. apply map_ext. intros d.
    unfold hl_len, values. now rewrite length_map. }
  assert (Et : length (concat (map (@values O) B)) = list_sum ns)
    by now rewrite length_concat, En.
  rewrite Et in Hfit, Hfit'.
  assert (Hi : i < length ns).
  { unfold ns. rewrite length_map. apply nth_error_Some. congruence. }
  assert (Hn : nth_error ns i = Some (hl_len B_i)).
  { unfold ns. now apply map_nth_error. }
  assert (Hw : forall j,
             j <= length ns ->
             nth_error (bt_row_splits bt) j
             = Some (Z.of_nat (list_sum (firstn j ns) * V))).
  { intros j Hj. rewrite Hs, nth_error_map, nth_error_cumsum by lia.
    simpl option_map. f_equal.
    pose proof (list_sum_firstn_le ns j) as Hle.
    apply (Nat.mul_le_mono_r _ _ V) in Hle.
    rewrite wrap32_small
      by (change (2 ^ 31)%Z with 2147483648%Z in *; lia).
    lia. }
  exists (Z.of_nat (list_sum (firstn i ns) * V)),
         (Z.of_nat (list_sum (firstn (S i) ns) * V)).
  split; [apply Hw; lia |]. split; [apply Hw; lia |].
  split; [lia |].
  split; [rewrite (list_sum_firstn_succ _ _ _ Hn); lia |].
  rewrite slice_z_nat, Hl.
  set (g := fun ia : nat * list (Hypothesis_ O) =>
              concat (match nth_error cur (fst ia) with
                      | Some e0 => map (candidate_row O K m temp e0) (snd ia)
                      | None => []
                      end)).
  assert (Hg : Forall (fun ia => length (g ia) = length (snd ia) * V)
                 (enumerate_from 0 (map (@values O) B))).
  { eapply Forall_impl; [| exact Hf]. intros [j l] [Hnil | (e0 & He0)];
      unfold g; simpl in *.
    - subst l. now destruct (nth_error cur j).
    - rewrite He0. apply candidate_rows_length. }
  pose proof (block_sums g (fun ia => length (snd ia)) V _ Hg) as Hsum.
  rewrite map_snd_enumerate_from in Hsum.
  rewrite En in Hsum. rewrite <- !Hsum.
  apply slice_concat_block.
  rewrite nth_error_map.
  rewrite (nth_error_enumerate_from _ 0 i (values B_i))
    by now apply map_nth_error.
  simpl. unfold g. simpl. now rewrite He.
Qed.

Lemma nth_error_concat_blocks {X Y} (f : X -> list Y) (V : nat) :
  0 < V ->
  (forall x, length (f x) = V) ->
  forall l k x,
    nth_error l (k / V) = Some x ->
    nth_error (concat (map f l)) k = nth_error (f x) (k mod V).
Proof.
  intros HV Hf. induction l as [| y l IH]; intros k x Hk.
  - destruct (k / V); discriminate.
  - simpl. destruct (Nat.lt_ge_cases k V) as [Hlt | Hge].
    + rewrite Nat.div_small in Hk by exact Hlt. inversion Hk; subst y.
      rewrite Nat.mod_small by exact Hlt.
      apply nth_error_app1. now rewrite Hf.
    + rewrite nth_error_app2 by (rewrite Hf; exact Hge). rewrite Hf.
      assert (Ek : k = 1 * V + (k - V)) by lia.
      rewrite Ek in Hk. rewrite Nat.div_add_l in Hk by lia. simpl in Hk.
      rewrite (IH _ _ Hk). f_equal.
      rewrite Ek at 2. rewrite Nat.add_comm. now rewrite Nat.Div0.mod_add.
Qed.

Lemma nth_error_map_seq {Y} (g : nat -> Y) n j :
  j < n -> nth_error (map g (seq 0 n)) j = Some (g j).
Proof.
  intros H. rewrite nth_error_map, nth_error_seq.
  destruct (Nat.ltb_spec j n); [reflexivity | lia].
Qed.

(** In the flattened tensor of candidate scores that one time step of
    [modified_beam_search] computes, the entries between [row_splits[i]] and
    [row_splits[i + 1]] are the candidates of utterance [i] and of no other:
    one block of [vocab_size] scores for each of its hypotheses, in the order
    of the set, every score computed from the frame of utterance [i] and the
    last tokens of that hypothesis, plus the hypothesis's log-probability.
    The row splits are [int32] values: this holds as long as the step has
    fewer than [2^31] hypotheses and fewer than [2^31] candidates, beyond
    which the row splits wrap. *)
Theorem beam_candidates_of_an_utterance :
  forall (O : ScoreOps) (frame eframe dec logits temperature : Type)
         (K : Torch O logits temperature)
         (m : Model frame eframe dec logits)
         (temp : temperature) (cur : list eframe)
         (B : list (HypothesisList O)) (bt : BeamTensors O)
         (i : nat) (B_i : HypothesisList O) (e : eframe),
    (Z.of_nat (length (concat (map (@values O) B))) < 2 ^ 31)%Z ->
    (Z.of_nat (length (concat (map (@values O) B)) * vocab_size m)
     < 2 ^ 31)%Z ->
    outcome (beam_scoring K m (context_size m) temp cur B) = Ok bt ->
    nth_error B i = Some B_i ->
    nth_error cur i = Some e ->
    exists lo hi,
      nth_error (bt_row_splits bt) i = Some lo
      /\ nth_error (bt_row_splits bt) (S i) = Some hi
      /\ (0 <= lo)%Z
      /\ hi = (lo + Z.of_nat (hl_len B_i * vocab_size m))%Z
      /\ slice_z (bt_log_probs bt) lo hi
         = concat (map (candidate_row O K m temp e) (values B_i)).
Proof.
  intros O frame eframe dec logits temperature K m temp cur B bt i B_i e.
  apply beam_scoring_slice.
Qed.

(** The tensors of the second frame of the run above: one utterance, three
    hypotheses, three tokens. *)
Definition collision_tensors : BeamTensors LogQ :=
  @Build_BeamTensors LogQ
    [values (hd [] (b_B collision_state))]
    [0; 9]%Z
    [25 # 100; 15 # 100; 10 # 100;
     21 # 100; 6 # 100; 3 # 100;
     12 # 100; 6 # 100; 2 # 100]%Q
    [25 # 100; 15 # 100; 10 # 100;
     21 # 100; 6 # 100; 3 # 100;
     12 # 100; 6 # 100; 2 # 100]%Q.

Example collision_scoring :
  outcome (beam_scoring TorchQ_first collision_model
             (context_size collision_model) tt [1] (b_B collision_state))
  = Ok collision_tensors.
Proof. reflexivity. Qed.

Lemma beam_candidates_of_an_utterance_witness :
  exists lo hi,
    nth_error (bt_row_splits collision_tensors) 0 = Some lo
    /\ nth_error (bt_row_splits collision_tensors) 1 = Some hi
    /\ (0 <= lo)%Z
    /\ hi = (lo + Z.of_nat (hl_len (hd [] (b_B collision_state))
                            * vocab_size collision_model))%Z
    /\ slice_z (bt_log_probs collision_tensors) lo hi
       = concat (map (candidate_row LogQ TorchQ_first collision_model tt 1)
                     (values (hd [] (b_B collision_state)))).
Proof.
  apply (beam_candidates_of_an_utterance LogQ _ _ _ _ _
           TorchQ_first collision_model tt [1] (b_B collision_state)
           collision_tensors 0 (hd [] (b_B collision_state)) 1).
  - reflexivity.
  - reflexivity.
  - exact collision_scoring.
  - reflexivity.
  - reflexivity.
Defined.

(** The candidate with the flat index [k] in the slice of utterance [i]
    extends the hypothesis number [k // vocab_size] of that utterance by the
    token [k % vocab_size]: its score is the log-probability of that token
    after that hypothesis at the frame of utterance [i], plus the
    log-probability of the hypothesis.  As above, for a step with fewer than
    [2^31] hypotheses and fewer than [2^31] candidates. *)
Theorem candidate_index_is_hypothesis_and_token :
  forall (O : ScoreOps) (frame eframe dec logits temperature : Type)
         (K : Torch O logits temperature)
         (m : Model frame eframe dec logits)
         (temp : temperature) (cur : list eframe)
         (B : list (HypothesisList O)) (bt : BeamTensors O)
         (i : nat) (B_i : HypothesisList O) (e : eframe)
         (lo hi : Z) (k : nat) (h : Hypothesis_ O),
    0 < vocab_size m ->
    (Z.of_nat (length (concat (map (@values O) B)) * vocab_size m)
     < 2 ^ 31)%Z ->
    outcome (beam_scoring K m (context_size m) temp cur B) = Ok bt ->
    nth_error B i = Some B_i ->
    nth_error cur i = Some e ->
    nth_error (bt_row_splits bt) i = Some lo ->
    nth_error (bt_row_splits bt) (S i) = Some hi ->
    nth_error (values B_i) (k / vocab_size m) = Some h ->
    nth_error (slice_z (bt_log_probs bt) lo hi) k
    = Some (s_add O
              (log_softmax K
                 (div_scalar K
                    (joiner m e (decoder m (last_n (context_size m) (ys h))))
                    temp)
                 (k mod vocab_size m))
              (log_prob h)).
Proof.
  intros O frame eframe dec logits temperature K m temp cur B bt i B_i e
         lo hi k h HV Hfit' H HB He Hlo Hhi Hh.
  assert (Hfit : (Z.of_nat (length (concat (map (@values O) B)))
                  < 2 ^ 31)%Z).
  { change (2 ^ 31)%Z with 2147483648%Z in *.
    assert (length (concat (map (@values O) B))
            <= length (concat (map (@values O) B)) * vocab_size m)
      by (destruct (vocab_size m); [lia | rewrite Nat.mul_succ_r; lia]).
    lia. }
  destruct (beam_scoring_slice O _ _ _ _ _ K m temp cur B bt i B_i e
              Hfit Hfit' H HB He)
    as (lo' & hi' & Hlo' & Hhi' & _ & _ & Hs).
  assert (lo' = lo) by congruence. assert (hi' = hi) by congruence.
  subst lo' hi'. rewrite Hs.
  rewrite (nth_error_concat_blocks (candidate_row O K m temp e)
             (vocab_size m) HV (candidate_row_length O K m temp e) _ _ _ Hh).
  unfold candidate_row. rewrite nth_error_map_seq; [reflexivity |].
  apply Nat.mod_upper_bound. lia.
Qed.

(** The second hypothesis of the set before the second frame. *)
Definition collision_stored_before : Hypothesis_ LogQ :=
  @Build_Hypothesis_ LogQ [0; 0; 1]%Z [3 # 10]%Q (3 # 10)%Q [0].

Lemma candidate_index_is_hypothesis_and_token_witness :
  nth_error (slice_z (bt_log_probs collision_tensors) 0 9) 4
  = Some (s_add LogQ
            (log_softmax TorchQ_first
               (div_scalar TorchQ_first
                  (joiner collision_model 1
                     (decoder collision_model
                        (last_n (context_size collision_model)
                           (ys collision_stored_before))))
                  tt)
               (4 mod vocab_size collision_model))
            (log_prob collision_stored_before)).
Proof.
  apply (candidate_index_is_hypothesis_and_token LogQ _ _ _ _ _
           TorchQ_first collision_model tt [1] (b_B collision_state)
           collision_tensors 0 (hd [] (b_B collision_state)) 1 0%Z 9%Z 4
           collision_stored_before).
  - simpl. lia.
  - reflexivity.
  - exact collision_scoring.
  - reflexivity.
  - reflexivity.
  - reflexivity.
  - reflexivity.
  - reflexivity.
Defined.

(** ** The selection of the candidates *)





(** A network with three tokens whose distribution is (0.4, 0.3, 0.3) at
    every frame and after every context: the tokens 1 and 2 tie. *)
Definition tie_model : Model nat nat (list Z) (list Q) :=
  table_model 0 None 2 3 (fun _ _ => [4 # 10; 3 # 10; 3 # 10]%Q).




(** With a [topk] that returns the later of two equal entries first, the
    search returns the token 2; with one that returns the earlier first, the
    token 1. *)
Example tie_last :
  outcome (modified_beam_search (TorchQ (topk_last LogQ)) tie_model
             [fun t => t] [1%Z] 2 tt)
  = Ok (@Build_DecodingResults LogQ [[0]] [[2]]%Z [[3 # 10]]%Q).
Proof. reflexivity. Qed.

Example tie_first :
  outcome (modified_beam_search (TorchQ (topk_first LogQ)) tie_model
             [fun t => t] [1%Z] 2 tt)
  = Ok (@Build_DecodingResults LogQ [[0]] [[1]]%Z [[3 # 10]]%Q).
Proof. reflexivity. Qed.



(** ** HypothesisList.__str__ *)

(** The objects that the list [s] of [__str__] can hold: [str.join] accepts
    strings only. *)
Inductive py_item (O : ScoreOps) : Type :=
| ItemStr (s : string)
| ItemHypothesis (h : Hypothesis_ O).

Arguments ItemStr {O} s.
Arguments ItemHypothesis {O} h.

Inductive join_result : Type :=
| Joined (s : string)
| TypeError.

Fixpoint strs_of {O} (items : list (py_item O)) : option (list string) :=
  match items with
  | [] => Some []
  | ItemStr s :: items' => option_map (cons s) (strs_of items')
  | ItemHypothesis _ :: _ => None
  end.

(** [sep.join(items)]: a [TypeError] when an item is not a string. *)
Definition str_join {O} (sep : string) (items : list (py_item O))
  : join_result :=
  match strs_of items with
  | Some strs => Joined (String.concat sep strs)
  | None => TypeError
  end.

(** [HypothesisList.__iter__]: [iter(self._data.values())] *)
Definition hl_iter {O} (d : HypothesisList O) : list (Hypothesis_ O) :=
  values d.

(** [HypothesisList.__str__]: the loop [for key in self] appends what the
    iterator yields, the hypotheses, to [s]. *)
Definition hl_str {O} (d : HypothesisList O) : join_result :=
  let s := map ItemHypothesis (hl_iter d) in
  str_join ", " s.

(** [str] of a [HypothesisList] returns only for the empty list, and then
    the empty string: [__iter__] yields the hypotheses, not their keys, and
    [join] raises a [TypeError] on the first of them. *)
Theorem str_of_a_set_returns_only_when_empty :
  forall (O : ScoreOps) (d : HypothesisList O) (s : string),
    (hl_str d = Joined s <-> d = [] /\ s = EmptyString)
    /\ (hl_str d = TypeError <-> d <> []).
Proof.
  intros O [| [k h] d] s; unfold hl_str, hl_iter, str_join; simpl.
  - split; split.
    + intros H. inversion H. auto.
    + intros [_ ->]. reflexivity.
    + discriminate.
    + intros H. now elim H.
  - split; split; try discriminate; auto.
    intros [H _]. discriminate.
Qed.

(** ** One step of the greedy search *)

Lemma alter_nth {A} (f : A -> A) i l l' :
  alter f i l = Ok l' ->
  forall j,
    nth_error l' j
    = if j =? i then option_map f (nth_error l j) else nth_error l j.
Proof.
  intros H j. apply alter_ok in H as (_ & (x & Hx & Hx') & Hoth).
  destruct (Nat.eqb_spec j i) as [-> | Hne].
  - now rewrite Hx, Hx'.
  - now apply Hoth.
Qed.

Lemma nth_error_combine {A B} (l1 : list A) : forall (l2 : list B) i a b,
  nth_error l1 i = Some a -> nth_error l2 i = Some b ->
  nth_error (combine l1 l2) i = Some (a, b).
Proof.
  induction l1 as [| x l1 IH]; intros [| y l2] [| i] a b Ha Hb;
    simpl in *; try discriminate.
  - now inversion Ha; inversion Hb.
  - now apply IH.
Qed.

Lemma nth_error_map_seq_inv {Y} (g : nat -> Y) n j p :
  nth_error (map g (seq 0 n)) j = Some p -> p = g j.
Proof.
  intros H.
  assert (Hj : j < length (map g (seq 0 n)))
    by (apply nth_error_Some; congruence).
  rewrite length_map, length_seq in Hj.
  rewrite nth_error_map_seq in H by exact Hj. now inversion H.
Qed.

Section GreedyStep.
Context {frame eframe dec logits temperature : Type}.
Variable O : ScoreOps.
Variable K : Torch O logits temperature.
Variable m : Model frame eframe dec logits.

Let C := context_size m.
Let blank := blank_id m.
Let unk := getattr_unk_id m.

(** Row [j] of the three lists is the same in [e] and [e']. *)
Definition row_kept (j : nat) (e e' : GreedyEmit O) : Prop :=
  nth_error (e_hyps e') j = nth_error (e_hyps e) j
  /\ nth_error (e_timestamps e') j = nth_error (e_timestamps e) j
  /\ nth_error (e_scores e') j = nth_error (e_scores e) j.

(** Row [j] of [e'] is row [j] of [e] with the token [v], the frame index
    [t] and the score [p] appended. *)
Definition row_extended (j : nat) (v t : nat) (p : score O)
  (e e' : GreedyEmit O) : Prop :=
  nth_error (e_hyps e') j
  = option_map (fun h => h ++ [Z.of_nat v]) (nth_error (e_hyps e) j)
  /\ nth_error (e_timestamps e') j
     = option_map (fun ts => ts ++ [t]) (nth_error (e_timestamps e) j)
  /\ nth_error (e_scores e') j
     = option_map (fun sc => sc ++ [p]) (nth_error (e_scores e) j).

(** What the loop over [enumerate(y)] does to row [j] for the token [v]. *)
Definition row_step (t : nat) (lp : list (list (score O))) (j v : nat)
  (e e' : GreedyEmit O) : Prop :=
  if not_in_sentinels blank unk (Z.of_nat v) then
    exists row p,
      nth_error lp j = Some row /\ nth_error row v = Some p
      /\ row_extended j v t p e e'
  else row_kept j e e'.

Lemma row_kept_refl j e : row_kept j e e.
Proof. now repeat split. Qed.

Lemma row_kept_trans j e1 e2 e3 :
  row_kept j e1 e2 -> row_kept j e2 e3 -> row_kept j e1 e3.
Proof.
  intros (A1 & A2 & A3) (B1 & B2 & B3). repeat split; congruence.
Qed.

Lemma row_step_kept_after t lp j v e1 e2 e3 :
  row_step t lp j v e1 e2 -> row_kept j e2 e3 -> row_step t lp j v e1 e3.
Proof.
  unfold row_step. destruct (not_in_sentinels blank unk (Z.of_nat v)).
  - intros (row & p & Hr & Hp & A1 & A2 & A3) (B1 & B2 & B3).
    exists row, p. repeat split; auto; congruence.
  - apply row_kept_trans.
Qed.

Lemma row_step_kept_before t lp j v e1 e2 e3 :
  row_kept j e1 e2 -> row_step t lp j v e2 e3 -> row_step t lp j v e1 e3.
Proof.
  unfold row_step. destruct (not_in_sentinels blank unk (Z.of_nat v)).
  - intros (B1 & B2 & B3) (row & p & Hr & Hp & A1 & A2 & A3).
    exists row, p. repeat split; auto; congruence.
  - apply row_kept_trans.
Qed.

Lemma greedy_emit_one_rows t lp i v e e' :
  greedy_emit_one blank unk t lp i v e = Ok e' ->
  row_step t lp i v e e' /\ forall j, j <> i -> row_kept j e e'.
Proof.
  unfold greedy_emit_one, row_step. intros H.
  destruct (not_in_sentinels blank unk (Z.of_nat v)).
  - apply rbind_ok in H as (hs' & Hh & H).
    apply rbind_ok in H as (tss' & Ht & H).
    apply rbind_ok in H as (row & Hr & H).
    apply rbind_ok in H as (p & Hp & H).
    apply rbind_ok in H as (scs' & Hs & H).
    inversion H; subst e'; clear H.
    apply index_ok in Hr. apply index_ok in Hp.
    pose proof (alter_nth _ _ _ _ Hh) as Nh.
    pose proof (alter_nth _ _ _ _ Ht) as Nt.
    pose proof (alter_nth _ _ _ _ Hs) as Ns.
    split.
    + exists row, p. split; [exact Hr |]. split; [exact Hp |].
      unfold row_extended. simpl.
      rewrite Nh, Nt, Ns, Nat.eqb_refl. auto.
    + intros j Hj. unfold row_kept. simpl.
      rewrite Nh, Nt, Ns. apply Nat.eqb_neq in Hj. rewrite Hj. auto.
  - inversion H; subst e'. split; [apply row_kept_refl |].
    intros j _. apply row_kept_refl.
Qed.

Lemma greedy_emit_rows t lp y : forall i0 e e',
  greedy_emit blank unk t lp i0 y e = Ok e' ->
  (forall j, j < i0 \/ i0 + length y <= j -> row_kept j e e')
  /\ (forall k v, nth_error y k = Some v -> row_step t lp (i0 + k) v e e').
Proof.
  induction y as [| v0 y IH]; intros i0 e e' H; simpl in H.
  - inversion H; subst e'. split.
    + intros j _. apply row_kept_refl.
    + intros [| k] v Hk; discriminate.
  - apply rbind_ok in H as (e1 & H1 & H).
    destruct (greedy_emit_one_rows _ _ _ _ _ _ H1) as (Hstep & Hoth).
    destruct (IH _ _ _ H) as (Hkeep & Hsteps).
    split.
    + intros j Hj. simpl in Hj.
      apply (row_kept_trans _ _ e1); [apply Hoth | apply Hkeep]; lia.
    + intros [| k] v Hk; simpl in Hk.
      * inversion Hk; subst v0. rewrite Nat.add_0_r.
        eapply row_step_kept_after; [exact Hstep |]. apply Hkeep. lia.
      * eapply row_step_kept_before; [apply Hoth; lia |].
        replace (i0 + S k) with (S i0 + k) by lia. now apply Hsteps.
Qed.

Lemma greedy_step_rows enc t bs s s' :
  outcome (greedy_step K m blank unk C enc t bs s) = Ok s' ->
  let cur := slice enc (g_offset s) (g_offset s + bs) in
  let e0 := {| e_hyps := g_hyps s; e_timestamps := g_timestamps s;
               e_scores := g_scores s; e_emitted := false |} in
  exists e1,
    g_hyps s' = e_hyps e1 /\ g_timestamps s' = e_timestamps e1
    /\ g_scores s' = e_scores e1
    /\ g_offset s' = g_offset s + bs
    /\ (forall j, length cur <= j -> row_kept j e0 e1)
    /\ (forall i e d,
          nth_error cur i = Some e ->
          nth_error (firstn bs (g_decoder_out s)) i = Some d ->
          exists v,
            argmax O (map (log_softmax K (joiner m e d))
                          (seq 0 (vocab_size m))) = Ok v
            /\ if not_in_sentinels blank unk (Z.of_nat v)
               then row_extended i v t (log_softmax K (joiner m e d) v) e0 e1
               else row_kept i e0 e1).
Proof.
  intros H cur e0. unfold greedy_step in H.
  fold cur in H. fold e0 in H.
  rewrite bind_tell in H. unfold outcome at 1 in H. cbn [snd] in H.
  rewrite outcome_bind, outcome_lift in H.
  apply rbind_ok in H as (lgs & Hz & H).
  rewrite outcome_bind, outcome_lift in H.
  apply rbind_ok in H as (y & Hy & H).
  rewrite outcome_bind, outcome_lift in H.
  apply rbind_ok in H as (e1 & He1 & H).
  exists e1.
  assert (Hs' : g_hyps s' = e_hyps e1 /\ g_timestamps s' = e_timestamps e1
                /\ g_scores s' = e_scores e1
                /\ g_offset s' = g_offset s + bs).
  { destruct (e_emitted e1).
    - rewrite bind_tell in H. unfold outcome at 1 in H. cbn [snd] in H.
      rewrite outcome_ret in H. inversion H; subst s'. simpl. auto.
    - rewrite outcome_ret in H. inversion H; subst s'. simpl. auto. }
  destruct Hs' as (S1 & S2 & S3 & S4).
  do 4 (split; [assumption |]).
  destruct (greedy_emit_rows _ _ _ _ _ _ He1) as (Hkeep & Hsteps).
  pose proof (zip_rows_ok_length _ _ _ _ Hz) as Lz.
  unfold zip_rows in Hz. rewrite Lz, Nat.eqb_refl in Hz.
  inversion Hz; subst lgs; clear Hz.
  pose proof (rmapM_ok_length _ _ _ Hy) as Ly.
  unfold log_softmax_rows in Ly.
  rewrite !length_map, length_combine, <- Lz, Nat.min_id in Ly.
  split.
  - intros j Hj. apply Hkeep. right. simpl. lia.
  - intros i e d Hi Hd.
    pose proof (nth_error_combine _ _ _ _ _ Hi Hd) as Hc.
    assert (Hrow : nth_error
                     (log_softmax_rows K m
                        (map (fun p => joiner m (fst p) (snd p))
                             (combine cur (firstn bs (g_decoder_out s))))) i
                   = Some (map (log_softmax K (joiner m e d))
                               (seq 0 (vocab_size m)))).
    { unfold log_softmax_rows. rewrite !nth_error_map, Hc. reflexivity. }
    destruct (rmapM_ok_nth _ _ _ Hy _ _ Hrow) as (v & Hv & Harg).
    exists v. split; [exact Harg |].
    pose proof (Hsteps _ _ Hv) as Hst. simpl in Hst. unfold row_step in Hst.
    destruct (not_in_sentinels blank unk (Z.of_nat v)); [| exact Hst].
    destruct Hst as (row & p & Hr & Hp & Hext).
    rewrite Hrow in Hr. inversion Hr; subst row; clear Hr.
    apply nth_error_map_seq_inv in Hp. now subst p.
Qed.

End GreedyStep.

(** A successful step of [greedy_search_batch] decides each utterance of the
    batch by itself: for utterance [i], with its frame [e] and its decoder
    output [d], the token [v] is the argmax of the log-softmax of
    [joiner(e, d)]; if [v] is neither blank nor unknown, then [v], the frame
    index [t] and the log-probability of [v] are appended to the three rows
    of the utterance, otherwise the rows stay as they are.  The rows of the
    utterances that have ended are not touched. *)
Theorem greedy_step_appends_the_argmax :
  forall (O : ScoreOps) (frame eframe dec logits temperature : Type)
         (K : Torch O logits temperature)
         (m : Model frame eframe dec logits)
         (enc : list eframe) (t bs : nat) (s s' : @GreedyState dec O)
         (i : nat) (e : eframe) (d : dec),
    outcome (greedy_step K m (blank_id m) (getattr_unk_id m) (context_size m)
               enc t bs s) = Ok s' ->
    nth_error (slice enc (g_offset s) (g_offset s + bs)) i = Some e ->
    nth_error (firstn bs (g_decoder_out s)) i = Some d ->
    (forall j,
       bs <= j ->
       nth_error (g_hyps s') j = nth_error (g_hyps s) j
       /\ nth_error (g_timestamps s') j = nth_error (g_timestamps s) j
       /\ nth_error (g_scores s') j = nth_error (g_scores s) j)
    /\ exists v,
         argmax O (map (log_softmax K (joiner m e d)) (seq 0 (vocab_size m)))
         = Ok v
         /\ if not_in_sentinels (blank_id m) (getattr_unk_id m) (Z.of_nat v)
            then
              nth_error (g_hyps s') i
              = option_map (fun h => h ++ [Z.of_nat v]) (nth_error (g_hyps s) i)
              /\ nth_error (g_timestamps s') i
                 = option_map (fun ts => ts ++ [t])
                              (nth_error (g_timestamps s) i)
              /\ nth_error (g_scores s') i
                 = option_map
                     (fun sc => sc ++ [log_softmax K (joiner m e d) v])
                     (nth_error (g_scores s) i)
            else
              nth_error (g_hyps s') i = nth_error (g_hyps s) i
              /\ nth_error (g_timestamps s') i = nth_error (g_timestamps s) i
              /\ nth_error (g_scores s') i = nth_error (g_scores s) i.
Proof.
  intros O frame eframe dec logits temperature K m enc t bs s s' i e d
         H Hi Hd.
  destruct (greedy_step_rows O K m _ _ _ _ _ H)
    as (e1 & S1 & S2 & S3 & _ & Hkeep & Hrow).
  rewrite S1, S2, S3. split.
  - intros j Hj. apply Hkeep.
    unfold slice. rewrite length_firstn. lia.
  - destruct (Hrow _ _ _ Hi Hd) as (v & Hv & Hst).
    exists v. split; [exact Hv |].
    destruct (not_in_sentinels (blank_id m) (getattr_unk_id m) (Z.of_nat v));
      exact Hst.
Qed.

(** The first step of the greedy search on one utterance of the network of
    the sample runs: the token 2 is emitted at frame 0. *)
Definition scenario_step_before : @GreedyState (list Z) LogQ :=
  @Build_GreedyState (list Z) LogQ 0 [[-1; 0]%Z] [[]] [[]] [[-1; 0]%Z].

Definition scenario_step_after : @GreedyState (list Z) LogQ :=
  @Build_GreedyState (list Z) LogQ 1 [[-1; 0; 2]%Z] [[0]] [[6 # 10]%Q]
    [[0; 2]%Z].

Example scenario_step :
  outcome (greedy_step TorchQ_first scenario_model (blank_id scenario_model)
             (getattr_unk_id scenario_model) (context_size scenario_model)
             [0; 1; 2] 0 1 scenario_step_before)
  = Ok scenario_step_after.
Proof. reflexivity. Qed.

Lemma greedy_step_appends_the_argmax_witness :
  nth_error (g_hyps scenario_step_after) 0 = Some [-1; 0; 2]%Z
  /\ nth_error (g_timestamps scenario_step_after) 0 = Some [0]
  /\ nth_error (g_scores scenario_step_after) 0 = Some [6 # 10]%Q.
Proof.
  destruct (greedy_step_appends_the_argmax LogQ _ _ _ _ _
              TorchQ_first scenario_model [0; 1; 2] 0 1
              scenario_step_before scenario_step_after 0 0 [-1; 0]%Z
              scenario_step eq_refl eq_refl)
    as (_ & v & Hv & Hst).
  inversion Hv; subst v. exact Hst.
Defined.

(** ** The order of the returned rows *)

Lemma length_scatter_at {A} (v : A) : forall l i,
  length (scatter_at i v l) = length l.
Proof.
  induction l as [| x l IH]; intros [| i]; simpl; auto.
Qed.

Lemma nth_error_scatter_at_eq {A} (v : A) : forall l i,
  i < length l -> nth_error (scatter_at i v l) i = Some v.
Proof.
  induction l as [| x l IH]; intros [| i] Hi; simpl in *; try lia; auto.
  apply IH. lia.
Qed.

Lemma nth_error_scatter_at_neq {A} (v : A) : forall l i j,
  j <> i -> nth_error (scatter_at i v l) j = nth_error l j.
Proof.
  induction l as [| x l IH]; intros [| i] [| j] Hj; simpl; auto;
    try contradiction.
Qed.

Lemma scatter_fold_length (items : list (nat * nat)) : forall out,
  length (fold_left (fun out ip => scatter_at (snd ip) (fst ip) out) items out)
  = length out.
Proof.
  induction items as [| [k i] items IH]; intros out; simpl; auto.
  now rewrite IH, length_scatter_at.
Qed.

Lemma scatter_fold_keeps (items : list (nat * nat)) : forall out j,
  ~ In j (map snd items) ->
  nth_error (fold_left (fun out ip => scatter_at (snd ip) (fst ip) out)
               items out) j
  = nth_error out j.
Proof.
  induction items as [| [k i] items IH]; intros out j Hj; simpl in *; auto.
  rewrite IH by (intros Hin; apply Hj; auto).
  apply nth_error_scatter_at_neq. intros ->. apply Hj. auto.
Qed.

Lemma scatter_fold_spec (items : list (nat * nat)) : forall out,
  NoDup (map snd items) ->
  (forall k i, In (k, i) items -> i < length out) ->
  forall k i, In (k, i) items ->
    nth_error (fold_left (fun out ip => scatter_at (snd ip) (fst ip) out)
                 items out) i
    = Some k.
Proof.
  induction items as [| [k0 i0] items IH]; intros out Hnd Hlt k i Hin;
    simpl in *; [contradiction |].
  inversion Hnd as [| ? ? Hnot Hnd']; subst.
  destruct Hin as [E | Hin].
  - inversion E; subst k0 i0. rewrite scatter_fold_keeps by exact Hnot.
    apply nth_error_scatter_at_eq. apply (Hlt k i). auto.
  - apply IH; auto. intros k' i' H'. rewrite length_scatter_at.
    apply (Hlt k' i'). auto.
Qed.

Lemma In_enumerate_from {A} (l : list A) : forall r k x,
  nth_error l k = Some x -> In (r + k, x) (enumerate_from r l).
Proof.
  intros r k x H. eapply nth_error_In.
  apply nth_error_enumerate_from. exact H.
Qed.

(** [invert_permutation] of a list without repetitions whose entries are
    valid indices: the entry [i] of the result is the position of [i]. *)
Lemma invert_permutation_spec (p : list nat) :
  NoDup p ->
  (forall i, In i p -> i < length p) ->
  forall k i, nth_error p k = Some i ->
    nth_error (invert_permutation p) i = Some k.
Proof.
  intros Hnd Hlt k i Hk. unfold invert_permutation.
  apply scatter_fold_spec.
  - pose proof (map_snd_enumerate_from (fun x : nat => x) p 0) as E.
    rewrite map_id in E. unfold snd in *. now rewrite E.
  - intros k' i' Hin. rewrite repeat_length. apply Hlt.
    apply (in_map snd) in Hin. simpl in Hin.
    pose proof (map_snd_enumerate_from (fun x : nat => x) p 0) as E.
    rewrite map_id in E. unfold snd in *. now rewrite E in Hin.
  - exact (In_enumerate_from p 0 k i Hk).
Qed.

Lemma pack_indices {frame} sort_desc (input : list (nat -> frame))
  lengths packed :
  pack_padded_sequence sort_desc input lengths = Ok packed ->
  sorted_indices packed = sort_desc lengths
  /\ unsorted_indices packed = invert_permutation (sort_desc lengths)
  /\ forall k i, nth_error (sort_desc lengths) k = Some i -> i < length input.
Proof.
  unfold pack_padded_sequence. intros H.
  apply rbind_ok in H as (sl & _ & H).
  apply rbind_ok in H as (si & Hsi & H).
  destruct (rev sl) as [| shortest rest]; [discriminate |].
  destruct (0 <? shortest)%Z; [| discriminate].
  inversion H; subst packed; clear H. simpl.
  split; [reflexivity |]. split; [reflexivity |].
  intros k i Hk.
  destruct (rmapM_ok_nth _ _ _ Hsi _ _ Hk) as (y & _ & Hy).
  apply index_ok in Hy. apply nth_error_Some. congruence.
Qed.

(** The loop [for i in range(N): ans.append(sorted_ans[unsorted_indices[i]])]
    at the end of both decoders undoes the sorting by length: when the sort
    returns a permutation of the indices of the batch, the row that was
    decoded at the sorted position [k] is returned at the position
    [sorted_indices[k]], the place of its utterance in the batch. *)
Theorem unsort_restores_the_order_of_the_batch :
  forall (frame A : Type) (sort_desc : list Z -> list nat)
         (encoder_out : list (nat -> frame)) (encoder_out_lens : list Z)
         (packed : PackedSequence frame) (sorted ans : list A),
    Permutation (sort_desc encoder_out_lens)
                (seq 0 (length encoder_out_lens)) ->
    pack_padded_sequence sort_desc encoder_out encoder_out_lens = Ok packed ->
    unsort (length encoder_out) (unsorted_indices packed) sorted = Ok ans ->
    forall k i,
      nth_error (sorted_indices packed) k = Some i ->
      exists a, nth_error ans i = Some a /\ nth_error sorted k = Some a.
Proof.
  intros frame A sort_desc enc lens packed sorted ans Hperm Hpack Hun k i Hk.
  destruct (pack_indices _ _ _ _ Hpack) as (Es & Eu & Hlt).
  rewrite Es in Hk. rewrite Eu in Hun.
  apply unsort_ok in Hun as [Lans Hans].
  assert (Hi : i < length ans) by (rewrite Lans; eauto).
  destruct (nth_error ans i) as [a |] eqn:Ea;
    [| apply nth_error_None in Ea; lia].
  exists a. split; [reflexivity |].
  destruct (Hans _ _ Ea) as (j & Hj & Hsorted).
  assert (Hinv : nth_error (invert_permutation (sort_desc lens)) i = Some k).
  { apply invert_permutation_spec; [| | exact Hk].
    - apply (Permutation_NoDup (Permutation_sym Hperm)), seq_NoDup.
    - intros x Hx. rewrite (Permutation_length Hperm), length_seq.
      apply (Permutation_in _ Hperm) in Hx. apply in_seq in Hx. lia. }
  congruence.
Qed.

(** The batch of the sample runs, packed: the utterance 2 is the longest. *)
Definition scenario_packed : PackedSequence nat :=
  {| data := [0; 0; 0; 1; 1; 2]; batch_sizes := [3; 2; 1];
     sorted_indices := [2; 0; 1]; unsorted_indices := [1; 2; 0] |}.

Example scenario_pack :
  pack_padded_sequence sort_descending_stable scenario_batch scenario_lens
  = Ok scenario_packed.
Proof. reflexivity. Qed.

Lemma unsort_restores_the_order_of_the_batch_witness :
  exists a,
    nth_error (hyps scenario_greedy_result) 2 = Some a
    /\ nth_error [[2; 3]; [2]; [2]]%Z 0 = Some a.
Proof.
  apply (unsort_restores_the_order_of_the_batch nat (list Z)
           sort_descending_stable scenario_batch scenario_lens
           scenario_packed [[2; 3]; [2]; [2]]%Z
           (hyps scenario_greedy_result)).
  - apply (perm_trans (l' := [0; 2; 1])).
    + apply perm_swap.
    + apply perm_skip, perm_swap.
  - exact scenario_pack.
  - reflexivity.
  - reflexivity.
Defined.

(** ** Each utterance by itself *)

Lemma slice_map {A B} (f : A -> B) (l : list A) a b :
  slice (map f l) a b = map f (slice l a b).
Proof. unfold slice. now rewrite skipn_map, firstn_map. Qed.

Lemma nth_error_firstn_lt {A} (l : list A) : forall n i,
  i < n -> nth_error (firstn n l) i = nth_error l i.
Proof.
  induction l as [| x l IH]; intros [| n] [| i] H; simpl; try lia; auto.
  apply IH. lia.
Qed.

Lemma nth_error_firstn_some {A} (l : list A) : forall n i x,
  nth_error (firstn n l) i = Some x -> nth_error l i = Some x.
Proof.
  induction l as [| y l IH]; intros [| n] [| i] x H; simpl in *;
    try discriminate; auto.
  eapply IH; eauto.
Qed.

(** Lengths in decreasing order, the longest first. *)
Definition descending (l : list Z) : Prop :=
  StronglySorted (fun a b => (b <= a)%Z) l.

(** What the decoders need of the sort of [pack_padded_sequence]: it returns
    every index of the batch once, the longest utterance first. *)
Definition sorts_descending (sort_desc : list Z -> list nat) (lens : list Z)
  : Prop :=
  Permutation (sort_desc lens) (seq 0 (length lens))
  /\ forall sl, rmapM (index lens) (sort_desc lens) = Ok sl -> descending sl.

Lemma count_longer_le sl t : count_longer sl t <= length sl.
Proof. unfold count_longer. apply filter_length_le. Qed.

Lemma count_longer_none sl t x :
  Forall (fun l => (l <= x)%Z) sl -> (x <= Z.of_nat t)%Z ->
  count_longer sl t = 0.
Proof.
  unfold count_longer. induction 1 as [| l sl Hl _ IH]; intros Hx; simpl; auto.
  destruct (Z.ltb_spec (Z.of_nat t) l); [lia | auto].
Qed.

(** In a descending list the utterances that are longer than [t] are the
    first [count_longer sl t]. *)
Lemma count_longer_prefix sl :
  descending sl ->
  forall k lk t,
    nth_error sl k = Some lk ->
    (k < count_longer sl t <-> (Z.of_nat t < lk)%Z).
Proof.
  induction 1 as [| x sl Hs IH Hx]; intros k lk t Hk.
  - destruct k; discriminate.
  - assert (Ec : count_longer (x :: sl) t
                 = (if (Z.of_nat t <? x)%Z then 1 else 0) + count_longer sl t).
    { unfold count_longer. simpl. now destruct (Z.of_nat t <? x)%Z. }
    rewrite Ec. destruct (Z.ltb_spec (Z.of_nat t) x) as [Hlt | Hge].
    + destruct k as [| k]; simpl in Hk.
      * inversion Hk; subst lk. split; [auto | lia].
      * rewrite <- (IH _ _ t Hk). simpl. lia.
    + rewrite (count_longer_none sl t x Hx Hge).
      assert (lk <= x)%Z.
      { destruct k as [| k]; simpl in Hk.
        - inversion Hk. lia.
        - rewrite Forall_forall in Hx. apply Hx.
          eapply nth_error_In; eauto. }
      simpl. split; lia.
Qed.

Lemma descending_hd sl k l :
  descending sl -> nth_error sl k = Some l -> (l <= hd 0%Z sl)%Z.
Proof.
  intros Hs Hk. destruct Hs as [| x sl Hs Hx]; [destruct k; discriminate |].
  destruct k as [| k]; simpl in *.
  - inversion Hk. lia.
  - rewrite Forall_forall in Hx. apply Hx. eapply nth_error_In; eauto.
Qed.

(** The layout of a packed batch: the frames of the time step [t] are the
    frames [t] of the first [batch_sizes[t]] utterances in sorted order, and
    they start where the frames of the earlier time steps end. *)
Lemma pack_layout {frame} sort_desc (input : list (nat -> frame))
  lengths packed :
  pack_padded_sequence sort_desc input lengths = Ok packed ->
  exists sl si,
    rmapM (index lengths) (sort_desc lengths) = Ok sl
    /\ rmapM (index input) (sort_desc lengths) = Ok si
    /\ length (batch_sizes packed) = Z.to_nat (hd 0%Z sl)
    /\ forall t bs,
         nth_error (batch_sizes packed) t = Some bs ->
         bs = count_longer sl t
         /\ bs <= length si
         /\ slice (data packed)
                  (list_sum (firstn t (batch_sizes packed)))
                  (list_sum (firstn t (batch_sizes packed)) + bs)
            = map (fun row => row t) (firstn bs si).
Proof.
  unfold pack_padded_sequence. intros H.
  apply rbind_ok in H as (sl & Hsl & H).
  apply rbind_ok in H as (si & Hsi & H).
  destruct (rev sl) as [| shortest rest]; [discriminate |].
  destruct (0 <? shortest)%Z; [| discriminate].
  inversion H; subst packed; clear H. simpl.
  exists sl, si. split; [exact Hsl |]. split; [exact Hsi |].
  split; [now rewrite length_map, length_seq |].
  set (T := Z.to_nat (hd 0%Z sl)).
  set (f := fun t => map (fun row : nat -> frame => row t)
                         (firstn (count_longer sl t) si)).
  assert (Llen : length sl = length si).
  { apply rmapM_ok_length in Hsl. apply rmapM_ok_length in Hsi. congruence. }
  assert (Eblocks : map (@length frame) (map f (seq 0 T))
                    = map (count_longer sl) (seq 0 T)).
  { rewrite map_map. apply map_ext. intros t. unfold f.
    rewrite length_map, length_firstn.
    pose proof (count_longer_le sl t). lia. }
  intros t bs Ht.
  assert (HtT : t < T).
  { rewrite <- (length_seq T 0), <- (length_map (count_longer sl)).
    apply nth_error_Some. congruence. }
  assert (Ebs : bs = count_longer sl t).
  { rewrite nth_error_map, nth_error_seq in Ht.
    destruct (Nat.ltb_spec t T); [| lia]. simpl in Ht. now inversion Ht. }
  split; [exact Ebs |].
  split; [pose proof (count_longer_le sl t); lia |].
  rewrite <- (list_sum_firstn_succ _ _ _ Ht).
  rewrite <- Eblocks, !firstn_map.
  rewrite <- !(firstn_map f).
  change (concat (map (fun t0 => map (fun row : nat -> frame => row t0)
                                     (firstn (count_longer sl t0) si))
                      (seq 0 T)))
    with (concat (map f (seq 0 T))).
  rewrite (slice_concat_block (map f (seq 0 T)) t (f t)).
  - unfold f. now rewrite Ebs.
  - rewrite nth_error_map, nth_error_seq.
    destruct (Nat.ltb_spec t T); [reflexivity | lia].
Qed.

Lemma greedy_step_decoder_out {frame eframe dec logits temperature} O
  (K : Torch O logits temperature) (m : Model frame eframe dec logits)
  enc t bs (s s' : @GreedyState dec O) :
  outcome (greedy_step K m (blank_id m) (getattr_unk_id m) (context_size m)
             enc t bs s) = Ok s' ->
  length (slice enc (g_offset s) (g_offset s + bs))
  = length (firstn bs (g_decoder_out s))
  /\ (g_decoder_out s'
      = map (decoder m)
            (map (last_n (context_size m)) (firstn bs (g_hyps s')))
      \/ (g_decoder_out s' = firstn bs (g_decoder_out s)
          /\ g_hyps s' = g_hyps s)).
Proof.
  unfold greedy_step. rewrite bind_tell.
  unfold outcome at 1. cbn [snd].
  rewrite bind_lift.
  destruct (zip_rows _ _ _) as [lgs | err] eqn:Ez; [| discriminate].
  apply zip_rows_ok_length in Ez.
  rewrite bind_lift.
  destruct (rmapM (argmax O) _) as [y | err]; [| discriminate].
  rewrite bind_lift.
  destruct (greedy_emit _ _ _ _ _ _ _) as [e1 | err] eqn:He1;
    [| discriminate].
  destruct (greedy_emit_emitted _ _ _ _ _ _ _ _ He1) as (_ & Hsame & _).
  destruct (e_emitted e1) eqn:Eem.
  - rewrite bind_tell. simpl. intros H. inversion H; subst s'; clear H.
    simpl. auto.
  - simpl. intros H. inversion H; subst s'; clear H. simpl.
    split; [exact Ez |]. right. now rewrite (Hsame eq_refl).
Qed.

Section GreedyAlone.
Context {frame eframe dec logits temperature : Type}.
Variable O : ScoreOps.
Variable K : Torch O logits temperature.
Variable m : Model frame eframe dec logits.

Let C := context_size m.
Let blank := blank_id m.
Let unk := getattr_unk_id m.

(** The three sequences of one utterance during the greedy search. *)
Record GreedyRow : Type := {
  r_hyp : list Z;
  r_timestamps : list nat;
  r_scores : list (score O)
}.

Definition greedy_row_start : GreedyRow :=
  {| r_hyp := repeat (-1)%Z (C - 1) ++ [blank];
     r_timestamps := [];
     r_scores := [] |}.

(** The greedy search on one utterance, at the frame [e] of the time step
    [t]: the decoder reads the last [context_size] tokens, and the most
    probable token is appended unless it is the blank or the unknown
    token. *)
Definition greedy_row_step (t : nat) (e : eframe) (r : GreedyRow)
  : result GreedyRow :=
  let d := decoder m (last_n C (r_hyp r)) in
  rbind (argmax O (map (log_softmax K (joiner m e d))
                       (seq 0 (vocab_size m)))) (fun v =>
  if not_in_sentinels blank unk (Z.of_nat v) then
    Ok {| r_hyp := r_hyp r ++ [Z.of_nat v];
          r_timestamps := r_timestamps r ++ [t];
          r_scores := r_scores r ++ [log_softmax K (joiner m e d) v] |}
  else Ok r).

(** The same over the [n] frames from [t0] on. *)
Fixpoint greedy_row_run (frames : nat -> eframe) (t0 n : nat) (r : GreedyRow)
  : result GreedyRow :=
  match n with
  | 0 => Ok r
  | S n' =>
      rbind (greedy_row_step t0 (frames t0) r)
            (greedy_row_run frames (S t0) n')
  end.

Lemma greedy_row_run_snoc frames : forall n t0 r,
  greedy_row_run frames t0 (S n) r
  = rbind (greedy_row_run frames t0 n r)
          (greedy_row_step (t0 + n) (frames (t0 + n))).
Proof.
  induction n as [| n IH]; intros t0 r.
  - simpl. rewrite Nat.add_0_r.
    destruct (greedy_row_step t0 (frames t0) r); reflexivity.
  - change (greedy_row_run frames t0 (S (S n)) r)
      with (rbind (greedy_row_step t0 (frames t0) r)
                  (greedy_row_run frames (S t0) (S n))).
    change (greedy_row_run frames t0 (S n) r)
      with (rbind (greedy_row_step t0 (frames t0) r)
                  (greedy_row_run frames (S t0) n)).
    destruct (greedy_row_step t0 (frames t0) r) as [r1 | err];
      [| reflexivity].
    change (greedy_row_run frames (S t0) (S n) r1
            = rbind (greedy_row_run frames (S t0) n r1)
                    (greedy_row_step (t0 + S n) (frames (t0 + S n)))).
    rewrite IH. now replace (S t0 + n) with (t0 + S n) by lia.
Qed.

Lemma last_n_start : last_n C (r_hyp greedy_row_start) = r_hyp greedy_row_start.
Proof.
  unfold last_n. simpl. destruct (Nat.eqb_spec C 0) as [E | E]; auto.
  rewrite length_app, repeat_length. simpl.
  replace (C - 1 + 1 - C) with 0 by lia. reflexivity.
Qed.

(** Row [k] of the state [s] holds the sequences [r]. *)
Definition row_is (s : @GreedyState dec O) (k : nat) (r : GreedyRow) : Prop :=
  nth_error (g_hyps s) k = Some (r_hyp r)
  /\ nth_error (g_timestamps s) k = Some (r_timestamps r)
  /\ nth_error (g_scores s) k = Some (r_scores r).

(** Before the time step [t] of the batch, every row holds what the search
    on its utterance alone gives after the frames that the utterance has
    below [t], and the decoder outputs belong to the rows. *)
Definition alone_inv (sizes : list nat) (sl : list Z)
  (si : list (nat -> frame)) (t : nat) (s : @GreedyState dec O) : Prop :=
  g_offset s = list_sum (firstn t sizes)
  /\ (forall k rowk lk,
        nth_error si k = Some rowk ->
        nth_error sl k = Some lk ->
        exists r,
          greedy_row_run (fun t' => encoder_proj m (rowk t')) 0
            (Nat.min t (Z.to_nat lk)) greedy_row_start = Ok r
          /\ row_is s k r)
  /\ (forall k d,
        nth_error (g_decoder_out s) k = Some d ->
        exists h, nth_error (g_hyps s) k = Some h
                  /\ d = decoder m (last_n C h)).

Lemma alone_step (data : list frame) sizes sl si t bs s s' :
  descending sl ->
  (forall t bs,
     nth_error sizes t = Some bs ->
     bs = count_longer sl t
     /\ bs <= length si
     /\ slice data (list_sum (firstn t sizes))
                   (list_sum (firstn t sizes) + bs)
        = map (fun row => row t) (firstn bs si)) ->
  alone_inv sizes sl si t s ->
  nth_error sizes t = Some bs ->
  outcome (greedy_step K m blank unk C (map (encoder_proj m) data) t bs s)
  = Ok s' ->
  alone_inv sizes sl si (S t) s'.
Proof.
  intros Hdesc Hframes (Hoff & Hrows & Hdec) Hbs H.
  destruct (greedy_step_rows O K m _ _ _ _ _ H)
    as (e1 & S1 & S2 & S3 & S4 & Hkeep & Hrow).
  destruct (greedy_step_decoder_out O K m _ _ _ _ _ H) as (Lzip & Hd').
  destruct (Hframes t bs Hbs) as (Ebs & Hle & Hcur).
  assert (Ecur : slice (map (encoder_proj m) data) (g_offset s)
                   (g_offset s + bs)
                 = map (encoder_proj m)
                       (map (fun row => row t) (firstn bs si)))
    by (rewrite Hoff, slice_map, Hcur; reflexivity).
  rewrite Ecur in Hkeep, Hrow, Lzip.
  assert (Lcur : length (map (encoder_proj m)
                           (map (fun row : nat -> frame => row t)
                                (firstn bs si))) = bs)
    by (rewrite !length_map, length_firstn; lia).
  rewrite Lcur in Hkeep, Lzip.
  split; [| split].
  - rewrite S4, Hoff. symmetry. now apply list_sum_firstn_succ.
  - intros k rowk lk Hk Hlk.
    destruct (Hrows k rowk lk Hk Hlk) as (r & Hrun & Hh & Ht & Hs).
    destruct (Nat.lt_ge_cases k bs) as [Hact | Hina].
    + assert (Hlong : (Z.of_nat t < lk)%Z).
      { apply (count_longer_prefix sl Hdesc k lk t Hlk). now rewrite <- Ebs. }
      rewrite Nat.min_l in Hrun by lia.
      rewrite (Nat.min_l (S t)) by lia.
      assert (Hek : nth_error (map (encoder_proj m)
                                 (map (fun row : nat -> frame => row t)
                                      (firstn bs si))) k
                    = Some (encoder_proj m (rowk t))).
      { rewrite !nth_error_map, nth_error_firstn_lt by exact Hact.
        now rewrite Hk. }
      destruct (nth_error (firstn bs (g_decoder_out s)) k) as [d |] eqn:Ed;
        [| apply nth_error_None in Ed; lia].
      destruct (Hdec k d (nth_error_firstn_some _ _ _ _ Ed))
        as (h & Hh' & ->).
      assert (h = r_hyp r) by congruence. subst h.
      destruct (Hrow _ _ _ Hek Ed) as (v & Harg & Hst).
      rewrite greedy_row_run_snoc, Hrun. simpl.
      unfold greedy_row_step. fold C blank unk.
      rewrite Harg. simpl.
      unfold row_is. rewrite S1, S2, S3.
      unfold blank, unk in *.
      destruct (not_in_sentinels (blank_id m) (getattr_unk_id m)
                  (Z.of_nat v)).
      * eexists. split; [reflexivity |].
        unfold row_extended in Hst.
        destruct Hst as (E1 & E2 & E3). simpl in *.
        rewrite E1, E2, E3, Hh, Ht, Hs. simpl. auto.
      * exists r. split; [reflexivity |].
        unfold row_kept in Hst.
        destruct Hst as (E1 & E2 & E3). simpl in *.
        rewrite E1, E2, E3. auto.
    + assert (Hshort : ~ (Z.of_nat t < lk)%Z).
      { intros Hlong.
        apply (count_longer_prefix sl Hdesc k lk t Hlk) in Hlong. lia. }
      assert (Emin : Nat.min (S t) (Z.to_nat lk) = Nat.min t (Z.to_nat lk))
        by lia.
      rewrite Emin. exists r. split; [exact Hrun |].
      pose proof (Hkeep k Hina) as Hst. unfold row_kept in Hst.
      destruct Hst as (E1 & E2 & E3). simpl in *.
      unfold row_is. rewrite S1, S2, S3, E1, E2, E3. auto.
  - intros k d Hd. destruct Hd' as [E | [E Eh]].
    + rewrite E, !nth_error_map in Hd.
      destruct (nth_error (firstn bs (g_hyps s')) k) as [h |] eqn:Eh;
        [| discriminate].
      exists h. split; [now apply nth_error_firstn_some in Eh |].
      simpl in Hd. now inversion Hd.
    + rewrite E in Hd. apply nth_error_firstn_some in Hd.
      rewrite Eh. now apply Hdec.
Qed.

Lemma alone_loop (data : list frame) sizes sl si l : forall t0 s s',
  descending sl ->
  (forall t bs,
     nth_error sizes t = Some bs ->
     bs = count_longer sl t
     /\ bs <= length si
     /\ slice data (list_sum (firstn t sizes))
                   (list_sum (firstn t sizes) + bs)
        = map (fun row => row t) (firstn bs si)) ->
  alone_inv sizes sl si t0 s ->
  (forall k, nth_error l k = nth_error sizes (t0 + k)) ->
  rfor_enumerate
    (fun t bs s =>
       outcome (greedy_step K m blank unk C (map (encoder_proj m) data)
                  t bs s))
    t0 l s = Ok s' ->
  alone_inv sizes sl si (t0 + length l) s'.
Proof.
  induction l as [| bs l IH]; intros t0 s s' Hdesc Hframes Hinv Hsizes H;
    simpl in H.
  - inversion H; subst s'. simpl. now rewrite Nat.add_0_r.
  - apply rbind_ok in H as (s1 & H1 & H).
    assert (Hbs : nth_error sizes t0 = Some bs).
    { rewrite <- (Nat.add_0_r t0). now rewrite <- Hsizes. }
    simpl. replace (t0 + S (length l)) with (S t0 + length l) by lia.
    apply (IH (S t0) s1 s' Hdesc Hframes).
    + eapply alone_step; eauto.
    + intros k. replace (S t0 + k) with (t0 + S k) by lia.
      apply (Hsizes (S k)).
    + exact H.
Qed.

End GreedyAlone.

Lemma unsort_row {A} N u (sorted ans : list A) i k a :
  unsort N u sorted = Ok ans ->
  i < N ->
  nth_error u i = Some k ->
  nth_error sorted k = Some a ->
  nth_error ans i = Some a.
Proof.
  intros H Hi Hu Hs. apply unsort_ok in H as [L H].
  destruct (nth_error ans i) as [b |] eqn:Eb;
    [| apply nth_error_None in Eb; lia].
  destruct (H _ _ Eb) as (j & Hj & Hb). congruence.
Qed.

(** The rows that [greedy_search_batch] returns are those of the search on
    each utterance alone. *)
Lemma greedy_rows_alone {frame eframe dec logits temperature} O
  (K : Torch O logits temperature) (m : Model frame eframe dec logits)
  (enc : list (nat -> frame)) (lens : list Z) res :
  sorts_descending (sort_descending K) lens ->
  outcome (greedy_search_batch K m enc lens) = Ok res ->
  forall i frames l,
    nth_error enc i = Some frames ->
    nth_error lens i = Some l ->
    exists r,
      greedy_row_run O K m (fun t => encoder_proj m (frames t)) 0
        (Z.to_nat l) (greedy_row_start O m) = Ok r
      /\ nth_error (hyps res) i = Some (skipn (context_size m) (r_hyp O r))
      /\ nth_error (timestamps res) i = Some (r_timestamps O r)
      /\ nth_error (scores res) i = Some (r_scores O r).
Proof.
  intros [Hperm Hdesc] H i frames l Hi Hl.
  destruct (greedy_search_batch_inv _ _ _ _ _ _ H)
    as (packed & s & Hpack & Hloop & Hh & Ht & Hs).
  destruct (pack_layout _ _ _ _ Hpack) as (sl & si & Hsl & Hsi & HT & Hframes).
  destruct (pack_indices _ _ _ _ Hpack) as (_ & Eu & Hlt).
  specialize (Hdesc sl Hsl).
  set (p := sort_descending K lens) in *.
  assert (Hnd : NoDup p)
    by (apply (Permutation_NoDup (Permutation_sym Hperm)), seq_NoDup).
  assert (Hbound : forall x, In x p -> x < length p).
  { intros x Hx. rewrite (Permutation_length Hperm), length_seq.
    apply (Permutation_in _ Hperm) in Hx. apply in_seq in Hx. lia. }
  assert (Hin : In i p).
  { apply (Permutation_in _ (Permutation_sym Hperm)). apply in_seq.
    assert (i < length lens) by (apply nth_error_Some; congruence). lia. }
  apply In_nth_error in Hin as (k & Hk).
  destruct (rmapM_ok_nth _ _ _ Hsl _ _ Hk) as (lk & Hlk & Elk).
  destruct (rmapM_ok_nth _ _ _ Hsi _ _ Hk) as (rowk & Hrowk & Erow).
  apply index_ok in Elk. apply index_ok in Erow.
  assert (lk = l) by congruence. assert (rowk = frames) by congruence.
  subst lk rowk.
  assert (Lsi : length si <= length enc).
  { apply rmapM_ok_length in Hsi. rewrite Hsi.
    destruct (length p) as [| n] eqn:En; [lia |].
    assert (Hlast : In n p).
    { apply (Permutation_in _ (Permutation_sym Hperm)). apply in_seq.
      pose proof (Permutation_length Hperm) as HL.
      rewrite length_seq in HL. lia. }
    apply In_nth_error in Hlast as (k' & Hk').
    specialize (Hlt _ _ Hk'). lia. }
  assert (Hinit : alone_inv O K m (batch_sizes packed) sl si 0
                    {| g_offset := 0;
                       g_hyps :=
                         repeat (repeat (-1)%Z (context_size m - 1)
                                 ++ [blank_id m]) (length enc);
                       g_timestamps := repeat [] (length enc);
                       g_scores := repeat [] (length enc);
                       g_decoder_out :=
                         map (decoder m)
                             (repeat (repeat (-1)%Z (context_size m - 1)
                                      ++ [blank_id m]) (length enc)) |}).
  { split; [reflexivity | split].
    - intros k0 row0 l0 Hk0 _. simpl.
      exists (greedy_row_start O m). split; [reflexivity |].
      assert (k0 < length enc).
      { assert (k0 < length si) by (apply nth_error_Some; congruence). lia. }
      unfold row_is. simpl. rewrite !nth_error_repeat by assumption. auto.
    - intros k0 d Hd. simpl in *. rewrite nth_error_map in Hd.
      destruct (nth_error (repeat _ (length enc)) k0) as [h |] eqn:Eh;
        [| discriminate].
      exists h. split; [reflexivity |]. simpl in Hd.
      inversion Hd as [Ed]. clear Hd Ed.
      apply nth_error_In, repeat_spec in Eh. subst h.
      f_equal. symmetry. exact (last_n_start O m). }
  pose proof (alone_loop O K m (data packed) (batch_sizes packed) sl si
                (batch_sizes packed) 0 _ _ Hdesc Hframes Hinit
                (fun k => eq_refl) Hloop) as (_ & Hrows & _).
  destruct (Hrows k frames l Hrowk Hlk) as (r & Hrun & R1 & R2 & R3).
  simpl in Hrun. rewrite HT in Hrun.
  pose proof (descending_hd sl k l Hdesc Hlk) as Hhd.
  rewrite Nat.min_r in Hrun by lia.
  assert (HiN : i < length enc) by (apply nth_error_Some; congruence).
  assert (Hu : nth_error (unsorted_indices packed) i = Some k)
    by (rewrite Eu; now apply invert_permutation_spec).
  exists r. split; [exact Hrun |].
  split; [| split].
  - apply (unsort_row _ _ _ _ _ _ _ Hh HiN Hu).
    now rewrite nth_error_map, R1.
  - exact (unsort_row _ _ _ _ _ _ _ Ht HiN Hu R2).
  - exact (unsort_row _ _ _ _ _ _ _ Hs HiN Hu R3).
Qed.

(** [greedy_search_batch] decodes every utterance by itself: when the sort
    of the lengths puts every utterance of the batch once and the longest
    first, the three rows that are returned for the utterance [i] are those
    of the greedy search on that utterance alone, over its valid frames:
    they depend on nothing else in the batch. *)
Theorem greedy_search_decodes_each_utterance_alone :
  forall (O : ScoreOps) (frame eframe dec logits temperature : Type)
         (K : Torch O logits temperature)
         (m : Model frame eframe dec logits)
         (encoder_out : list (nat -> frame)) (encoder_out_lens : list Z)
         (res : DecodingResults O),
    sorts_descending (sort_descending K) encoder_out_lens ->
    outcome (greedy_search_batch K m encoder_out encoder_out_lens) = Ok res ->
    forall i frames l,
      nth_error encoder_out i = Some frames ->
      nth_error encoder_out_lens i = Some l ->
      exists r,
        greedy_row_run O K m (fun t => encoder_proj m (frames t)) 0
          (Z.to_nat l) (greedy_row_start O m) = Ok r
        /\ nth_error (hyps res) i = Some (skipn (context_size m) (r_hyp O r))
        /\ nth_error (timestamps res) i = Some (r_timestamps O r)
        /\ nth_error (scores res) i = Some (r_scores O r).
Proof.
  intros O frame eframe dec logits temperature K m enc lens res.
  apply greedy_rows_alone.
Qed.

Lemma scenario_sort : sorts_descending sort_descending_stable scenario_lens.
Proof.
  split.
  - apply (perm_trans (l' := [0; 2; 1])).
    + apply perm_swap.
    + apply perm_skip, perm_swap.
  - intros sl H. inversion H; subst sl.
    repeat constructor; lia.
Qed.

Lemma greedy_search_decodes_each_utterance_alone_witness :
  exists r,
    greedy_row_run LogQ TorchQ_first scenario_model
      (fun t => encoder_proj scenario_model t) 0 (Z.to_nat 3)
      (greedy_row_start LogQ scenario_model) = Ok r
    /\ nth_error (hyps scenario_greedy_result) 2
       = Some (skipn (context_size scenario_model) (r_hyp LogQ r))
    /\ nth_error (timestamps scenario_greedy_result) 2
       = Some (r_timestamps LogQ r)
    /\ nth_error (scores scenario_greedy_result) 2 = Some (r_scores LogQ r).
Proof.
  apply (greedy_search_decodes_each_utterance_alone LogQ _ _ _ _ _
           TorchQ_first scenario_model scenario_batch scenario_lens
           scenario_greedy_result scenario_sort scenario_greedy_batch
           2 (fun t => t) 3%Z eq_refl eq_refl).
Defined.

(** An utterance gets the same rows from [greedy_search_batch] in every
    batch that holds it, at whatever position: in particular the result of a
    permuted batch is the permuted result. *)
Theorem greedy_rows_do_not_depend_on_the_batch :
  forall (O : ScoreOps) (frame eframe dec logits temperature : Type)
         (K : Torch O logits temperature)
         (m : Model frame eframe dec logits)
         (enc enc' : list (nat -> frame)) (lens lens' : list Z)
         (res res' : DecodingResults O),
    sorts_descending (sort_descending K) lens ->
    sorts_descending (sort_descending K) lens' ->
    outcome (greedy_search_batch K m enc lens) = Ok res ->
    outcome (greedy_search_batch K m enc' lens') = Ok res' ->
    forall i j frames l,
      nth_error enc i = Some frames ->
      nth_error lens i = Some l ->
      nth_error enc' j = Some frames ->
      nth_error lens' j = Some l ->
      nth_error (hyps res') j = nth_error (hyps res) i
      /\ nth_error (timestamps res') j = nth_error (timestamps res) i
      /\ nth_error (scores res') j = nth_error (scores res) i.
Proof.
  intros O frame eframe dec logits temperature K m enc enc' lens lens'
         res res' Hs Hs' H H' i j frames l Hi Hl Hj Hl'.
  destruct (greedy_rows_alone O K m enc lens res Hs H i frames l Hi Hl)
    as (r & Hr & A1 & A2 & A3).
  destruct (greedy_rows_alone O K m enc' lens' res' Hs' H' j frames l Hj Hl')
    as (r' & Hr' & B1 & B2 & B3).
  assert (r' = r) by congruence. subst r'.
  rewrite A1, A2, A3, B1, B2, B3. auto.
Qed.

(** The batch of the sample runs with the longest utterance first. *)
Definition scenario_lens_sorted : list Z := [3; 2; 1]%Z.

Definition scenario_greedy_result_sorted : DecodingResults LogQ :=
  @Build_DecodingResults LogQ
    [[0; 2]; [0]; [0]]
    [[2; 3]; [2]; [2]]%Z
    [[6 # 10; 6 # 10]; [6 # 10]; [6 # 10]]%Q.

Example scenario_greedy_batch_sorted :
  outcome (greedy_search_batch TorchQ_first scenario_model
             scenario_batch scenario_lens_sorted)
  = Ok scenario_greedy_result_sorted.
Proof. reflexivity. Qed.

Lemma scenario_sort_sorted :
  sorts_descending sort_descending_stable scenario_lens_sorted.
Proof.
  split.
  - apply Permutation_refl.
  - intros sl H. inversion H; subst sl.
    repeat constructor; lia.
Qed.

Lemma greedy_rows_do_not_depend_on_the_batch_witness :
  nth_error (hyps scenario_greedy_result_sorted) 0
  = nth_error (hyps scenario_greedy_result) 2
  /\ nth_error (timestamps scenario_greedy_result_sorted) 0
     = nth_error (timestamps scenario_greedy_result) 2
  /\ nth_error (scores scenario_greedy_result_sorted) 0
     = nth_error (scores scenario_greedy_result) 2.
Proof.
  apply (greedy_rows_do_not_depend_on_the_batch LogQ _ _ _ _ _
           TorchQ_first scenario_model scenario_batch scenario_batch
           scenario_lens scenario_lens_sorted
           scenario_greedy_result scenario_greedy_result_sorted
           scenario_sort scenario_sort_sorted
           scenario_greedy_batch scenario_greedy_batch_sorted
           2 0 (fun t => t) 3%Z eq_refl eq_refl eq_refl eq_refl).
Defined.

(** ** Each utterance by itself, in the beam search *)

Lemma merge_at_length {O} k hyp (d : HypothesisList O) :
  length (merge_at k hyp d) = length d.
Proof.
  induction d as [| [k' h] d IH]; simpl; auto.
  destruct (String.eqb k k'); simpl; auto.
Qed.

Lemma fold_add_length {O} (hs : list (Hypothesis_ O)) : forall d,
  hl_len (fold_left (@add O) hs d) <= hl_len d + length hs.
Proof.
  induction hs as [| h hs IH]; intros d; simpl; [lia |].
  specialize (IH (add d h)).
  assert (hl_len (add d h) <= S (hl_len d)).
  { unfold add, hl_len. destruct (contains (key h) d).
    - rewrite merge_at_length. lia.
    - rewrite length_app. simpl. lia. }
  lia.
Qed.

Lemma total_values_le {O} beam (B : list (HypothesisList O)) :
  Forall (fun d => hl_len d <= beam) B ->
  length (concat (map (@values O) B)) <= length B * beam.
Proof.
  induction 1 as [| d B Hd _ IH]; simpl; [lia |].
  rewrite length_app. unfold values at 1. rewrite length_map.
  unfold hl_len in Hd. lia.
Qed.

Section BeamAlone.
Context {frame eframe dec logits temperature : Type}.
Variable O : ScoreOps.
Variable K : Torch O logits temperature.
Variable m : Model frame eframe dec logits.
Variable beam : nat.
Variable temp : temperature.

Let C := context_size m.
Let blank := blank_id m.
Let unk := getattr_unk_id m.
Let V := vocab_size m.

(** The set of one utterance when the search starts. *)
Definition beam_set_start : HypothesisList O :=
  add [] {| ys := repeat blank C;
            hyp_scores := [];
            log_prob := s_zero O;
            timestamp := [] |}.

(** The beam search on one utterance, at the frame [e] of the time step
    [t]: the candidates of its hypotheses, the selection by [topk], and the
    new set. *)
Definition beam_set_step (t : nat) (e : eframe) (d : HypothesisList O)
  : result (HypothesisList O) :=
  let A_i := values d in
  let cands := concat (map (candidate_row O K m temp e) A_i) in
  rbind (topk K cands beam) (fun top =>
  beam_expand blank unk t V A_i cands top []).

(** The same over the [n] frames from [t0] on. *)
Fixpoint beam_set_run (frames : nat -> eframe) (t0 n : nat)
  (d : HypothesisList O) : result (HypothesisList O) :=
  match n with
  | 0 => Ok d
  | S n' =>
      rbind (beam_set_step t0 (frames t0) d) (beam_set_run frames (S t0) n')
  end.

Lemma beam_set_run_snoc frames : forall n t0 d,
  beam_set_run frames t0 (S n) d
  = rbind (beam_set_run frames t0 n d)
          (beam_set_step (t0 + n) (frames (t0 + n))).
Proof.
  induction n as [| n IH]; intros t0 d.
  - simpl. rewrite Nat.add_0_r.
    destruct (beam_set_step t0 (frames t0) d); reflexivity.
  - change (beam_set_run frames t0 (S (S n)) d)
      with (rbind (beam_set_step t0 (frames t0) d)
                  (beam_set_run frames (S t0) (S n))).
    change (beam_set_run frames t0 (S n) d)
      with (rbind (beam_set_step t0 (frames t0) d)
                  (beam_set_run frames (S t0) n)).
    destruct (beam_set_step t0 (frames t0) d) as [d1 | err];
      [| reflexivity].
    change (beam_set_run frames (S t0) (S n) d1
            = rbind (beam_set_run frames (S t0) n d1)
                    (beam_set_step (t0 + S n) (frames (t0 + S n)))).
    rewrite IH. now replace (S t0 + n) with (t0 + S n) by lia.
Qed.

Hypothesis topk_length : forall xs r, topk K xs beam = Ok r -> length r <= beam.

Lemma beam_set_step_size t e d d' :
  beam_set_step t e d = Ok d' -> hl_len d' <= beam.
Proof.
  unfold beam_set_step. intros H.
  apply rbind_ok in H as (top & Htop & H).
  rewrite beam_expand_fold in H.
  apply rbind_ok in H as (hs & Hhs & H). inversion H; subst d'.
  apply rmapM_ok_length in Hhs. apply topk_length in Htop.
  pose proof (fold_add_length hs []) as F. simpl in F. lia.
Qed.

(** While the row splits do not wrap, the new set of the utterance [i] of
    a time step is the step of the search on that utterance alone. *)
Lemma beam_utterance_alone cur B bt i e t d' :
  (Z.of_nat (length (concat (map (@values O) B))) < 2 ^ 31)%Z ->
  (Z.of_nat (length (concat (map (@values O) B)) * V) < 2 ^ 31)%Z ->
  outcome (beam_scoring K m C temp cur B) = Ok bt ->
  nth_error cur i = Some e ->
  beam_utterance K blank unk beam t V (bt_A bt) (bt_row_splits bt)
    (bt_log_probs bt) (bt_log_probs_t bt) i = Ok d' ->
  exists B_i, nth_error B i = Some B_i /\ beam_set_step t e B_i = Ok d'.
Proof.
  intros Hfit Hfit' Hbt He H.
  destruct (beam_scoring_ok O K m _ _ _ _ Hbt) as (EA & _ & Et).
  unfold beam_utterance in H.
  apply rbind_ok in H as (lo & Hlo & H).
  apply rbind_ok in H as (hi & Hhi & H).
  apply rbind_ok in H as (top & Htop & H).
  apply rbind_ok in H as (A_i & HA & H).
  apply index_ok in Hlo. apply index_ok in Hhi. apply index_ok in HA.
  rewrite EA, nth_error_map in HA.
  destruct (nth_error B i) as [B_i |] eqn:EB; [| discriminate].
  simpl in HA. inversion HA; subst A_i; clear HA.
  destruct (beam_scoring_slice O _ _ _ _ _ K m temp cur B bt i B_i e
              Hfit Hfit' Hbt EB He)
    as (lo' & hi' & Hlo' & Hhi' & _ & _ & Hs).
  assert (lo' = lo) by congruence. assert (hi' = hi) by congruence.
  subst lo' hi'. rewrite Et, Hs in H. rewrite Hs in Htop.
  exists B_i. split; [reflexivity |].
  unfold beam_set_step. rewrite Htop. exact H.
Qed.

(** Before the time step [t] of the batch, the set of every utterance,
    active or finalized, is what the search on the utterance alone gives
    after the frames that the utterance has below [t]. *)
Definition beam_alone_inv (sizes : list nat) (sl : list Z)
  (si : list (nat -> frame)) (t : nat) (s : BeamState O) : Prop :=
  b_offset s = list_sum (firstn t sizes)
  /\ (forall k rowk lk,
        nth_error si k = Some rowk ->
        nth_error sl k = Some lk ->
        exists d,
          beam_set_run (fun t' => encoder_proj m (rowk t')) 0
            (Nat.min t (Z.to_nat lk)) beam_set_start = Ok d
          /\ nth_error (b_B s ++ b_finalized_B s) k = Some d)
  /\ Forall (fun d => hl_len d <= beam) (b_B s).

Lemma beam_alone_step (data : list frame) sizes sl si N t bs s s' :
  descending sl ->
  length si <= N ->
  (Z.of_nat (N * beam * V) < 2 ^ 31)%Z ->
  0 < V ->
  (forall t bs,
     nth_error sizes t = Some bs ->
     bs = count_longer sl t
     /\ bs <= length si
     /\ slice data (list_sum (firstn t sizes))
                   (list_sum (firstn t sizes) + bs)
        = map (fun row => row t) (firstn bs si)) ->
  beam_alone_inv sizes sl si t s ->
  nth_error sizes t = Some bs ->
  outcome (beam_step K m blank unk C beam temp (map (encoder_proj m) data)
             t bs s) = Ok s' ->
  beam_alone_inv sizes sl si (S t) s'.
Proof.
  intros Hdesc HN Hbound HV Hframes (Hoff & Hrows & Hsz) Hbs H.
  unfold beam_step in H.
  rewrite outcome_bind in H. apply rbind_ok in H as (bt & Hbt & H).
  rewrite outcome_bind, outcome_lift in H.
  apply rbind_ok in H as (B' & HB' & H).
  rewrite outcome_ret in H. inversion H; subst s'; clear H.
  destruct (Hframes t bs Hbs) as (Ebs & Hle & Hcur).
  set (B := firstn bs (b_B s)) in *.
  set (cur := slice (map (encoder_proj m) data) (b_offset s)
                (b_offset s + bs)) in *.
  assert (Ecur : cur = map (encoder_proj m)
                           (map (fun row => row t) (firstn bs si)))
    by (unfold cur; rewrite Hoff, slice_map, Hcur; reflexivity).
  assert (LB' : length B' = bs)
    by (apply rmapM_ok_length in HB'; now rewrite length_seq in HB').
  assert (HszB : Forall (fun d => hl_len d <= beam) B)
    by (apply (Forall_firstn_skipn _ bs) in Hsz; tauto).
  assert (LBle : length B <= bs) by (unfold B; apply firstn_le_length).
  assert (Hfit' : (Z.of_nat (length (concat (map (@values O) B)) * V)
                   < 2 ^ 31)%Z).
  { pose proof (total_values_le beam B HszB) as Ht.
    assert (length (concat (map (@values O) B)) * V <= N * beam * V).
    { apply Nat.mul_le_mono_r. etransitivity; [exact Ht |].
      apply Nat.mul_le_mono_r. lia. }
    change (2 ^ 31)%Z with 2147483648%Z in *. lia. }
  assert (Hfit : (Z.of_nat (length (concat (map (@values O) B)))
                  < 2 ^ 31)%Z).
  { assert (length (concat (map (@values O) B))
            <= length (concat (map (@values O) B)) * V)
      by (destruct V; [lia | rewrite Nat.mul_succ_r; lia]).
    change (2 ^ 31)%Z with 2147483648%Z in *. lia. }
  assert (Hact : forall k rowk,
             k < bs -> nth_error si k = Some rowk ->
             exists d',
               nth_error B' k = Some d'
               /\ exists B_k,
                    nth_error B k = Some B_k
                    /\ beam_set_step t (encoder_proj m (rowk t)) B_k
                       = Ok d').
  { intros k rowk Hk Hrowk.
    assert (Hseq : nth_error (seq 0 bs) k = Some k).
    { rewrite nth_error_seq. destruct (Nat.ltb_spec k bs); [auto | lia]. }
    destruct (rmapM_ok_nth _ _ _ HB' _ _ Hseq) as (d' & Hd' & Hut).
    exists d'. split; [exact Hd' |].
    apply (beam_utterance_alone cur B bt k (encoder_proj m (rowk t)) t d'
             Hfit Hfit' Hbt); [| exact Hut].
    rewrite Ecur, !nth_error_map, nth_error_firstn_lt by exact Hk.
    now rewrite Hrowk. }
  assert (LB : length B = bs).
  { destruct bs as [| n]; [lia |].
    assert (Hn : n < length si) by lia.
    destruct (nth_error si n) as [rown |] eqn:En;
      [| apply nth_error_None in En; lia].
    destruct (Hact n rown (Nat.lt_succ_diag_r n) En)
      as (_ & _ & B_n & HBn & _).
    assert (n < length B) by (apply nth_error_Some; congruence). lia. }
  assert (Esplit : b_B s ++ b_finalized_B s
                   = B ++ (skipn bs (b_B s) ++ b_finalized_B s)).
  { unfold B. now rewrite app_assoc, firstn_skipn. }
  split; [| split]; cbn [b_offset b_B b_finalized_B].
  - rewrite Hoff. symmetry. now apply list_sum_firstn_succ.
  - intros k rowk lk Hk Hlk.
    destruct (Hrows k rowk lk Hk Hlk) as (d & Hrun & Hd).
    rewrite Esplit in Hd.
    destruct (Nat.lt_ge_cases k bs) as [Hlt | Hge].
    + assert (Hlong : (Z.of_nat t < lk)%Z).
      { apply (count_longer_prefix sl Hdesc k lk t Hlk). now rewrite <- Ebs. }
      rewrite Nat.min_l in Hrun by lia.
      rewrite (Nat.min_l (S t)) by lia.
      destruct (Hact k rowk Hlt Hk) as (d' & Hd' & B_k & HBk & Hstep).
      rewrite nth_error_app1 in Hd by lia.
      assert (B_k = d) by congruence. subst B_k.
      exists d'. split.
      * rewrite beam_set_run_snoc, Hrun. exact Hstep.
      * rewrite nth_error_app1 by lia. exact Hd'.
    + assert (Hshort : ~ (Z.of_nat t < lk)%Z).
      { intros Hlong.
        apply (count_longer_prefix sl Hdesc k lk t Hlk) in Hlong. lia. }
      assert (Emin : Nat.min (S t) (Z.to_nat lk) = Nat.min t (Z.to_nat lk))
        by lia.
      rewrite Emin. exists d. split; [exact Hrun |].
      rewrite nth_error_app2 in Hd by lia.
      rewrite nth_error_app2 by lia. rewrite LB'. rewrite LB in Hd.
      exact Hd.
  - apply Forall_forall. intros d' Hd'.
    apply In_nth_error in Hd' as (k & Hk).
    assert (Hlt : k < bs).
    { rewrite <- LB'. apply nth_error_Some. congruence. }
    destruct (nth_error si k) as [rowk |] eqn:Erow;
      [| apply nth_error_None in Erow; lia].
    destruct (Hact k rowk Hlt Erow) as (d'' & Hd'' & B_k & _ & Hstep).
    assert (d'' = d') by congruence. subst d''.
    exact (beam_set_step_size _ _ _ _ Hstep).
Qed.

Lemma beam_alone_loop (data : list frame) sizes sl si N l : forall t0 s s',
  descending sl ->
  length si <= N ->
  (Z.of_nat (N * beam * V) < 2 ^ 31)%Z ->
  0 < V ->
  (forall t bs,
     nth_error sizes t = Some bs ->
     bs = count_longer sl t
     /\ bs <= length si
     /\ slice data (list_sum (firstn t sizes))
                   (list_sum (firstn t sizes) + bs)
        = map (fun row => row t) (firstn bs si)) ->
  beam_alone_inv sizes sl si t0 s ->
  (forall k, nth_error l k = nth_error sizes (t0 + k)) ->
  rfor_enumerate
    (fun t bs s =>
       outcome (beam_step K m blank unk C beam temp
                  (map (encoder_proj m) data) t bs s))
    t0 l s = Ok s' ->
  beam_alone_inv sizes sl si (t0 + length l) s'.
Proof.
  induction l as [| bs l IH];
    intros t0 s s' Hdesc HN Hbound HV Hframes Hinv Hsizes H; simpl in H.
  - inversion H; subst s'. simpl. now rewrite Nat.add_0_r.
  - apply rbind_ok in H as (s1 & H1 & H).
    assert (Hbs : nth_error sizes t0 = Some bs).
    { rewrite <- (Nat.add_0_r t0). now rewrite <- Hsizes. }
    simpl. replace (t0 + S (length l)) with (S t0 + length l) by lia.
    apply (IH (S t0) s1 s' Hdesc HN Hbound HV Hframes).
    + eapply beam_alone_step; eauto.
    + intros k. replace (S t0 + k) with (t0 + S k) by lia.
      apply (Hsizes (S k)).
    + exact H.
Qed.

End BeamAlone.

(** The rows that [modified_beam_search] returns are those of the search on
    each utterance alone, as long as the row splits cannot wrap. *)
Lemma beam_rows_alone {frame eframe dec logits temperature} O
  (K : Torch O logits temperature) (m : Model frame eframe dec logits)
  (beam : nat) (temp : temperature)
  (enc : list (nat -> frame)) (lens : list Z) res :
  sorts_descending (sort_descending K) lens ->
  1 <= beam ->
  (forall xs r, topk K xs beam = Ok r -> length r <= beam) ->
  0 < vocab_size m ->
  (Z.of_nat (length enc * beam * vocab_size m) < 2 ^ 31)%Z ->
  outcome (modified_beam_search K m enc lens beam temp) = Ok res ->
  forall i frames l,
    nth_error enc i = Some frames ->
    nth_error lens i = Some l ->
    exists d h,
      beam_set_run O K m beam temp (fun t => encoder_proj m (frames t)) 0
        (Z.to_nat l) (beam_set_start O m) = Ok d
      /\ get_most_probable d true = Ok h
      /\ nth_error (hyps res) i = Some (skipn (context_size m) (ys h))
      /\ nth_error (timestamps res) i = Some (timestamp h)
      /\ nth_error (scores res) i = Some (hyp_scores h).
Proof.
  intros [Hperm Hdesc] Hbeam Htopk HV Hbound H i frames l Hi Hl.
  destruct (modified_beam_search_inv _ _ _ _ _ _ _ _ H)
    as (packed & B & best & Hsets & Hbest & Hh & Ht & Hs).
  destruct (beam_search_sets_inv _ _ _ _ _ _ _ _ _ Hsets)
    as (s & Hpack & _ & _ & Hloop & HB).
  destruct (pack_layout _ _ _ _ Hpack) as (sl & si & Hsl & Hsi & HT & Hframes).
  destruct (pack_indices _ _ _ _ Hpack) as (_ & Eu & Hlt).
  specialize (Hdesc sl Hsl).
  set (p := sort_descending K lens) in *.
  assert (Hnd : NoDup p)
    by (apply (Permutation_NoDup (Permutation_sym Hperm)), seq_NoDup).
  assert (Hbnd : forall x, In x p -> x < length p).
  { intros x Hx. rewrite (Permutation_length Hperm), length_seq.
    apply (Permutation_in _ Hperm) in Hx. apply in_seq in Hx. lia. }
  assert (Hin : In i p).
  { apply (Permutation_in _ (Permutation_sym Hperm)). apply in_seq.
    assert (i < length lens) by (apply nth_error_Some; congruence). lia. }
  apply In_nth_error in Hin as (k & Hk).
  destruct (rmapM_ok_nth _ _ _ Hsl _ _ Hk) as (lk & Hlk & Elk).
  destruct (rmapM_ok_nth _ _ _ Hsi _ _ Hk) as (rowk & Hrowk & Erow).
  apply index_ok in Elk. apply index_ok in Erow.
  assert (lk = l) by congruence. assert (rowk = frames) by congruence.
  subst lk rowk.
  assert (Lsi : length si <= length enc).
  { apply rmapM_ok_length in Hsi. rewrite Hsi.
    destruct (length p) as [| n] eqn:En; [lia |].
    assert (Hlast : In n p).
    { apply (Permutation_in _ (Permutation_sym Hperm)). apply in_seq.
      pose proof (Permutation_length Hperm) as HL.
      rewrite length_seq in HL. lia. }
    apply In_nth_error in Hlast as (k' & Hk').
    specialize (Hlt _ _ Hk'). lia. }
  assert (Hinit : beam_alone_inv O K m beam temp (batch_sizes packed) sl si 0
                    {| b_offset := 0;
                       b_B := repeat (beam_set_start O m) (length enc);
                       b_finalized_B := [] |}).
  { split; [reflexivity | split].
    - intros k0 row0 l0 Hk0 _. simpl.
      exists (beam_set_start O m). split; [reflexivity |].
      assert (k0 < length enc).
      { assert (k0 < length si) by (apply nth_error_Some; congruence). lia. }
      rewrite app_nil_r. now apply nth_error_repeat.
    - simpl. apply Forall_forall. intros d Hd.
      apply repeat_spec in Hd. subst d. simpl. exact Hbeam. }
  pose proof (beam_alone_loop O K m beam temp Htopk
                (data packed) (batch_sizes packed) sl si (length enc)
                (batch_sizes packed) 0 _ _ Hdesc Lsi Hbound HV Hframes Hinit
                (fun k => eq_refl) Hloop) as (_ & Hrows & _).
  destruct (Hrows k frames l Hrowk Hlk) as (d & Hrun & Hd).
  simpl in Hrun. rewrite HT in Hrun.
  pose proof (descending_hd sl k l Hdesc Hlk) as Hhd.
  rewrite Nat.min_r in Hrun by lia.
  rewrite <- HB in Hd.
  destruct (rmapM_ok_nth _ _ _ Hbest _ _ Hd) as (h & Hbk & Hmax).
  assert (HiN : i < length enc) by (apply nth_error_Some; congruence).
  assert (Hu : nth_error (unsorted_indices packed) i = Some k)
    by (rewrite Eu; now apply invert_permutation_spec).
  exists d, h. split; [exact Hrun |]. split; [exact Hmax |].
  split; [| split].
  - apply (unsort_row _ _ _ _ _ _ _ Hh HiN Hu).
    now rewrite nth_error_map, Hbk.
  - apply (unsort_row _ _ _ _ _ _ _ Ht HiN Hu).
    now rewrite nth_error_map, Hbk.
  - apply (unsort_row _ _ _ _ _ _ _ Hs HiN Hu).
    now rewrite nth_error_map, Hbk.
Qed.

(** [modified_beam_search] decodes every utterance by itself: when the sort
    of the lengths puts every utterance of the batch once and the longest
    first, [topk] returns at most [beam] entries, and the batch is small
    enough for the [int32] row splits (fewer than [2^31] candidates in a
    time step), the three rows that are returned for the utterance [i] are
    those of the most probable hypothesis of the beam search on that
    utterance alone, over its valid frames. *)
Theorem beam_search_decodes_each_utterance_alone :
  forall (O : ScoreOps) (frame eframe dec logits temperature : Type)
         (K : Torch O logits temperature)
         (m : Model frame eframe dec logits)
         (beam : nat) (temp : temperature)
         (encoder_out : list (nat -> frame)) (encoder_out_lens : list Z)
         (res : DecodingResults O),
    sorts_descending (sort_descending K) encoder_out_lens ->
    1 <= beam ->
    (forall xs r, topk K xs beam = Ok r -> length r <= beam) ->
    0 < vocab_size m ->
    (Z.of_nat (length encoder_out * beam * vocab_size m) < 2 ^ 31)%Z ->
    outcome (modified_beam_search K m encoder_out encoder_out_lens beam temp)
    = Ok res ->
    forall i frames l,
      nth_error encoder_out i = Some frames ->
      nth_error encoder_out_lens i = Some l ->
      exists d h,
        beam_set_run O K m beam temp (fun t => encoder_proj m (frames t)) 0
          (Z.to_nat l) (beam_set_start O m) = Ok d
        /\ get_most_probable d true = Ok h
        /\ nth_error (hyps res) i = Some (skipn (context_size m) (ys h))
        /\ nth_error (timestamps res) i = Some (timestamp h)
        /\ nth_error (scores res) i = Some (hyp_scores h).
Proof.
  intros O frame eframe dec logits temperature K m beam temp enc lens res.
  apply beam_rows_alone.
Qed.

Lemma beam_search_decodes_each_utterance_alone_witness :
  exists d h,
    beam_set_run LogQ TorchQ_first scenario_model 2 tt
      (fun t => encoder_proj scenario_model t) 0 (Z.to_nat 3)
      (beam_set_start LogQ scenario_model) = Ok d
    /\ get_most_probable d true = Ok h
    /\ nth_error (hyps scenario_beam_result) 2
       = Some (skipn (context_size scenario_model) (ys h))
    /\ nth_error (timestamps scenario_beam_result) 2 = Some (timestamp h)
    /\ nth_error (scores scenario_beam_result) 2 = Some (hyp_scores h).
Proof.
  apply (beam_search_decodes_each_utterance_alone LogQ _ _ _ _ _
           TorchQ_first scenario_model 2 tt scenario_batch scenario_lens
           scenario_beam_result scenario_sort)
    with (i := 2) (frames := fun t : nat => t) (l := 3%Z).
  - lia.
  - intros xs r H. exact (topk_first_length xs 2 r H).
  - simpl. lia.
  - reflexivity.
  - exact scenario_beam_batch.
  - reflexivity.
  - reflexivity.
Defined.

(** An utterance gets the same rows from [modified_beam_search] in every
    batch that holds it, at whatever position, as long as the row splits
    cannot wrap in either batch: in particular the result of a permuted
    batch is the permuted result. *)
Theorem beam_rows_do_not_depend_on_the_batch :
  forall (O : ScoreOps) (frame eframe dec logits temperature : Type)
         (K : Torch O logits temperature)
         (m : Model frame eframe dec logits)
         (beam : nat) (temp : temperature)
         (enc enc' : list (nat -> frame)) (lens lens' : list Z)
         (res res' : DecodingResults O),
    sorts_descending (sort_descending K) lens ->
    sorts_descending (sort_descending K) lens' ->
    1 <= beam ->
    (forall xs r, topk K xs beam = Ok r -> length r <= beam) ->
    0 < vocab_size m ->
    (Z.of_nat (length enc * beam * vocab_size m) < 2 ^ 31)%Z ->
    (Z.of_nat (length enc' * beam * vocab_size m) < 2 ^ 31)%Z ->
    outcome (modified_beam_search K m enc lens beam temp) = Ok res ->
    outcome (modified_beam_search K m enc' lens' beam temp) = Ok res' ->
    forall i j frames l,
      nth_error enc i = Some frames ->
      nth_error lens i = Some l ->
      nth_error enc' j = Some frames ->
      nth_error lens' j = Some l ->
      nth_error (hyps res') j = nth_error (hyps res) i
      /\ nth_error (timestamps res') j = nth_error (timestamps res) i
      /\ nth_error (scores res') j = nth_error (scores res) i.
Proof.
  intros O frame eframe dec logits temperature K m beam temp enc enc'
         lens lens' res res' Hs Hs' Hbeam Htopk HV Hb Hb' H H'
         i j frames l Hi Hl Hj Hl'.
  destruct (beam_rows_alone O K m beam temp enc lens res
              Hs Hbeam Htopk HV Hb H i frames l Hi Hl)
    as (d & h & Hd & Hm & A1 & A2 & A3).
  destruct (beam_rows_alone O K m beam temp enc' lens' res'
              Hs' Hbeam Htopk HV Hb' H' j frames l Hj Hl')
    as (d' & h' & Hd' & Hm' & B1 & B2 & B3).
  assert (d' = d) by congruence. subst d'.
  assert (h' = h) by congruence. subst h'.
  rewrite A1, A2, A3, B1, B2, B3. auto.
Qed.

Definition scenario_beam_result_sorted : DecodingResults LogQ :=
  @Build_DecodingResults LogQ
    [[0; 2]; [0]; [0]]
    [[2; 3]; [2]; [2]]%Z
    [[6 # 10; 216 # 1000]; [6 # 10]; [6 # 10]]%Q.

Example scenario_beam_batch_sorted :
  outcome (modified_beam_search TorchQ_first scenario_model
             scenario_batch scenario_lens_sorted 2 tt)
  = Ok scenario_beam_result_sorted.
Proof. reflexivity. Qed.

Lemma beam_rows_do_not_depend_on_the_batch_witness :
  nth_error (hyps scenario_beam_result_sorted) 0
  = nth_error (hyps scenario_beam_result) 2
  /\ nth_error (timestamps scenario_beam_result_sorted) 0
     = nth_error (timestamps scenario_beam_result) 2
  /\ nth_error (scores scenario_beam_result_sorted) 0
     = nth_error (scores scenario_beam_result) 2.
Proof.
  apply (beam_rows_do_not_depend_on_the_batch LogQ _ _ _ _ _
           TorchQ_first scenario_model 2 tt scenario_batch scenario_batch
           scenario_lens scenario_lens_sorted
           scenario_beam_result scenario_beam_result_sorted
           scenario_sort scenario_sort_sorted)
    with (i := 2) (j := 0) (frames := fun t : nat => t) (l := 3%Z).
  - lia.
  - intros xs r H. exact (topk_first_length xs 2 r H).
  - simpl. lia.
  - reflexivity.
  - reflexivity.
  - exact scenario_beam_batch.
  - exact scenario_beam_batch_sorted.
  - reflexivity.
  - reflexivity.
  - reflexivity.
  - reflexivity.
Defined.
